(** * Graph2Tree: the scoring helpers of [runner_jobs.py] and the decoding
      loop of [StdRNNDecoder.py], embedded in Rocq.

    The development follows the Python sources function by function:
    - Python strings are sequences of Unicode code points ([pystr]); the
      string methods used by the code ([replace], [split], [strip], [join],
      [count]) are written out as list functions;
    - exceptions are the constructors of [exn], and a computation that may
      raise returns a [result];
    - Python sets of strings are [gset pystr], dictionaries are [gmap];
    - objects that are copied or updated in place live on a heap;
    - tensor entries are real numbers, and the layers whose weights are
      learned are fields of the decoder object. *)

From Stdlib Require Import Ascii String ZArith NArith List Lia QArith Reals Lra.
From stdpp Require Import base option list gmap sets strings.

Open Scope nat_scope.

(** ** Exceptions and results *)

Inductive exn : Type :=
| RuntimeError
| NotImplementedError
| ZeroDivisionError
| KeyError
| IndexError
| AttributeError
| AssertionError
| ValueError
| NameError
| TypeError.

Inductive result (A : Type) : Type :=
| Ok (a : A)
| Raise (e : exn).
Arguments Ok {A} a.
Arguments Raise {A} e.

#[global] Instance result_ret : MRet result := fun _ a => Ok a.
#[global] Instance result_bind : MBind result := fun _ _ f m =>
  match m with
  | Ok a => f a
  | Raise e => Raise e
  end.

(** [for x in xs: s = body x s], stopping at the first exception. *)
Fixpoint for_each {A S : Type} (body : A -> S -> result S) (xs : list A) (s : S)
  : result S :=
  match xs with
  | [] => Ok s
  | x :: xs' => s' ← body x s; for_each body xs' s'
  end.

(** ** Python strings *)

Module PyStr.

(** A [str] is a sequence of code points. *)
Abbreviation pystr := (list N).

(** A literal, written as an ASCII string. *)
Definition py (s : string) : pystr :=
  map N_of_ascii (list_ascii_of_string s).

Definition space : N := 32.
Definition comma : N := 44.
Definition dollar : N := 36.

(** The code points for which [str.isspace] holds; [str.split()] and
    [str.strip()] cut at exactly these. *)
Definition is_space (c : N) : bool :=
  ((9 <=? c) && (c <=? 13) || (28 <=? c) && (c <=? 32)
   || (c =? 133) || (c =? 160) || (c =? 5760)
   || (8192 <=? c) && (c <=? 8202)
   || (c =? 8232) || (c =? 8233) || (c =? 8239) || (c =? 8287)
   || (c =? 12288))%N.

(** [s.replace(old, new)] for a one-character [old]. *)
Definition replace_char (old : N) (new : pystr) (s : pystr) : pystr :=
  flat_map (fun c => if (c =? old)%N then new else [c]) s.

(** [s.split()]: the maximal runs of non-space characters. *)
Fixpoint split_ws (s : pystr) : list pystr :=
  match s with
  | [] => []
  | c :: s' =>
      if is_space c then split_ws s'
      else match s' with
           | [] => [[c]]
           | c' :: _ =>
               if is_space c' then [c] :: split_ws s'
               else match split_ws s' with
                    | w :: ws => (c :: w) :: ws
                    | [] => [[c]]
                    end
           end
  end.

(** [s.split(sep)] for a one-character [sep]: empty pieces are kept. *)
Fixpoint split_on (sep : N) (s : pystr) : list pystr :=
  match s with
  | [] => [[]]
  | c :: s' =>
      if (c =? sep)%N then [] :: split_on sep s'
      else match split_on sep s' with
           | w :: ws => (c :: w) :: ws
           | [] => [[c]]
           end
  end.

Fixpoint lstrip (s : pystr) : pystr :=
  match s with
  | [] => []
  | c :: s' => if is_space c then lstrip s' else s
  end.

Definition rstrip (s : pystr) : pystr := rev (lstrip (rev s)).

(** [s.strip()] *)
Definition strip (s : pystr) : pystr := rstrip (lstrip s).

(** [sep.join(l)] *)
Fixpoint join (sep : pystr) (l : list pystr) : pystr :=
  match l with
  | [] => []
  | [x] => x
  | x :: xs => x ++ sep ++ join sep xs
  end.

(** [l.count(x)] on a list of strings. *)
Definition count (x : pystr) (l : list pystr) : nat :=
  length (filter (fun y => y = x) l).

End PyStr.
Export PyStr.

(** ** [runner_jobs.py]: comma-permutation-tolerant comparison *)

Definition ref_char : pystr := py "$".

(** One iteration of the loop of [get_split_comma]; [input_list] is the
    list as mutated by the earlier iterations. *)
Definition get_split_comma_step (index : nat) (input_list : list pystr)
  : result (list pystr) :=
  match input_list !! index with
  | None => Raise IndexError
  | Some tok =>
      if bool_decide (tok = py ",") then
        if count (py "(") (take index input_list)
           =? count (py ")") (take index input_list) then
          if count (py "(") (drop (S index) input_list)
             =? count (py ")") (drop (S index) input_list) then
            if bool_decide (tok = ref_char) then Raise RuntimeError
            else Ok (<[index := ref_char]> input_list)
          else Ok input_list
        else Ok input_list
      else Ok input_list
  end.

Definition get_split_comma (input_str : pystr) : result (gset pystr) :=
  let input_str := replace_char comma (py " , ") input_str in
  let input_list := map strip (split_ws input_str) in
  input_list ← for_each get_split_comma_step (seq 0 (length input_list)) input_list;
  let new_str := split_on dollar (join (py " ") input_list) in
  Ok (fold_left (fun result_set str_ => {[ strip str_ ]} ∪ result_set)
                new_str ∅).

(** The form manager is used through [get_idx_symbol] only. *)
Definition render (get_idx_symbol : Z -> pystr) (c : list Z) : pystr :=
  join (py " ") (map get_idx_symbol c).

(** The scan [for j in range(len(c1))] of [is_all_same], entered with
    lists of one length; [false] is the exit through [break]. *)
Fixpoint all_same_scan (c1 c2 : list Z) : bool :=
  match c1, c2 with
  | x :: c1', y :: c2' => if (x =? y)%Z then all_same_scan c1' c2' else false
  | _, _ => true
  end.

Definition is_all_same (c1 c2 : list Z) (get_idx_symbol : Z -> pystr)
  : result bool :=
  let all_same :=
    if length c1 =? length c2 then all_same_scan c1 c2 else true in
  if (length c1 =? length c2) && all_same then Ok true
  else if negb (length c1 =? length c2) || negb all_same then
    let d1 := render get_idx_symbol c1 in
    let d2 := render get_idx_symbol c2 in
    s1 ← get_split_comma d1;
    s2 ← get_split_comma d2;
    if bool_decide (s1 = s2) then Ok true else Ok false
  else Raise NotImplementedError.

(** What [print] writes when the two lists differ in length. *)
Inductive stdout_line : Type :=
| LengthMismatch (candidate_len reference_len : nat).

(** [c / float(len_min)]: the quotient, a [ZeroDivisionError] when
    [len_min] is 0.  The float returned by Python is the rounding of this
    rational. *)
Definition float_div (c len_min : nat) : result Q :=
  match len_min with
  | O => Raise ZeroDivisionError
  | S _ => Ok (Z.of_nat c # Pos.of_nat len_min)
  end.

(** [l[i]] for a non-negative [i]. *)
Definition getitem {A : Type} (l : list A) (i : nat) : result A :=
  match l !! i with
  | Some x => Ok x
  | None => Raise IndexError
  end.

Definition compute_accuracy (candidate_list reference_list : list (list Z))
    (get_idx_symbol : Z -> pystr) : list stdout_line * result Q :=
  let out :=
    if negb (length candidate_list =? length reference_list)
    then [LengthMismatch (length candidate_list) (length reference_list)]
    else [] in
  let len_min := Nat.min (length candidate_list) (length reference_list) in
  (out,
   c ← for_each (fun (i c : nat) =>
          cand ← getitem candidate_list i;
          ref ← getitem reference_list i;
          same ← is_all_same cand ref get_idx_symbol;
          if same : bool then Ok (c + 1) else Ok c)
        (seq 0 len_min) 0;
   float_div c len_min).

(** [out = []; for i in range(len(l)): out.append(l[i])] *)
Definition copy_by_index {A : Type} (l : list A) : result (list A) :=
  for_each (fun (i : nat) (out : list A) => x ← getitem l i; Ok (out ++ [x]))
           (seq 0 (length l)) [].

Definition compute_tree_accuracy (candidate_list_ reference_list_ : list (list Z))
    (get_idx_symbol : Z -> pystr) : list stdout_line * result Q :=
  match copy_by_index candidate_list_ with
  | Raise e => ([], Raise e)
  | Ok candidate_list =>
      match copy_by_index reference_list_ with
      | Raise e => ([], Raise e)
      | Ok reference_list =>
          compute_accuracy candidate_list reference_list get_idx_symbol
      end
  end.

(** ** The comparison as the specification words it

    The rendered string is read as a sequence of tokens: every comma is a
    token of its own and the other tokens are the whitespace-separated words.
    A parenthesis is a token ["("] or [")"].  A comma is top-level when the
    tokens strictly before it hold as many ["("] as [")"], and so do the
    tokens strictly after it.  The segments are the runs of tokens between
    top-level commas, each written with single spaces. *)
Module Spec.

Definition tokens (s : pystr) : list pystr :=
  split_ws (replace_char comma (py " , ") s).

Definition balanced (l : list pystr) : bool :=
  count (py "(") l =? count (py ")") l.

Definition top_level_comma (toks : list pystr) (i : nat) : bool :=
  bool_decide (toks !! i = Some (py ","))
  && balanced (take i toks) && balanced (drop (S i) toks).

(** Cut [toks] at the positions selected by [cut], dropping the token at
    each cut. *)
Fixpoint split_at (cut : nat -> bool) (toks : list pystr) : list (list pystr) :=
  match toks with
  | [] => [[]]
  | t :: rest =>
      if cut 0 then [] :: split_at (cut ∘ S) rest
      else match split_at (cut ∘ S) rest with
           | seg :: segs => (t :: seg) :: segs
           | [] => [[t]]
           end
  end.

Definition top_level_segments (s : pystr) : list (list pystr) :=
  let toks := tokens s in split_at (top_level_comma toks) toks.

(** The set of segments of [s]. *)
Definition segment_set (s : pystr) : gset pystr :=
  list_to_set (map (join (py " ")) (top_level_segments s)).

(** "element-wise equal lists of the same length, or the same set of
    segments" *)
Definition same_up_to_commas (c1 c2 : list Z) (get_idx_symbol : Z -> pystr)
  : bool :=
  bool_decide (c1 = c2)
  || bool_decide (segment_set (render get_idx_symbol c1)
                  = segment_set (render get_idx_symbol c2)).

End Spec.


(** ** [Jobs.eval]: closing the parentheses of the decoded candidate

    The block of [Jobs.eval] between the call of [translate] and the calls
    of [convert_to_string].  [eval_idx2symbol] is [eval_vocab.idx2symbol];
    [tgt_symbol2idx] is the dictionary reached through
    [self.test_data_loader.tgt_vocab.symbol2idx]. *)





(** ** Objects on the heap

    [copy.deepcopy] and the in-place updates of [add_symbol] only mean
    something for objects with an identity, so vocabularies, their two
    dictionaries and the batch graph live on a heap and are passed around
    by address. *)

Abbreviation loc := nat.

(** One entry of [batch_graph.node_attributes]: a dictionary read at the
    keys ['token'] and ['type'] only.  [None] is an absent key; for
    ['type'] also the value [None]. *)
Record node_attr : Type := {
  token : option pystr;
  type : option Z
}.

Inductive tensor : Type :=
| long_tensor (data : list Z)
| float_tensor (id : nat).

Record GraphData : Type := {
  node_attributes : list node_attr;
  node_features : gmap pystr tensor
}.

(** The attributes of a [Vocab] read by this file; the two dictionaries are
    objects of their own. *)
Record Vocab : Type := {
  symbol2idx : loc;
  idx2symbol : loc;
  vocab_size : Z;
  unk_token : pystr
}.

Inductive obj : Type :=
| OVocab (v : Vocab)
| ODictStrInt (d : gmap pystr Z)
| ODictIntStr (d : gmap Z pystr)
| OGraph (g : GraphData).

Record heap : Type := {
  objs : gmap loc obj;
  next_loc : loc
}.

(** A computation on the heap: the heap as an exception leaves it is kept. *)
Definition M (A : Type) : Type := heap -> result A * heap.

#[global] Instance M_ret : MRet M := fun _ a h => (Ok a, h).
#[global] Instance M_bind : MBind M := fun _ _ f m h =>
  match m h with
  | (Ok a, h') => f a h'
  | (Raise e, h') => (Raise e, h')
  end.

Definition raise {A : Type} (e : exn) : M A := fun h => (Raise e, h).

Definition alloc (o : obj) : M loc := fun h =>
  (Ok (next_loc h),
   {| objs := <[next_loc h := o]> (objs h); next_loc := S (next_loc h) |}).

Definition store (l : loc) (o : obj) : M unit := fun h =>
  (Ok tt, {| objs := <[l := o]> (objs h); next_loc := next_loc h |}).

Definition load_vocab (l : loc) : M Vocab := fun h =>
  match objs h !! l with
  | Some (OVocab v) => (Ok v, h)
  | _ => (Raise AttributeError, h)
  end.

Definition load_dict_str_int (l : loc) : M (gmap pystr Z) := fun h =>
  match objs h !! l with
  | Some (ODictStrInt d) => (Ok d, h)
  | _ => (Raise AttributeError, h)
  end.

Definition load_dict_int_str (l : loc) : M (gmap Z pystr) := fun h =>
  match objs h !! l with
  | Some (ODictIntStr d) => (Ok d, h)
  | _ => (Raise AttributeError, h)
  end.

Definition load_graph (l : loc) : M GraphData := fun h =>
  match objs h !! l with
  | Some (OGraph g) => (Ok g, h)
  | _ => (Raise AttributeError, h)
  end.

(** [for x in xs: acc = body x acc] on the heap. *)
Fixpoint for_each_M {A S : Type} (body : A -> S -> M S) (xs : list A) (s : S)
  : M S :=
  match xs with
  | [] => mret s
  | x :: xs' => s' ← body x s; for_each_M body xs' s'
  end.

(** Modelled from the spec: the class [Vocab] of
    [graph4nlp.pytorch.modules.utils.tree_utils] is not among the sources.
    [get_symbol_idx] returns the index of a known symbol and the index of
    the unknown token for any other symbol. *)
Definition get_symbol_idx (self : loc) (s : pystr) : M Z :=
  v ← load_vocab self;
  d ← load_dict_str_int (symbol2idx v);
  match d !! s with
  | Some i => mret i
  | None =>
      match d !! unk_token v with
      | Some u => mret u
      | None => raise KeyError
      end
  end.

(** Modelled from the spec: the class [Vocab] is not among the sources.
    [add_symbol] extends the vocabulary by a symbol it does not hold yet:
    the symbol gets the index [vocab_size], which then grows by one. *)
Definition add_symbol (self : loc) (s : pystr) : M unit :=
  v ← load_vocab self;
  d ← load_dict_str_int (symbol2idx v);
  match d !! s with
  | Some _ => mret tt
  | None =>
      store (symbol2idx v) (ODictStrInt (<[s := vocab_size v]> d));;
      d' ← load_dict_int_str (idx2symbol v);
      store (idx2symbol v) (ODictIntStr (<[vocab_size v := s]> d'));;
      store self (OVocab {| symbol2idx := symbol2idx v;
                            idx2symbol := idx2symbol v;
                            vocab_size := vocab_size v + 1;
                            unk_token := unk_token v |})
  end.

(** [copy.deepcopy] of a vocabulary: a new object with new dictionaries. *)
Definition deepcopy (self : loc) : M loc :=
  v ← load_vocab self;
  d1 ← load_dict_str_int (symbol2idx v);
  d2 ← load_dict_int_str (idx2symbol v);
  l1 ← alloc (ODictStrInt d1);
  l2 ← alloc (ODictIntStr d2);
  alloc (OVocab {| symbol2idx := l1; idx2symbol := l2;
                   vocab_size := vocab_size v; unk_token := unk_token v |}).

(** ** [Jobs.prepare_ext_vocab] *)

Definition prepare_ext_vocab_node (oov_dict : loc) (n : node_attr)
    (token_matrix : list Z) : M (list Z) :=
  node_token ← match token n with
               | Some t => mret t
               | None => raise KeyError
               end;
  (if bool_decide (type n = None) || bool_decide (type n = Some 0%Z) then
     i ← get_symbol_idx oov_dict node_token;
     v ← load_vocab oov_dict;
     u ← get_symbol_idx oov_dict (unk_token v);
     if (i =? u)%Z then add_symbol oov_dict node_token else mret tt
   else mret tt);;
  i ← get_symbol_idx oov_dict node_token;
  mret (token_matrix ++ [i]).

Definition prepare_ext_vocab (batch_graph src_vocab : loc) : M loc :=
  oov_dict ← deepcopy src_vocab;
  g ← load_graph batch_graph;
  token_matrix ← for_each_M (prepare_ext_vocab_node oov_dict)
                            (node_attributes g) [];
  g ← load_graph batch_graph;
  store batch_graph
        (OGraph {| node_attributes := node_attributes g;
                   node_features := <[py "token_id_oov" := long_tensor token_matrix]>
                                      (node_features g) |});;
  mret oov_dict.

(** ** [StdRNNDecoder.py]: the decoding loop

    A tensor is its entry function; the batch index comes first.  Entries
    are real numbers, so rounding is left out.  The layers with learned
    weights ([tgt_emb], [rnn], the attention modules, [pre_out],
    [out_project], [ptr] and the adapters) are fields of the decoder object.
    The two random number generators are read through call counters: the
    k-th call of the dropout layer applies [dropout k], and the k-th call of
    [random.random()] returns [random_random k]. *)
Module Decoder.

Local Open Scope R_scope.

(** A tensor of shape [B, width]. *)
Record tensor2 : Type := { width : nat; entry : nat -> nat -> R }.

(** A tensor of shape [B, N, D]. *)
Definition tensor3 : Type := nat -> nat -> nat -> R.

(** A tensor of token indices of shape [B]. *)
Definition long1 : Type := nat -> Z.

(** A tensor of token indices of shape [B, steps]. *)
Record long2 : Type := { steps : nat; item : nat -> nat -> Z }.

Inductive rnn_kind : Type := LSTM | GRU.

Inductive attention_kind : Type :=
| uniform
| sep_diff_encoder_type
| sep_diff_node_type.

Inductive fuse_kind : Type := average | concatenate | other_fuse.

Inductive coverage_kind : Type := cov_sum | cov_max | other_coverage.

(** The state of the recurrent layer: the pair (h, c) of an LSTM or the h
    of a GRU. *)
Inductive rnn_state : Type :=
| lstm_state (h c : tensor2)
| gru_state (h : tensor2).

(** An attention module: [(query, memory, memory_mask, coverage)] to the
    attended vectors and the attention scores. *)
Definition attention_fn : Type :=
  tensor2 -> option tensor3 -> option tensor2 -> option tensor3
  -> tensor2 * tensor2.

Record StdRNNDecoder : Type := {
  max_decoder_step : nat;
  decoder_hidden_size : nat;
  rnn_type : rnn_kind;
  use_attention : bool;
  attention_type : attention_kind;
  node_type_num : nat;
  fuse_strategy : fuse_kind;
  use_copy : bool;
  use_coverage : bool;
  coverage_strategy : coverage_kind;
  tgt_emb_as_output_layer : bool;
  SOS : Z;
  tgt_emb : long1 -> tensor2;
  dropout : nat -> tensor2 -> tensor2;
  rnn : tensor2 -> rnn_state -> tensor2 * rnn_state;
  enc_attention : attention_fn;
  rnn_attention : attention_fn;
  attn_modules : nat -> attention_fn;
  coverage_weight : nat -> R;
  encoder_decoder_adapter : nat -> tensor2 -> tensor2;
  pre_out : tensor2 -> tensor2;
  out_project : tensor2 -> tensor2;
  ptr : tensor2 -> tensor2
}.

(** The arguments of [_run_forward_pass]. *)
Record arguments : Type := {
  batch_size : nat;
  graph_node_embedding : tensor3;
  graph_node_mask : option tensor2;
  rnn_node_embedding : option tensor3;
  graph_level_embedding : option tensor2;
  tgt_seq : option long2;
  src_seq : option long2;
  teacher_forcing_rate : R
}.

(** How often each random number generator has been called. *)
Record world : Type := { dropout_calls : nat; random_calls : nat }.

Definition D (A : Type) : Type := world -> result (A * world).

#[global] Instance D_ret : MRet D := fun _ a w => Ok (a, w).
#[global] Instance D_bind : MBind D := fun _ _ f m w =>
  match m w with
  | Ok (a, w') => f a w'
  | Raise e => Raise e
  end.

Definition lift {A : Type} (r : result A) : D A := fun w =>
  match r with
  | Ok a => Ok (a, w)
  | Raise e => Raise e
  end.

Fixpoint for_each_D {A S : Type} (body : A -> S -> D S) (xs : list A) (s : S)
  : D S :=
  match xs with
  | [] => mret s
  | x :: xs' => s' ← body x s; for_each_D body xs' s'
  end.

(** [self.dropout(x)] *)
Definition call_dropout (self : StdRNNDecoder) (x : tensor2) : D tensor2 :=
  fun w => Ok (dropout self (dropout_calls w) x,
               {| dropout_calls := S (dropout_calls w);
                  random_calls := random_calls w |}).

(** [random.random()] *)
Definition call_random (random_random : nat -> R) : D R :=
  fun w => Ok (random_random (random_calls w),
               {| dropout_calls := dropout_calls w;
                  random_calls := S (random_calls w) |}).

(** *** Tensor operations *)

Definition big_sum (n : nat) (f : nat -> R) : R :=
  fold_right Rplus 0 (map f (seq 0 n)).

Definition t_add (x y : tensor2) : tensor2 :=
  {| width := width x; entry := fun b k => entry x b k + entry y b k |}.

Definition t_div (x : tensor2) (n : nat) : tensor2 :=
  {| width := width x; entry := fun b k => entry x b k / INR n |}.

Definition t_map (f : R -> R) (x : tensor2) : tensor2 :=
  {| width := width x; entry := fun b k => f (entry x b k) |}.

(** [col * x] for a [col] of shape [B, 1]. *)
Definition t_scale (col x : tensor2) : tensor2 :=
  {| width := width x; entry := fun b k => entry col b 0%nat * entry x b k |}.

Definition zeros (w : nat) : tensor2 :=
  {| width := w; entry := fun _ _ => 0 |}.

(** [reduce(lambda x, y: x + y, l)] *)
Definition reduce_add (l : list tensor2) : result tensor2 :=
  match l with
  | [] => Raise TypeError
  | x :: l' => Ok (fold_left t_add l' x)
  end.

Definition cat2 (x y : tensor2) : tensor2 :=
  {| width := width x + width y;
     entry := fun b k => if (k <? width x)%nat then entry x b k
                         else entry y b (k - width x)%nat |}.

(** [torch.cat(l, dim=-1)] *)
Definition cat_last (l : list tensor2) : result tensor2 :=
  match l with
  | [] => Raise RuntimeError
  | x :: l' => Ok (fold_left cat2 l' x)
  end.

(** [torch.sum(torch.cat(l), dim=0)] for tensors of shape [1, B, N]. *)
Definition sum_dim0 (l : list tensor2) : result tensor2 :=
  match l with
  | [] => Raise RuntimeError
  | x :: l' =>
      Ok {| width := width x;
            entry := fun b n =>
              fold_left Rplus (map (fun t => entry t b n) l') (entry x b n) |}
  end.

(** The values of [torch.max(torch.cat(l), dim=0)]. *)
Definition max_dim0 (l : list tensor2) : result tensor2 :=
  match l with
  | [] => Raise RuntimeError
  | x :: l' =>
      Ok {| width := width x;
            entry := fun b n =>
              fold_left Rmax (map (fun t => entry t b n) l') (entry x b n) |}
  end.

Definition sigmoid (x : R) : R := 1 / (1 + exp (- x)).

(** [torch.softmax(x, dim=-1)] *)
Definition softmax (x : tensor2) : tensor2 :=
  {| width := width x;
     entry := fun b v =>
       exp (entry x b v) / big_sum (width x) (fun k => exp (entry x b k)) |}.

(** The first index below [k + fuel] at which [f] is largest, [best] being
    the first such index below [k]. *)
Fixpoint argmax_from (f : nat -> R) (best k fuel : nat) : nat :=
  match fuel with
  | O => best
  | S fuel' =>
      argmax_from f (if Rlt_dec (f best) (f k) then k else best) (S k) fuel'
  end.

(** [x.argmax(dim=-1)] *)
Definition argmax (x : tensor2) : result long1 :=
  match width x with
  | O => Raise RuntimeError
  | S n => Ok (fun b => Z.of_nat (argmax_from (entry x b) 0 1 n))
  end.

(** [x[b, k] += y] *)
Definition add_at (x : tensor2) (b k : nat) (y : R) : tensor2 :=
  {| width := width x;
     entry := fun b' k' => if ((b' =? b) && (k' =? k))%nat
                           then entry x b' k' + y else entry x b' k' |}.

(** [self.scatter_add_(1, index, src)] on [batch] rows: for every b and j,
    [self[b, index[b, j]] += src[b, j]]. *)
Definition scatter_add_ (batch : nat) (self : tensor2) (index : long2)
    (src : tensor2) : result tensor2 :=
  if negb (steps index <=? width src)%nat then Raise RuntimeError
  else
    for_each (fun (b : nat) (acc : tensor2) =>
      for_each (fun (j : nat) (acc : tensor2) =>
                  let k := item index b j in
                  if ((0 <=? k) && (k <? Z.of_nat (width self)))%Z
                  then Ok (add_at acc b (Z.to_nat k) (entry src b j))
                  else Raise RuntimeError)
               (seq 0 (steps index)) acc)
      (seq 0 batch) self.

(** *** The methods *)

(** [get_coverage_vector], the [coverage_function] of the decoder.  On an
    unknown strategy the message of the [ValueError] reads
    [self.cover_func], an attribute the decoder does not have. *)
Definition coverage_function (self : StdRNNDecoder)
    (enc_attn_weights : list tensor2) : result tensor2 :=
  match coverage_strategy self with
  | cov_max => max_dim0 enc_attn_weights
  | cov_sum => sum_dim0 enc_attn_weights
  | other_coverage => Raise AttributeError
  end.

(** [torch.cat(rnn_state, -1).squeeze(0)] for an LSTM and
    [rnn_state.squeeze(0)] for a GRU. *)
Definition hidden_of (self : StdRNNDecoder) (s : rnn_state) : result tensor2 :=
  match rnn_type self, s with
  | LSTM, lstm_state h c => Ok (cat2 h c)
  | GRU, gru_state h => Ok h
  | _, _ => Raise TypeError
  end.

Definition extract_mask (mask : option tensor2) (token : nat) : result tensor2 :=
  match mask with
  | None => Raise AttributeError
  | Some m =>
      Ok {| width := width m;
            entry := fun b n => if Req_dec_T (entry m b n) (INR token)
                                then 1 else 0 |}
  end.

(** The initial state: the adapted graph-level embedding, or zeros.  The
    two assertions on the shape of [content] are about its rank and its
    batch dimension, which a [tensor2] does not record. *)
Definition _get_decoder_init_state (self : StdRNNDecoder)
    (content : option tensor2) : rnn_state :=
  match rnn_type self with
  | LSTM =>
      match content with
      | Some c => lstm_state (encoder_decoder_adapter self 0 c)
                             (encoder_decoder_adapter self 1 c)
      | None => lstm_state (zeros (decoder_hidden_size self))
                           (zeros (decoder_hidden_size self))
      end
  | GRU =>
      match content with
      | Some c => gru_state (encoder_decoder_adapter self 0 c)
      | None => gru_state (zeros (decoder_hidden_size self))
      end
  end.

(** What [_decode_step] returns: [dec_out], [rnn_state], [attn_collect]
    and [score_collect]. *)
Definition decoded : Type :=
  (tensor2 * rnn_state * list tensor2 * list tensor2)%type.

Definition _decode_step (self : StdRNNDecoder) (dec_input_emb : tensor2)
    (rnn_emb : option tensor3) (dec_input_mask : option tensor2)
    (state : rnn_state) (encoder_out : tensor3) (coverage_vec : option tensor2)
  : D decoded :=
  let '(dec_out, state) := rnn self dec_input_emb state in
  state ← match rnn_type self, state with
          | LSTM, lstm_state h c =>
              h ← call_dropout self h; c ← call_dropout self c;
              mret (lstm_state h c)
          | GRU, gru_state h => h ← call_dropout self h; mret (gru_state h)
          | _, _ => lift (Raise TypeError)
          end;
  hidden ← lift (hidden_of self state);
  if use_attention self then
    let coverage_repr :=
      if use_coverage self then coverage_vec else None in
    let coverage_repr :=
      match coverage_repr with
      | Some cv => Some (fun b n k => entry cv b n * coverage_weight self k)
      | None => None
      end in
    match attention_type self with
    | uniform =>
        let '(attn_res, scores) :=
          enc_attention self hidden (Some encoder_out) None coverage_repr in
        mret (dec_out, state, [attn_res], [scores])
    | sep_diff_encoder_type =>
        let '(attn_res, scores) :=
          enc_attention self hidden (Some encoder_out) None coverage_repr in
        let '(rnn_attn_res, rnn_scores) :=
          rnn_attention self hidden rnn_emb None coverage_repr in
        mret (dec_out, state, [attn_res; rnn_attn_res], [scores; rnn_scores])
    | sep_diff_node_type =>
        '(attn_collect, score_collect) ←
          lift (for_each (fun (i : nat) '(attn_collect, score_collect) =>
                  node_mask ← extract_mask dec_input_mask i;
                  let '(attn, scores) :=
                    attn_modules self i hidden (Some encoder_out)
                                 (Some node_mask) coverage_repr in
                  Ok (attn_collect ++ [attn], score_collect ++ [scores]))
                (seq 0 (node_type_num self)) ([], []));
        mret (dec_out, state, attn_collect, score_collect)
    end
  else mret (dec_out, state, [], []).

(** The variables of [_run_forward_pass] that live across iterations. *)
Record loop_state : Type := {
  decoder_input : long1;
  decoder_state : rnn_state;
  outputs : list tensor2;
  enc_attn_weights_average : list tensor2;
  coverage_vectors : list (option tensor2);
  embed : list tensor2;
  dec_hidden : list tensor2;
  attn_results_all : list tensor2
}.

(** The variables of one iteration when the projection to the vocabulary
    has been applied. *)
Record step_vars : Type := {
  dec_emb : tensor2;
  coverage_vec : option tensor2;
  new_state : rnn_state;
  hidden : tensor2;
  dec_attn_results : list tensor2;
  score_results : list tensor2;
  dec_attn_scores : option tensor2;
  decoder_output : tensor2
}.

(** [coverage_vec] as the loop computes it from the scores collected so
    far. *)
Definition coverage_for (self : StdRNNDecoder)
    (enc_attn_weights_average : list tensor2) : result (option tensor2) :=
  if use_coverage self
     && negb (bool_decide (enc_attn_weights_average = []))
  then cv ← coverage_function self enc_attn_weights_average; Ok (Some cv)
  else Ok None.

(** [attn_total] *)
Definition fuse (self : StdRNNDecoder) (dec_attn_results score_results : list tensor2)
  : result tensor2 :=
  match attention_type self with
  | uniform =>
      if negb (length dec_attn_results =? 1)%nat then Raise AssertionError
      else if negb (length score_results =? 1)%nat then Raise AssertionError
      else match dec_attn_results with
           | x :: _ => Ok x
           | [] => Raise IndexError
           end
  | sep_diff_encoder_type | sep_diff_node_type =>
      match fuse_strategy self with
      | average =>
          total ← reduce_add dec_attn_results;
          Ok (t_div total (length dec_attn_results))
      | concatenate => cat_last dec_attn_results
      | other_fuse => Raise NotImplementedError
      end
  end.

(** One iteration, from its start to [decoder_output = self.out_project(out_embed)]. *)
Definition step_decode (self : StdRNNDecoder) (args : arguments) (s : loop_state)
  : D step_vars :=
  dec_emb ← call_dropout self (tgt_emb self (decoder_input s));
  coverage_vec ← lift (coverage_for self (enc_attn_weights_average s));
  '(decoder_output, decoder_state, dec_attn_results, score_results) ←
    _decode_step self dec_emb (rnn_node_embedding args) (graph_node_mask args)
                 (decoder_state s) (graph_node_embedding args) coverage_vec;
  hidden ← lift (hidden_of self decoder_state);
  '(decoder_output, dec_attn_scores) ←
    (if use_attention self then
       attn_total ← lift (fuse self dec_attn_results score_results);
       total ← lift (reduce_add score_results);
       _ ← lift (cat_last dec_attn_results);
       mret (cat2 decoder_output attn_total,
             Some (t_div total (length score_results)))
     else mret (decoder_output, None));
  let out_embed :=
    if tgt_emb_as_output_layer self
    then t_map tanh (pre_out self decoder_output) else decoder_output in
  out_embed ← call_dropout self out_embed;
  mret {| dec_emb := dec_emb; coverage_vec := coverage_vec;
          new_state := decoder_state; hidden := hidden;
          dec_attn_results := dec_attn_results;
          score_results := score_results;
          dec_attn_scores := dec_attn_scores;
          decoder_output := out_project self out_embed |}.

(** The block [if self.use_copy: ... else: ...]. *)
Definition output_distribution (self : StdRNNDecoder) (args : arguments)
    (x : step_vars) : result tensor2 :=
  if use_copy self then
    match src_seq args with
    | None => Raise AssertionError
    | Some src_seq =>
        attn_ptr ← cat_last (dec_attn_results x);
        pgen_collect ← cat_last [dec_emb x; hidden x; attn_ptr];
        let prob_ptr := t_map sigmoid (ptr self pgen_collect) in
        let prob_gen := t_map (fun p => 1 - p) prob_ptr in
        let gen_output := softmax (decoder_output x) in
        let ret := t_scale prob_gen gen_output in
        ptr_output ← match dec_attn_scores x with
                     | Some scores => Ok scores
                     | None => Raise NameError
                     end;
        scatter_add_ (batch_size args) ret src_seq (t_scale prob_ptr ptr_output)
    end
  else Ok (softmax (decoder_output x)).

(** The block under the comment "teacher_forcing". *)
Definition next_input (args : arguments) (random_random : nat -> R) (i : nat)
    (decoder_output : tensor2) : D long1 :=
  match tgt_seq args with
  | Some tgt =>
      u ← call_random random_random;
      if Rlt_dec u (teacher_forcing_rate args)
      then mret (fun b => item tgt b i)
      else lift (argmax decoder_output)
  | None => lift (argmax decoder_output)
  end.

(** The body of [for i in range(target_len)]. *)
Definition step (self : StdRNNDecoder) (args : arguments)
    (random_random : nat -> R) (i : nat) (s : loop_state) : D loop_state :=
  x ← step_decode self args s;
  out ← lift (output_distribution self args x);
  input ← next_input args random_random i out;
  mret {| decoder_input := input;
          decoder_state := new_state x;
          outputs := outputs s ++ [out];
          enc_attn_weights_average :=
            match dec_attn_scores x with
            | Some scores => enc_attn_weights_average s ++ [scores]
            | None => enc_attn_weights_average s
            end;
          coverage_vectors :=
            if use_attention self
            then coverage_vectors s ++ [coverage_vec x]
            else coverage_vectors s;
          embed := embed s ++ [dec_emb x];
          dec_hidden := dec_hidden s ++ [hidden x];
          attn_results_all :=
            match cat_last (dec_attn_results x) with
            | Ok t => if use_attention self then attn_results_all s ++ [t]
                      else attn_results_all s
            | Raise _ => attn_results_all s
            end |}.

Definition target_len (self : StdRNNDecoder) (args : arguments) : nat :=
  match tgt_seq args with
  | Some tgt => Nat.min (steps tgt) (max_decoder_step self)
  | None => max_decoder_step self
  end.

Definition initial (self : StdRNNDecoder) (args : arguments) : loop_state :=
  {| decoder_input := fun _ => SOS self;
     decoder_state := _get_decoder_init_state self (graph_level_embedding args);
     outputs := [];
     enc_attn_weights_average := [];
     coverage_vectors := [];
     embed := [];
     dec_hidden := [];
     attn_results_all := [] |}.

(** The loop state after the first [n] iterations. *)
Definition run_steps (self : StdRNNDecoder) (args : arguments)
    (random_random : nat -> R) (n : nat) : D loop_state :=
  for_each_D (step self args random_random) (seq 0 n) (initial self args).

(** [_run_forward_pass]; the returned [ret] is [torch.cat(outputs, dim=1)],
    given as the list of its slices along dimension 1. *)
Definition _run_forward_pass (self : StdRNNDecoder) (args : arguments)
    (random_random : nat -> R)
  : D (list tensor2 * list tensor2 * list (option tensor2)) :=
  s ← run_steps self args random_random (target_len self args);
  match outputs s with
  | [] => lift (Raise RuntimeError)
  | ret => mret (ret, enc_attn_weights_average s, coverage_vectors s)
  end.

End Decoder.

(** ** Auxiliary definitions for the proofs *)

(** The token list after the loop of [get_split_comma] has run over the
    indices below [k]. *)
Definition marked_upto (toks : list pystr) (k : nat) : list pystr :=
  imap (fun i t =>
          if (i <? k) && Spec.top_level_comma toks i then ref_char else t)
       toks.

(** The token list with [cut] positions overwritten by the reference
    character. *)
Definition mark (cut : nat -> bool) (toks : list pystr) : list pystr :=
  imap (fun i t => if cut i then ref_char else t) toks.

(** A token of the mutated list against the token it started as. *)
Definition same_or_marked (a b : pystr) : Prop :=
  a = b \/ (a = ref_char /\ b = py ",").

(** Segments written back as one token list, a [sep] token between two
    segments. *)
Fixpoint unsplit (sep : pystr) (segs : list (list pystr)) : list pystr :=
  match segs with
  | [] => []
  | [seg] => seg
  | seg :: segs' => seg ++ sep :: unsplit sep segs'
  end.

(** Append [y] to the last piece. *)
Fixpoint app_last (pieces : list pystr) (y : pystr) : list pystr :=
  match pieces with
  | [] => [y]
  | [w] => [w ++ y]
  | w :: pieces' => w :: app_last pieces' y
  end.

(** The stripped pieces between dollar characters. *)
Definition pieces (s : pystr) : list pystr :=
  map strip (split_on dollar s).

(** No white space at either end. *)
Definition clean (s : pystr) : Prop :=
  lstrip s = s /\ lstrip (rev s) = rev s.

(** A word: not empty and free of white space. *)
Definition word (t : pystr) : Prop :=
  t <> [] /\ forall c, c ∈ t -> is_space c = false.

(** All stripped pieces of the strings of a set. *)
Definition pieces_of_set (X : gset pystr) : gset pystr :=
  list_to_set (flat_map pieces (elements X)).

(** A vocabulary for the examples. *)
Definition demo_vocab (i : Z) : pystr :=
  match i with
  | 0 => py "a" | 1 => py "b" | 2 => py "," | 3 => py "$"
  | 4 => py "(" | 5 => py ")" | _ => py "<U>"
  end%Z.

(** Whether the pair at index [i] counts as correct. *)
Definition same_at (candidate_list reference_list : list (list Z))
    (get_idx_symbol : Z -> pystr) (i : nat) : bool :=
  match candidate_list !! i, reference_list !! i with
  | Some cand, Some ref =>
      match is_all_same cand ref get_idx_symbol with
      | Ok same => same
      | Raise _ => false
      end
  | _, _ => false
  end.

(** The number of indices below [m] at which the pair counts as correct. *)
Definition correct_below (candidate_list reference_list : list (list Z))
    (get_idx_symbol : Z -> pystr) (m : nat) : nat :=
  length (filter (fun i => same_at candidate_list reference_list get_idx_symbol i = true)
                 (seq 0 m)).





(** ** The contents of a vocabulary *)

Record vocab_state : Type := {
  s2i : gmap pystr Z;
  i2s : gmap Z pystr;
  size : Z;
  unk : pystr
}.

(** The vocabulary object at [l] is [v] and holds [V]. *)
Definition represents (h : heap) (l : loc) (v : Vocab) (V : vocab_state) : Prop :=
  objs h !! l = Some (OVocab v)
  /\ objs h !! symbol2idx v = Some (ODictStrInt (s2i V))
  /\ objs h !! idx2symbol v = Some (ODictIntStr (i2s V))
  /\ vocab_size v = size V
  /\ unk_token v = unk V.

(** No object lives at an address that is still to be allocated. *)
Definition heap_wf (h : heap) : Prop :=
  forall l, next_loc h <= l -> objs h !! l = None.

(** What [get_symbol_idx] returns on the contents [V]. *)
Definition lookup_idx (V : vocab_state) (s : pystr) : result Z :=
  match s2i V !! s with
  | Some i => Ok i
  | None =>
      match s2i V !! unk V with
      | Some u => Ok u
      | None => Raise KeyError
      end
  end.

(** What [add_symbol] makes of the contents [V]. *)
Definition extend (V : vocab_state) (s : pystr) : vocab_state :=
  match s2i V !! s with
  | Some _ => V
  | None => {| s2i := <[s := size V]> (s2i V);
               i2s := <[size V := s]> (i2s V);
               size := size V + 1;
               unk := unk V |}
  end.

(** The node is one whose token may be added: its ['type'] is absent,
    [None] or 0. *)
Definition addable (n : node_attr) : bool :=
  bool_decide (type n = None) || bool_decide (type n = Some 0%Z).

(** One iteration of the loop of [prepare_ext_vocab] on the contents of
    [oov_dict]: the outcome and the contents it leaves. *)
Definition visit (n : node_attr) (token_matrix : list Z) (V : vocab_state)
  : result (list Z) * vocab_state :=
  match token n with
  | None => (Raise KeyError, V)
  | Some t =>
      let '(r, V1) :=
        if addable n then
          match lookup_idx V t with
          | Raise e => (Raise e, V)
          | Ok i =>
              match lookup_idx V (unk V) with
              | Raise e => (Raise e, V)
              | Ok u => if (i =? u)%Z then (Ok tt, extend V t) else (Ok tt, V)
              end
          end
        else (Ok tt, V) in
      match r with
      | Raise e => (Raise e, V1)
      | Ok _ =>
          match lookup_idx V1 t with
          | Raise e => (Raise e, V1)
          | Ok i => (Ok (token_matrix ++ [i]), V1)
          end
      end
  end.

Fixpoint visit_all (nodes : list node_attr) (token_matrix : list Z)
    (V : vocab_state) : result (list Z) * vocab_state :=
  match nodes with
  | [] => (Ok token_matrix, V)
  | n :: nodes' =>
      match visit n token_matrix V with
      | (Ok token_matrix', V') => visit_all nodes' token_matrix' V'
      | (Raise e, V') => (Raise e, V')
      end
  end.

(** The contents of [oov_dict] once the given nodes have been visited. *)
Definition vocab_after (nodes : list node_attr) (V : vocab_state) : vocab_state :=
  snd (visit_all nodes [] V).

(** A source vocabulary as the data sets build it: it holds the unknown
    token, at an index below [vocab_size] that no other symbol shares. *)
Definition vocab_wf (V : vocab_state) : Prop :=
  exists u, s2i V !! unk V = Some u
            /\ (u < size V)%Z
            /\ forall s, s2i V !! s = Some u -> s = unk V.

(** From a heap where the vocabulary at [oov] is [v], the heap [h'] is
    reached by updates of that vocabulary alone, which now holds [V']. *)
Definition evolves (oov : loc) (h : heap) (v : Vocab) (h' : heap)
    (V' : vocab_state) : Prop :=
  exists v',
    represents h' oov v' V'
    /\ symbol2idx v' = symbol2idx v /\ idx2symbol v' = idx2symbol v
    /\ next_loc h' = next_loc h
    /\ forall l, l <> oov -> l <> symbol2idx v -> l <> idx2symbol v ->
                 objs h' !! l = objs h !! l.

(** A heap for the examples: a vocabulary of three symbols at address 0,
    its dictionaries at 1 and 2, and at 3 a graph of five nodes whose first
    node is not a word node. *)
Definition demo_Vocab : Vocab :=
  {| symbol2idx := 1; idx2symbol := 2; vocab_size := 3; unk_token := py "<U>" |}.

Definition demo_vocab_state : vocab_state :=
  {| s2i := {[ py "<U>" := 0%Z; py "job" := 1%Z; py "(" := 2%Z ]};
     i2s := {[ 0%Z := py "<U>"; 1%Z := py "job"; 2%Z := py "(" ]};
     size := 3;
     unk := py "<U>" |}.

Definition demo_graph : GraphData :=
  {| node_attributes :=
       [ {| token := Some (py "S"); type := Some 1%Z |};
         {| token := Some (py "job"); type := Some 0%Z |};
         {| token := Some (py "S"); type := None |};
         {| token := Some (py "<U>"); type := Some 0%Z |};
         {| token := Some (py "java"); type := Some 0%Z |} ];
     node_features := ∅ |}.

Definition demo_heap : heap :=
  {| objs := {[ 0 := OVocab demo_Vocab;
                1 := ODictStrInt (s2i demo_vocab_state);
                2 := ODictIntStr (i2s demo_vocab_state);
                3 := OGraph demo_graph ]};
     next_loc := 4 |}.

(** The value of the node feature [name] of the graph at [g]. *)
Definition node_feature (h : heap) (g : loc) (name : pystr) : option tensor :=
  match objs h !! g with
  | Some (OGraph G) => node_features G !! name
  | _ => None
  end.

(** ** Sums over lists of indices *)

Definition list_sum (f : nat -> R) (l : list nat) : R :=
  fold_right Rplus 0%R (map f l).

(** What one row of the index tensor adds to the entry at column [v]. *)
Definition copied (index : Decoder.long2) (src : Decoder.tensor2) (b v : nat)
    (j : nat) : R :=
  if bool_decide (Decoder.item index b j = Z.of_nat v)
  then Decoder.entry src b j else 0%R.


(** A decoder for the examples: a GRU with uniform attention, copy and
    coverage, over a vocabulary of two symbols; its attention module spreads
    the scores evenly over two source positions. *)
Definition demo_attention : Decoder.attention_fn :=
  fun _ _ _ _ =>
    (Decoder.zeros 1,
     {| Decoder.width := 2; Decoder.entry := fun _ _ => (1 / 2)%R |}).

Definition demo_decoder : Decoder.StdRNNDecoder :=
  {| Decoder.max_decoder_step := 2;
     Decoder.decoder_hidden_size := 1;
     Decoder.rnn_type := Decoder.GRU;
     Decoder.use_attention := true;
     Decoder.attention_type := Decoder.uniform;
     Decoder.node_type_num := 0;
     Decoder.fuse_strategy := Decoder.average;
     Decoder.use_copy := true;
     Decoder.use_coverage := true;
     Decoder.coverage_strategy := Decoder.cov_sum;
     Decoder.tgt_emb_as_output_layer := false;
     Decoder.SOS := 0;
     Decoder.tgt_emb := fun _ => Decoder.zeros 1;
     Decoder.dropout := fun _ x => x;
     Decoder.rnn := fun _ state => (Decoder.zeros 1, state);
     Decoder.enc_attention := demo_attention;
     Decoder.rnn_attention := demo_attention;
     Decoder.attn_modules := fun _ => demo_attention;
     Decoder.coverage_weight := fun _ => 1%R;
     Decoder.encoder_decoder_adapter := fun _ x => x;
     Decoder.pre_out := fun x => x;
     Decoder.out_project := fun _ => Decoder.zeros 2;
     Decoder.ptr := fun _ => Decoder.zeros 1 |}.

Definition demo_arguments : Decoder.arguments :=
  {| Decoder.batch_size := 1;
     Decoder.graph_node_embedding := fun _ _ _ => 0%R;
     Decoder.graph_node_mask := None;
     Decoder.rnn_node_embedding := None;
     Decoder.graph_level_embedding := None;
     Decoder.tgt_seq :=
       Some {| Decoder.steps := 2; Decoder.item := fun _ i => Z.of_nat i |};
     Decoder.src_seq :=
       Some {| Decoder.steps := 2; Decoder.item := fun _ j => Z.of_nat j |};
     Decoder.teacher_forcing_rate := 1%R |}.

Definition demo_random : nat -> R := fun _ => 0%R.

Definition demo_world : Decoder.world :=
  {| Decoder.dropout_calls := 0; Decoder.random_calls := 0 |}.

(** ** [runner_jobs.py]: [convert_to_string] *)


(** The stripped pieces of the top-level segments of a token list. *)
Definition pieces_of_tokens (toks : list pystr) : gset pystr :=
  list_to_set
    (flat_map (fun seg => pieces (join (py " ") seg))
              (Spec.split_at (Spec.top_level_comma toks) toks)).

(** ** [Jobs.train]

    [St] is the state of the job that the two methods called by [train]
    read and update (the model, the optimizer, the data loaders);
    [model_train] is [self.model.train()], [train_epoch] returns the loss
    and [eval] the test accuracy.  The lines written to stdout are left
    out. *)
Section Train.

Context {St : Type}.
Variable model_train : St -> St.
Variable train_epoch : nat -> St -> result (Q * St).
Variable eval : St -> result (Q * St).

(** The body of [for epoch in range(1, self.opt.max_epochs+1)]. *)
Definition train_body (epoch : nat) (acc : Q * St) : result (Q * St) :=
  let '(best_acc, s) := acc in
  '(loss_to_print, s) ← train_epoch epoch (model_train s);
  if (2 <? epoch) && (epoch mod 5 =? 0) then
    '(test_acc, s) ← eval s;
    if negb (Qle_bool test_acc best_acc) then Ok (test_acc, s)
    else Ok (best_acc, s)
  else Ok (best_acc, s).

Definition train (max_epochs : nat) (s : St) : result (Q * St) :=
  for_each train_body (seq 1 max_epochs) ((-1)%Q, s).

End Train.

(** The two dictionaries of a vocabulary are inverse to each other, and
    every index is below [vocab_size]. *)
Definition consistent (V : vocab_state) : Prop :=
  (forall s i, s2i V !! s = Some i <-> i2s V !! i = Some s)
  /\ forall s i, s2i V !! s = Some i -> (i < size V)%Z.

(** The contents [V'] come from [V] by adding symbols: the symbols of [V]
    keep their indices, the new ones have the indices from [size V] on, and
    [size] has grown by the number of new symbols. *)
Definition grows (V V' : vocab_state) : Prop :=
  s2i V ⊆ s2i V'
  /\ (forall s i, s2i V' !! s = Some i -> s2i V !! s = None ->
                  (size V <= i < size V')%Z)
  /\ (size V' + Z.of_nat (base.size (s2i V))
      = size V + Z.of_nat (base.size (s2i V')))%Z
  /\ unk V' = unk V.

(** The heap of the examples with one more node in the graph, a node
    without the key ['token']. *)
Definition demo_graph_gap : GraphData :=
  {| node_attributes :=
       node_attributes demo_graph ++ [ {| token := None; type := Some 0%Z |} ];
     node_features := ∅ |}.

Definition demo_heap_gap : heap :=
  {| objs := {[ 0 := OVocab demo_Vocab;
                1 := ODictStrInt (s2i demo_vocab_state);
                2 := ODictIntStr (i2s demo_vocab_state);
                3 := OGraph demo_graph_gap ]};
     next_loc := 4 |}.

(** ** Auxiliary definitions for the decoder *)
Module DecoderAux.
Import Decoder.

(** The state is an (h, c) pair for an LSTM and a single h for a GRU. *)
Definition state_kind (self : StdRNNDecoder) (s : rnn_state) : bool :=
  match rnn_type self, s with
  | LSTM, lstm_state _ _ | GRU, gru_state _ => true
  | _, _ => false
  end.

(** How many attention modules [_decode_step] calls. *)
Definition attention_count (self : StdRNNDecoder) : nat :=
  if use_attention self then
    match attention_type self with
    | uniform => 1
    | sep_diff_encoder_type => 2
    | sep_diff_node_type => node_type_num self
    end
  else 0.

(** Every attention module whose scores come first in [score_results]
    returns scores with at least [n] columns. *)
Definition scores_cover (self : StdRNNDecoder) (n : nat) : Prop :=
  (forall q m k c, n <= width (snd (enc_attention self q m k c)))
  /\ (forall i q m k c, n <= width (snd (attn_modules self i q m k c))).

(** What the copy mechanism needs: attention, a source sequence, an
    attention score for every source position, and source indices that are
    columns of the output. *)
Definition copy_ready (self : StdRNNDecoder) (args : arguments) : Prop :=
  use_attention self = true
  /\ exists src,
       src_seq args = Some src
       /\ scores_cover self (steps src)
       /\ forall b j x, b < batch_size args -> j < steps src ->
            (0 <= item src b j < Z.of_nat (width (out_project self x)))%Z.

(** What the loop of a decoder needs in order to complete: the recurrent
    layer returns a state of the kind it is given, copy has what it needs,
    the strategy for fusing several attention results is a known one,
    attention by node type has a node mask and at least one node type, and
    the vocabulary is not empty. *)
Definition runnable (self : StdRNNDecoder) (args : arguments) : Prop :=
  (forall x s, state_kind self s = true ->
               state_kind self (snd (rnn self x s)) = true)
  /\ (use_copy self = true -> copy_ready self args)
  /\ (attention_type self = uniform \/ fuse_strategy self <> other_fuse)
  /\ (use_attention self = true -> attention_type self = sep_diff_node_type ->
      is_Some (graph_node_mask args) /\ 0 < node_type_num self)
  /\ forall x, 0 < width (out_project self x).

(** The number of source positions that the copy mechanism reads. *)
Definition copy_width (self : StdRNNDecoder) (args : arguments) : nat :=
  if use_copy self then
    match src_seq args with
    | Some src => steps src
    | None => 0
    end
  else 0.

(** The example decoder with other choices of attention, copy and coverage
    strategy. *)
Definition demo_decoder_with (attention copy : bool) (strategy : coverage_kind)
  : StdRNNDecoder :=
  {| max_decoder_step := 2;
     decoder_hidden_size := 1;
     rnn_type := GRU;
     use_attention := attention;
     attention_type := uniform;
     node_type_num := 0;
     fuse_strategy := average;
     use_copy := copy;
     use_coverage := true;
     coverage_strategy := strategy;
     tgt_emb_as_output_layer := false;
     SOS := 0;
     tgt_emb := fun _ => zeros 1;
     dropout := fun _ x => x;
     rnn := fun _ state => (zeros 1, state);
     enc_attention := demo_attention;
     rnn_attention := demo_attention;
     attn_modules := fun _ => demo_attention;
     coverage_weight := fun _ => 1%R;
     encoder_decoder_adapter := fun _ x => x;
     pre_out := fun x => x;
     out_project := fun _ => zeros 2;
     ptr := fun _ => zeros 1 |}.


End DecoderAux.

(** ** [StdRNNDecoder.py]: from a list of graphs to the arguments of the loop

    [forward] receives the graphs of a batch, [_extract_params] pads their
    node embeddings to one shape, pools them and builds the node mask, and
    [_run_forward_pass] decodes.  [graph_pooling_strategy] is the attribute
    of that name of the decoder. *)
Module Batch.
Import Decoder.

Local Open Scope R_scope.

(** A tensor of shape [rows, cols]. *)
Record matrix : Type := { rows : nat; cols : nat; cell : nat -> nat -> R }.

(** A tensor of shape [dim0, dim1, dim2]. *)
Record shaped3 : Type := { dim0 : nat; dim1 : nat; dim2 : nat; val : tensor3 }.

(** What [_extract_params] reads of a graph: the node features ['node_emb']
    and ['rnn_emb'] ([None] for an absent key), [get_node_num()] and
    [node_attributes]. *)
Record graph : Type := {
  node_emb : option matrix;
  rnn_emb : option matrix;
  get_node_num : nat;
  node_attrs : list node_attr
}.

(** [None], ["mean"], ["max"], ["min"] or any other value. *)
Inductive pooling_kind : Type := pool_mean | pool_max | pool_min | pool_other.

(** What [graph_pooling] returns: a tensor of shape [B, D], or the tensor
    of shape [D] that unpacking a tensor of two rows gives. *)
Inductive pooled : Type :=
| pooled_batch (t : tensor2)
| pooled_row (w : nat) (v : nat -> R).

(** The dictionary returned by [_extract_params]. *)
Record params : Type := {
  ret_graph_node_embedding : shaped3;
  ret_graph_node_mask : tensor2;
  ret_rnn_node_embedding : option shaped3;
  ret_graph_level_embedding : option pooled
}.

(** [d[key]] for a key that may be absent. *)
Definition feature {A : Type} (o : option A) : result A :=
  match o with
  | Some x => Ok x
  | None => Raise KeyError
  end.

(** [max(l)] *)
Definition py_max (l : list nat) : result nat :=
  match l with
  | [] => Raise ValueError
  | x :: l' => Ok (fold_left Nat.max l' x)
  end.

(** The inner function [pad_tensor] on a tensor of two dimensions. *)
Definition pad_tensor (x : matrix) (dim pad_size : Z) : result matrix :=
  if negb ((0 <=? dim) && (dim <=? 1))%Z then Raise AssertionError
  else if negb (0 <=? pad_size)%Z then Raise AssertionError
  else if (dim =? 0)%Z then
    Ok {| rows := rows x + Z.to_nat pad_size;
          cols := cols x;
          cell := fun i k => if (i <? rows x)%nat then cell x i k else 0 |}
  else
    Ok {| rows := rows x;
          cols := cols x + Z.to_nat pad_size;
          cell := fun i k => if (k <? cols x)%nat then cell x i k else 0 |}.

(** The loop that pads every embedding to [max_num] rows. *)
Definition pad_all (embs : list matrix) (max_num : nat) : result (list matrix) :=
  for_each (fun (emb : matrix) (ret : list matrix) =>
              emb ← (if (rows emb <? max_num)%nat
                     then pad_tensor emb 0
                            (Z.of_nat max_num - Z.of_nat (rows emb))
                     else Ok emb);
              Ok (ret ++ [emb]))
           embs [].

(** [torch.cat([x.unsqueeze(0) for x in l], dim=0)]: the tensors must have
    one shape. *)
Definition stack (l : list matrix) : result shaped3 :=
  match l with
  | [] => Raise RuntimeError
  | x :: _ =>
      if forallb (fun y => (rows y =? rows x)%nat && (cols y =? cols x)%nat) l
      then Ok {| dim0 := length l; dim1 := rows x; dim2 := cols x;
                 val := fun b n k => match l !! b with
                                     | Some y => cell y n k
                                     | None => 0
                                     end |}
      else Raise RuntimeError
  end.

(** [torch.mean(x, dim=1)].  Over no node at all torch gives NaN, which a
    real number does not model. *)
Definition mean_dim1 (x : shaped3) : tensor2 :=
  {| width := dim2 x;
     entry := fun b k => big_sum (dim1 x) (fun n => val x b n k) / INR (dim1 x) |}.

(** The values of [torch.max(x, dim=1)]. *)
Definition max_dim1 (x : shaped3) : result tensor2 :=
  match dim1 x with
  | O => Raise IndexError
  | S n =>
      Ok {| width := dim2 x;
            entry := fun b k =>
              fold_left Rmax (map (fun n => val x b n k) (seq 1 n))
                        (val x b 0%nat k) |}
  end.

(** [graph_pooling].  The branch for ["min"] unpacks the result of
    [torch.mean] into two names, which iterates over its first dimension:
    with two graphs in the batch [pooled_vec] is the mean of the first
    graph, with any other number the unpacking raises [ValueError]. *)
Definition graph_pooling (graph_pooling_strategy : option pooling_kind)
    (graph_node : shaped3) : result (option pooled) :=
  match graph_pooling_strategy with
  | None => Ok None
  | Some pool_mean => Ok (Some (pooled_batch (mean_dim1 graph_node)))
  | Some pool_max =>
      pooled_vec ← max_dim1 graph_node; Ok (Some (pooled_batch pooled_vec))
  | Some pool_min =>
      if (dim0 graph_node =? 2)%nat
      then Ok (Some (pooled_row (dim2 graph_node)
                                (entry (mean_dim1 graph_node) 0%nat)))
      else Raise ValueError
  | Some pool_other => Raise NotImplementedError
  end.

(** [x[b][k] = y] *)
Definition set_at (x : tensor2) (b k : nat) (y : R) : tensor2 :=
  {| width := width x;
     entry := fun b' k' => if ((b' =? b) && (k' =? k))%nat then y
                           else entry x b' k' |}.

(** The inner loop [for j in range(node_num)] for the graph at index [i]. *)
Definition mask_graph (i : nat) (s_g : graph) (graph_node_mask : tensor2)
  : result tensor2 :=
  for_each (fun (j : nat) (graph_node_mask : tensor2) =>
              attr ← getitem (node_attrs s_g) j;
              match type attr with
              | Some node_type =>
                  if (j <? width graph_node_mask)%nat
                  then Ok (set_at graph_node_mask i j (IZR node_type))
                  else Raise IndexError
              | None => Ok graph_node_mask
              end)
           (seq 0 (get_node_num s_g)) graph_node_mask.

Definition _extract_params (self : StdRNNDecoder)
    (graph_pooling_strategy : option pooling_kind) (graph_list : list graph)
  : result params :=
  graph_node_emb ← for_each (fun (s_g : graph) (l : list matrix) =>
                               x ← feature (node_emb s_g); Ok (l ++ [x]))
                            graph_list [];
  rnn_node_emb ← for_each (fun (s_g : graph) (l : list matrix) =>
                             x ← feature (rnn_emb s_g); Ok (l ++ [x]))
                          graph_list [];
  let batch_size := length graph_list in
  max_node_num ← py_max (map rows graph_node_emb);
  graph_node_emb_ret ← pad_all graph_node_emb max_node_num;
  graph_node_emb_ret ← stack graph_node_emb_ret;
  graph_level_emb ← graph_pooling graph_pooling_strategy graph_node_emb_ret;
  let graph_node_mask :=
    {| width := max_node_num; entry := fun _ _ => -1 |} in
  graph_node_mask ←
    for_each (fun '(i, s_g) (graph_node_mask : tensor2) =>
                mask_graph i s_g graph_node_mask)
             (imap (fun (i : nat) (s_g : graph) => (i, s_g)) graph_list)
             graph_node_mask;
  rnn_node_emb_ret ←
    match attention_type self with
    | sep_diff_encoder_type =>
        max_rnn_num ← py_max (map rows rnn_node_emb);
        if negb (max_rnn_num =? max_node_num)%nat then Raise AssertionError
        else
          rnn_node_emb_ret ← pad_all rnn_node_emb max_rnn_num;
          rnn_node_emb_ret ← stack rnn_node_emb_ret;
          Ok (Some rnn_node_emb_ret)
    | _ => Ok None
    end;
  Ok {| ret_graph_node_embedding := graph_node_emb_ret;
        ret_graph_node_mask := graph_node_mask;
        ret_rnn_node_embedding := rnn_node_emb_ret;
        ret_graph_level_embedding := graph_level_emb |}.


(** The type of node [j] of a graph, [None] for a node without type and
    for an index that is not a node. *)
Definition node_type_at (s_g : graph) (j : nat) : option Z :=
  if (j <? get_node_num s_g)%nat then node_attrs s_g !! j ≫= type else None.

(** The embedding [x] with zero rows below it up to [n] rows. *)
Definition pad_rows (x : matrix) (n : nat) : matrix :=
  {| rows := rows x + Z.to_nat (Z.of_nat n - Z.of_nat (rows x));
     cols := cols x;
     cell := fun i k => if (i <? rows x)%nat then cell x i k else 0 |}.

(** A batch for the examples: a graph of one node and a graph of two. *)
Definition demo_matrix (r : nat) : matrix :=
  {| rows := r; cols := 1; cell := fun _ _ => 1 |}.

Definition demo_graph_list : list graph :=
  [ {| node_emb := Some (demo_matrix 1); rnn_emb := Some (demo_matrix 1);
       get_node_num := 1;
       node_attrs := [ {| token := Some (py "a"); type := Some 0%Z |} ] |};
    {| node_emb := Some (demo_matrix 2); rnn_emb := Some (demo_matrix 2);
       get_node_num := 2;
       node_attrs := [ {| token := Some (py "a"); type := Some 1%Z |};
                       {| token := Some (py "b"); type := None |} ] |} ].

End Batch.

(** ** [cider.py]: [CIDEr.calculate_scores]

    [compute_score] is the method of that name of the scorer built by
    [__init__]; it receives two dictionaries from indices to lists of
    strings. *)
Definition calculate_scores {Score : Type}
    (compute_score : gmap nat (list pystr) -> gmap nat (list pystr)
                     -> result Score)
    (ground_truth predict : list pystr) : result Score :=
  let ref_list := map (fun refs : pystr => map strip [refs]) ground_truth in
  let refs : gmap nat (list pystr) := map_seq 0 ref_list in
  let hyps : gmap nat (list pystr) :=
    map_seq 0 (map (fun lines : pystr => [strip lines]) predict) in
  if negb (base.size refs =? base.size hyps) then Raise AssertionError
  else compute_score refs hyps.

(** The arguments of the examples without a target sequence. *)
Definition demo_arguments_free : Decoder.arguments :=
  {| Decoder.batch_size := 1;
     Decoder.graph_node_embedding := fun _ _ _ => 0%R;
     Decoder.graph_node_mask := None;
     Decoder.rnn_node_embedding := None;
     Decoder.graph_level_embedding := None;
     Decoder.tgt_seq := None;
     Decoder.src_seq := None;
     Decoder.teacher_forcing_rate := 1%R |}.

(** ** Well-formed inputs of [forward] *)
Module ForwardAux.
Import Decoder DecoderAux Batch.



End ForwardAux.

(** * Theorems *)

(** ** The result monad and loops *)

Lemma for_each_app {A S : Type} (body : A -> S -> result S) xs ys (s : S) :
  for_each body (xs ++ ys) s = (s' ← for_each body xs s; for_each body ys s').
Proof.
  revert s. induction xs as [|x xs IH]; intros s; simpl; [done|].
  destruct (body x s) as [s'|e]; simpl; [apply IH | done].
Qed.

Lemma bind_Ok {A B : Type} (a : A) (f : A -> result B) : (Ok a ≫= f) = f a.
Proof. done. Qed.

Lemma bind_Raise {A B : Type} (e : exn) (f : A -> result B) :
  (Raise e ≫= f) = Raise e.
Proof. done. Qed.

(** ** Counting tokens *)

Lemma count_nil x : count x [] = 0.
Proof. done. Qed.

Lemma count_cons x y l :
  count x (y :: l) = (if bool_decide (y = x) then 1 else 0) + count x l.
Proof.
  unfold count. rewrite filter_cons.
  case_bool_decide; destruct (decide (y = x)); simpl; congruence.
Qed.

Lemma count_app x l1 l2 : count x (l1 ++ l2) = count x l1 + count x l2.
Proof. unfold count. by rewrite filter_app, length_app. Qed.

Lemma count_same_or_marked x l1 l2 :
  x <> ref_char -> x <> py "," ->
  Forall2 same_or_marked l1 l2 -> count x l1 = count x l2.
Proof.
  intros Hd Hc. induction 1 as [|a b l1 l2 Hab _ IH]; [done|].
  rewrite !count_cons, IH. f_equal.
  destruct Hab as [->|[-> ->]]; [done|].
  by rewrite !bool_decide_eq_false_2 by congruence.
Qed.

(** ** The marking loop of [get_split_comma] *)

Section MarkingLoop.
Variable toks : list pystr.

Lemma marked_upto_lookup k i :
  marked_upto toks k !! i =
  (fun t => if (i <? k) && Spec.top_level_comma toks i then ref_char else t)
    <$> toks !! i.
Proof. unfold marked_upto. by rewrite list_lookup_imap. Qed.

Lemma marked_upto_length k : length (marked_upto toks k) = length toks.
Proof. unfold marked_upto. by rewrite length_imap. Qed.

Lemma marked_upto_0 : marked_upto toks 0 = toks.
Proof.
  apply list_eq; intros i. rewrite marked_upto_lookup.
  by destruct (toks !! i).
Qed.

Lemma marked_upto_all :
  marked_upto toks (length toks) = mark (Spec.top_level_comma toks) toks.
Proof.
  apply list_eq; intros i. unfold mark.
  rewrite marked_upto_lookup, list_lookup_imap.
  destruct (toks !! i) as [t|] eqn:Hi; [simpl|done].
  apply lookup_lt_Some in Hi. apply Nat.ltb_lt in Hi. by rewrite Hi.
Qed.

Lemma marked_upto_related k :
  Forall2 same_or_marked (marked_upto toks k) toks.
Proof.
  apply Forall2_same_length_lookup_2; [apply marked_upto_length|].
  intros i a b Ha Hb. rewrite marked_upto_lookup, Hb in Ha. simpl in Ha.
  injection Ha as <-.
  destruct (i <? k); simpl; [|by left].
  destruct (Spec.top_level_comma toks i) eqn:Htop; [|by left].
  right. split; [done|].
  unfold Spec.top_level_comma in Htop.
  apply andb_prop in Htop as [Htop _]. apply andb_prop in Htop as [Htop _].
  apply bool_decide_eq_true in Htop. congruence.
Qed.

Lemma marked_upto_balanced_take k i :
  Spec.balanced (take i (marked_upto toks k)) = Spec.balanced (take i toks).
Proof.
  unfold Spec.balanced.
  by rewrite !(count_same_or_marked _ (take i (marked_upto toks k)) (take i toks))
    by (done || apply Forall2_take, marked_upto_related).
Qed.

Lemma marked_upto_balanced_drop k i :
  Spec.balanced (drop i (marked_upto toks k)) = Spec.balanced (drop i toks).
Proof.
  unfold Spec.balanced.
  by rewrite !(count_same_or_marked _ (drop i (marked_upto toks k)) (drop i toks))
    by (done || apply Forall2_drop, marked_upto_related).
Qed.

Lemma marked_upto_step k :
  k < length toks ->
  get_split_comma_step k (marked_upto toks k) = Ok (marked_upto toks (S k)).
Proof.
  intros Hk. unfold get_split_comma_step.
  destruct (lookup_lt_is_Some_2 toks k Hk) as [t Ht].
  rewrite marked_upto_lookup, Ht. simpl.
  rewrite Nat.ltb_irrefl. simpl.
  fold (Spec.balanced (take k (marked_upto toks k))).
  fold (Spec.balanced (drop (S k) (marked_upto toks k))).
  rewrite marked_upto_balanced_take, marked_upto_balanced_drop.
  assert (Hsame : forall b : bool,
    Spec.top_level_comma toks k = b ->
    (if b then <[k:=ref_char]> (marked_upto toks k) else marked_upto toks k)
    = marked_upto toks (S k)).
  { intros b Hb. apply list_eq; intros i.
    destruct (decide (i = k)) as [->|Hne].
    - rewrite marked_upto_lookup, Ht. simpl.
      rewrite (proj2 (Nat.ltb_lt k (S k))) by lia. simpl. rewrite Hb.
      destruct b.
      + rewrite list_lookup_insert_eq; [done|by rewrite marked_upto_length].
      + rewrite marked_upto_lookup, Ht. simpl. by rewrite Nat.ltb_irrefl.
    - transitivity (marked_upto toks k !! i).
      { destruct b; [by rewrite list_lookup_insert_ne|done]. }
      rewrite !marked_upto_lookup. destruct (toks !! i); [simpl|done].
      replace (i <? S k) with (i <? k); [done|].
      destruct (i <? k) eqn:E1, (i <? S k) eqn:E2; try done;
        rewrite ?Nat.ltb_lt, ?Nat.ltb_ge in *; lia. }
  unfold Spec.top_level_comma in Hsame. rewrite Ht in Hsame.
  destruct (decide (t = py ",")) as [->|Hc].
  - rewrite bool_decide_eq_true_2 by done.
    rewrite bool_decide_eq_true_2 in Hsame by done. simpl in Hsame.
    destruct (Spec.balanced (take k toks)); simpl in *;
      [|by rewrite <- (Hsame false)].
    destruct (Spec.balanced (drop (S k) toks)); simpl in *;
      [|by rewrite <- (Hsame false)].
    by rewrite <- (Hsame true).
  - rewrite bool_decide_eq_false_2 by done.
    rewrite bool_decide_eq_false_2 in Hsame by congruence.
    by rewrite <- (Hsame false).
Qed.

Lemma marking_loop_from n k :
  k + n = length toks ->
  for_each get_split_comma_step (seq k n) (marked_upto toks k)
  = Ok (marked_upto toks (k + n)).
Proof.
  revert k. induction n as [|n IH]; intros k Hk; simpl.
  - by rewrite Nat.add_0_r.
  - rewrite marked_upto_step by lia. simpl.
    unfold mbind, result_bind. rewrite IH by lia. f_equal. f_equal. lia.
Qed.

Lemma marking_loop :
  for_each get_split_comma_step (seq 0 (length toks)) toks
  = Ok (mark (Spec.top_level_comma toks) toks).
Proof.
  rewrite <- marked_upto_all.
  rewrite <- (marked_upto_0) at 2.
  by apply (marking_loop_from (length toks) 0).
Qed.
End MarkingLoop.

(** ** Splitting at a separator character *)

Lemma split_on_nonempty sep s : split_on sep s <> [].
Proof.
  destruct s as [|c s]; simpl; [done|].
  destruct (c =? sep)%N; [done|]. by destruct (split_on sep s).
Qed.

Lemma split_on_app_sep sep a b :
  split_on sep (a ++ sep :: b) = split_on sep a ++ split_on sep b.
Proof.
  induction a as [|c a IH]; simpl.
  - by rewrite N.eqb_refl.
  - destruct (c =? sep)%N; [by rewrite IH|].
    rewrite IH. pose proof (split_on_nonempty sep a).
    by destruct (split_on sep a).
Qed.

Lemma split_on_app_fresh sep a b :
  sep ∉ b -> split_on sep (a ++ b) = app_last (split_on sep a) b.
Proof.
  intros Hb. induction a as [|c a IH]; simpl.
  - induction b as [|d b IHb]; [done|]. simpl.
    apply not_elem_of_cons in Hb as [Hd Hb].
    rewrite (proj2 (N.eqb_neq d sep)) by congruence.
    by rewrite IHb.
  - pose proof (split_on_nonempty sep a) as Hne.
    destruct (c =? sep)%N.
    + rewrite IH. simpl. by destruct (split_on sep a).
    + rewrite IH. destruct (split_on sep a) as [|w [|w' ws]]; done.
Qed.

Lemma split_on_fresh sep s : sep ∉ s -> split_on sep s = [s].
Proof. intros Hs. by rewrite <- (app_nil_l s), split_on_app_fresh. Qed.

(** ** Stripping white space *)

Lemma lstrip_app a b :
  lstrip (a ++ b) = match lstrip a with [] => lstrip b | _ => lstrip a ++ b end.
Proof.
  induction a as [|c a IH]; simpl; [by destruct (lstrip b)|].
  by destruct (is_space c).
Qed.

Lemma strip_nil : strip [] = [].
Proof. done. Qed.

Lemma strip_cons_space c s : is_space c = true -> strip (c :: s) = strip s.
Proof. intros Hc. unfold strip. simpl. by rewrite Hc. Qed.

Lemma strip_snoc_space c s : is_space c = true -> strip (s ++ [c]) = strip s.
Proof.
  intros Hc. unfold strip, rstrip. rewrite lstrip_app.
  destruct (lstrip s) as [|d s'] eqn:Hs.
  - simpl. by rewrite Hc.
  - rewrite rev_app_distr. simpl. by rewrite Hc.
Qed.

Lemma strip_clean s : clean s -> strip s = s.
Proof.
  intros [Hl Hr]. unfold strip, rstrip. by rewrite Hl, Hr, rev_involutive.
Qed.

Lemma clean_nil : clean [].
Proof. done. Qed.

Lemma lstrip_word_app t x : word t -> lstrip (t ++ x) = t ++ x.
Proof.
  intros [Hne Hws]. destruct t as [|c t]; [done|]. simpl.
  by rewrite Hws by left.
Qed.

Lemma word_rev t : word t -> word (rev t).
Proof.
  intros [Hne Hws]. split.
  - intros Hr. apply Hne. by rewrite <- (rev_involutive t), Hr.
  - intros c Hc. apply Hws. apply list_elem_of_In, in_rev.
    by apply list_elem_of_In.
Qed.

Lemma word_clean t : word t -> clean t.
Proof.
  intros Hw. split.
  - by rewrite <- (app_nil_r t), lstrip_word_app.
  - rewrite <- (app_nil_r (rev t)). by apply lstrip_word_app, word_rev.
Qed.

(** ** Joining *)

Lemma join_cons sep x xs :
  join sep (x :: xs) = x ++ match xs with [] => [] | _ => sep ++ join sep xs end.
Proof. destruct xs; simpl; [by rewrite app_nil_r|done]. Qed.

Lemma join_app sep l1 l2 :
  join sep (l1 ++ l2) =
  join sep l1 ++ match l1, l2 with
                 | [], _ | _, [] => []
                 | _, _ => sep
                 end ++ join sep l2.
Proof.
  induction l1 as [|x l1 IH].
  - done.
  - rewrite <- app_comm_cons, !join_cons, IH.
    destruct l1 as [|y l1], l2 as [|z l2]; simpl;
      rewrite ?app_nil_r, <- ?app_assoc; done.
Qed.

Lemma join_words_clean toks :
  Forall word toks -> clean (join (py " ") toks) /\
                      (toks <> [] -> join (py " ") toks <> []).
Proof.
  induction 1 as [|t toks Ht Htoks IH].
  - split; [apply clean_nil|done].
  - rewrite join_cons. destruct toks as [|t' toks].
    + rewrite app_nil_r. split; [by apply word_clean|]. intros _. apply Ht.
    + destruct IH as [[IHl IHr] IHne]. specialize (IHne ltac:(done)).
      split; [split|].
      * by apply lstrip_word_app.
      * rewrite !rev_app_distr, <- !app_assoc. rewrite lstrip_app, IHr.
        destruct (rev (join (py " ") (t' :: toks))) eqn:Hrev; [|done].
        exfalso. apply IHne.
        by rewrite <- (rev_involutive (join _ _)), Hrev.
      * intros _. destruct Ht as [Hne _]. by destruct t.
Qed.

(** ** The words of [str.split()] *)

Lemma split_ws_words s : Forall word (split_ws s).
Proof.
  induction s as [|c s IH]; simpl; [done|].
  destruct (is_space c) eqn:Hc; [done|].
  assert (Hone : word [c]).
  { split; [done|]. intros d Hd. apply list_elem_of_singleton in Hd. by subst. }
  destruct s as [|c' s']; [by constructor|].
  destruct (is_space c') eqn:Hc'; [by constructor|].
  destruct (split_ws (c' :: s')) as [|w ws]; [by constructor|].
  apply Forall_cons in IH as [[Hne Hw] Hws].
  constructor; [|done]. split; [done|].
  intros d Hd. apply elem_of_cons in Hd as [->|Hd]; [done|by apply Hw].
Qed.

Lemma split_ws_chars s : Forall (fun t => forall c, c ∈ t -> c ∈ s) (split_ws s).
Proof.
  induction s as [|c s IH]; simpl; [done|].
  assert (Hmono : Forall (fun t => forall d, d ∈ t -> d ∈ c :: s) (split_ws s)).
  { eapply Forall_impl; [exact IH|]. intros t Ht d Hd. right. by apply Ht. }
  assert (Hone : forall d, d ∈ [c] -> d ∈ c :: s).
  { intros d Hd. apply list_elem_of_singleton in Hd. subst. by left. }
  destruct (is_space c); [done|].
  destruct s as [|c' s']; [by constructor|].
  destruct (is_space c'); [by constructor|].
  destruct (split_ws (c' :: s')) as [|w ws]; [by constructor|].
  apply Forall_cons in Hmono as [Hw Hws].
  constructor; [|done].
  intros d Hd. apply elem_of_cons in Hd as [->|Hd]; [by left|by apply Hw].
Qed.

Lemma strip_words toks : Forall word toks -> map strip toks = toks.
Proof.
  induction 1 as [|t toks Ht _ IH]; simpl; [done|].
  by rewrite IH, strip_clean by by apply word_clean.
Qed.

Lemma replace_char_chars old new s c :
  c ∈ replace_char old new s -> c ∈ s \/ c ∈ new.
Proof.
  unfold replace_char. induction s as [|d s IH]; simpl; [by left|].
  intros Hc. apply elem_of_app in Hc as [Hc|Hc].
  - destruct (d =? old)%N; [by right|].
    apply list_elem_of_singleton in Hc. subst. left. by left.
  - destruct (IH Hc) as [?|?]; [left; by right | by right].
Qed.

(** ** The stripped pieces between dollar characters *)

Lemma map_strip_app_last ps c :
  ps <> [] -> is_space c = true ->
  map strip (app_last ps [c]) = map strip ps.
Proof.
  intros Hne Hc. induction ps as [|w ps IH]; [done|].
  destruct ps as [|w' ps]; simpl.
  - by rewrite strip_snoc_space.
  - f_equal. by apply IH.
Qed.

Lemma pieces_cons_space c s :
  is_space c = true -> c <> dollar -> pieces (c :: s) = pieces s.
Proof.
  intros Hc Hd. unfold pieces. simpl.
  rewrite (proj2 (N.eqb_neq c dollar)) by done.
  pose proof (split_on_nonempty dollar s).
  destruct (split_on dollar s) as [|w ws]; [done|]. simpl.
  by rewrite strip_cons_space.
Qed.

Lemma pieces_snoc_space c s :
  is_space c = true -> c <> dollar -> pieces (s ++ [c]) = pieces s.
Proof.
  intros Hc Hd. unfold pieces. rewrite split_on_app_fresh.
  - apply map_strip_app_last; [apply split_on_nonempty|done].
  - intros Hin. by apply list_elem_of_singleton in Hin.
Qed.

Lemma pieces_app_dollar a b : pieces (a ++ dollar :: b) = pieces a ++ pieces b.
Proof. unfold pieces. by rewrite split_on_app_sep, map_app. Qed.

Lemma pieces_join_marker l1 l2 :
  pieces (join (py " ") (l1 ++ ref_char :: l2))
  = pieces (join (py " ") l1) ++ pieces (join (py " ") l2).
Proof.
  rewrite join_app, join_cons.
  assert (Hleft : forall x, pieces (x ++ py " ") = pieces x).
  { intros x. by apply (pieces_snoc_space space). }
  assert (Hright : forall x, pieces (py " " ++ x) = pieces x).
  { intros x. by apply (pieces_cons_space space). }
  destruct l1 as [|t1 l1], l2 as [|t2 l2].
  - apply (pieces_app_dollar [] []).
  - rewrite <- (Hright (join _ (t2 :: l2))).
    apply (pieces_app_dollar [] (py " " ++ _)).
  - rewrite <- (Hleft (join _ (t1 :: l1))), <- pieces_app_dollar.
    f_equal. by rewrite <- app_assoc.
  - rewrite <- (Hleft (join _ (t1 :: l1))), <- (Hright (join _ (t2 :: l2))).
    rewrite <- pieces_app_dollar. f_equal. by rewrite <- app_assoc.
Qed.

Lemma pieces_unsplit segs :
  segs <> [] ->
  pieces (join (py " ") (unsplit ref_char segs))
  = flat_map (fun seg => pieces (join (py " ") seg)) segs.
Proof.
  induction segs as [|seg segs IH]; [done|]. intros _.
  destruct segs as [|seg' segs].
  - simpl. by rewrite app_nil_r.
  - change (unsplit ref_char (seg :: seg' :: segs))
      with (seg ++ ref_char :: unsplit ref_char (seg' :: segs)).
    rewrite pieces_join_marker, IH by done. done.
Qed.

(** ** Cutting a token list *)

Lemma split_at_nonempty cut toks : Spec.split_at cut toks <> [].
Proof.
  destruct toks as [|t toks]; simpl; [done|].
  destruct (cut 0); [done|]. by destruct (Spec.split_at _ _).
Qed.

Lemma unsplit_split_at cut toks :
  unsplit ref_char (Spec.split_at cut toks) = mark cut toks.
Proof.
  revert cut. induction toks as [|t toks IH]; intros cut; [done|].
  change (mark cut (t :: toks))
    with ((if cut 0 then ref_char else t) :: mark (cut ∘ S) toks).
  rewrite <- IH. simpl.
  pose proof (split_at_nonempty (cut ∘ S) toks) as Hne.
  destruct (cut 0).
  - by destruct (Spec.split_at (cut ∘ S) toks).
  - by destruct (Spec.split_at (cut ∘ S) toks) as [|seg [|seg' segs]].
Qed.

Lemma split_at_subtokens cut toks :
  Forall (fun seg => forall t, t ∈ seg -> t ∈ toks) (Spec.split_at cut toks).
Proof.
  revert cut. induction toks as [|t toks IH]; intros cut; simpl.
  - constructor; [|done]. by intros t Ht.
  - assert (Hmono : Forall (fun seg => forall u, u ∈ seg -> u ∈ t :: toks)
                           (Spec.split_at (cut ∘ S) toks)).
    { eapply Forall_impl; [apply IH|]. intros seg Hseg u Hu. right. by apply Hseg. }
    destruct (cut 0).
    + constructor; [|done]. intros u Hu. by apply elem_of_nil in Hu.
    + destruct (Spec.split_at (cut ∘ S) toks) as [|seg segs].
      * constructor; [|done]. intros u Hu.
        apply list_elem_of_singleton in Hu. subst. by left.
      * apply Forall_cons in Hmono as [Hseg Hsegs]. constructor; [|done].
        intros u Hu. apply elem_of_cons in Hu as [->|Hu]; [by left|by apply Hseg].
Qed.

(** ** [get_split_comma] in terms of the top-level segments *)

Lemma fold_add_to_set (f : pystr -> pystr) (l : list pystr) (acc : gset pystr) :
  fold_left (fun result_set str_ => {[ f str_ ]} ∪ result_set) l acc
  = list_to_set (map f l) ∪ acc.
Proof.
  revert acc. induction l as [|x l IH]; intros acc; simpl.
  - set_solver.
  - rewrite IH. set_solver.
Qed.

Lemma get_split_comma_segments s :
  get_split_comma s
  = Ok (list_to_set
          (flat_map (fun seg => pieces (join (py " ") seg))
                    (Spec.top_level_segments s))).
Proof.
  unfold get_split_comma, Spec.top_level_segments.
  fold (Spec.tokens s). rewrite strip_words by apply split_ws_words.
  rewrite marking_loop. simpl.
  unfold mret, result_ret. f_equal.
  rewrite fold_add_to_set, <- unsplit_split_at.
  rewrite <- pieces_unsplit by apply split_at_nonempty.
  unfold pieces. set_solver.
Qed.

Lemma join_chars sep toks c :
  c ∈ join sep toks -> c ∈ sep \/ exists t, t ∈ toks /\ c ∈ t.
Proof.
  induction toks as [|t toks IH]; [by intros ?%elem_of_nil|].
  rewrite join_cons. intros Hc. apply elem_of_app in Hc as [Hc|Hc].
  - right. exists t. split; [by left|done].
  - destruct toks as [|t' toks]; [by apply elem_of_nil in Hc|].
    apply elem_of_app in Hc as [Hc|Hc]; [by left|].
    destruct (IH Hc) as [?|(u & Hu & Hcu)]; [by left|].
    right. exists u. split; [by right|done].
Qed.

Lemma tokens_dollar_free s :
  dollar ∉ s -> forall t, t ∈ Spec.tokens s -> dollar ∉ t.
Proof.
  intros Hs t Ht Hd. unfold Spec.tokens in Ht.
  pose proof (split_ws_chars (replace_char comma (py " , ") s)) as Hch.
  rewrite Forall_forall in Hch.
  apply (Hch t Ht), replace_char_chars in Hd as [Hd|Hd]; [done|].
  by repeat (apply elem_of_cons in Hd as [Hd|Hd]; [done|]);
    apply elem_of_nil in Hd.
Qed.

Lemma pieces_words seg :
  Forall word seg -> (forall t, t ∈ seg -> dollar ∉ t) ->
  pieces (join (py " ") seg) = [join (py " ") seg].
Proof.
  intros Hw Hd. unfold pieces. rewrite split_on_fresh.
  - simpl. f_equal. apply strip_clean. by apply join_words_clean.
  - intros Hin. apply join_chars in Hin as [Hin|(t & Ht & Hin)].
    + apply list_elem_of_singleton in Hin. done.
    + by apply (Hd t Ht).
Qed.

Lemma segments_words s :
  Forall (Forall word) (Spec.top_level_segments s).
Proof.
  unfold Spec.top_level_segments.
  eapply Forall_impl; [apply split_at_subtokens|].
  intros seg Hseg. apply Forall_forall. intros t Ht.
  pose proof (split_ws_words (replace_char comma (py " , ") s)) as Hw.
  rewrite Forall_forall in Hw. apply Hw. by apply Hseg.
Qed.

(** Without a dollar character in the input, [get_split_comma] returns the
    set of top-level segments. *)
Lemma get_split_comma_dollar_free s :
  dollar ∉ s -> get_split_comma s = Ok (Spec.segment_set s).
Proof.
  intros Hs. rewrite get_split_comma_segments. unfold Spec.segment_set.
  f_equal. f_equal.
  pose proof (segments_words s) as Hw.
  assert (Hd : Forall (fun seg => forall t, t ∈ seg -> dollar ∉ t)
                      (Spec.top_level_segments s)).
  { eapply Forall_impl; [apply split_at_subtokens|].
    intros seg Hseg t Ht. apply (tokens_dollar_free s Hs). by apply Hseg. }
  induction Hw as [|seg segs Hseg _ IH]; [done|].
  apply Forall_cons in Hd as [Hd1 Hd2]. simpl.
  by rewrite pieces_words, IH.
Qed.

(** In general it returns the stripped pieces of the segments, cut at
    every dollar character. *)
Lemma get_split_comma_segment_set s :
  get_split_comma s = Ok (pieces_of_set (Spec.segment_set s)).
Proof.
  rewrite get_split_comma_segments. f_equal.
  unfold pieces_of_set, Spec.segment_set.
  apply set_eq. intros x.
  rewrite !elem_of_list_to_set, !list_elem_of_In, !in_flat_map.
  split.
  - intros (seg & Hseg & Hx). exists (join (py " ") seg). split; [|done].
    apply list_elem_of_In, elem_of_elements, elem_of_list_to_set.
    apply list_elem_of_In, in_map_iff. by exists seg.
  - intros (y & Hy & Hx).
    apply list_elem_of_In, elem_of_elements, elem_of_list_to_set in Hy.
    apply list_elem_of_In, in_map_iff in Hy as (seg & <- & Hseg).
    by exists seg.
Qed.

(** ** [is_all_same] *)

Lemma all_same_scan_eq c1 c2 :
  length c1 = length c2 -> all_same_scan c1 c2 = bool_decide (c1 = c2).
Proof.
  revert c2. induction c1 as [|x c1 IH]; intros [|y c2] Hlen; try done.
  simpl. destruct (Z.eqb_spec x y) as [->|Hne].
  - rewrite IH by (simpl in Hlen; lia).
    apply bool_decide_ext. split; congruence.
  - by rewrite bool_decide_eq_false_2 by congruence.
Qed.

Lemma is_all_same_eq c1 c2 get_idx_symbol :
  is_all_same c1 c2 get_idx_symbol =
  if bool_decide (c1 = c2) then Ok true
  else s1 ← get_split_comma (render get_idx_symbol c1);
       s2 ← get_split_comma (render get_idx_symbol c2);
       Ok (bool_decide (s1 = s2)).
Proof.
  unfold is_all_same.
  destruct (Nat.eqb_spec (length c1) (length c2)) as [Hlen|Hlen].
  - rewrite all_same_scan_eq by done. simpl.
    destruct (bool_decide (c1 = c2)); simpl; [done|].
    repeat (destruct (get_split_comma _); simpl; [|done]).
    by destruct (bool_decide _).
  - simpl. rewrite bool_decide_eq_false_2 by congruence.
    repeat (destruct (get_split_comma _); simpl; [|done]).
    by destruct (bool_decide _).
Qed.

Lemma render_dollar_free get_idx_symbol c :
  (forall x, x ∈ c -> dollar ∉ get_idx_symbol x) ->
  dollar ∉ render get_idx_symbol c.
Proof.
  intros Hc Hin. unfold render in Hin.
  apply join_chars in Hin as [Hin|(t & Ht & Hin)].
  - by apply list_elem_of_singleton in Hin.
  - apply list_elem_of_In, in_map_iff in Ht as (x & <- & Hx).
    apply (Hc x); [by apply list_elem_of_In|done].
Qed.

(** On symbols without a dollar character, [is_all_same] is the comparison
    up to the order of the top-level segments. *)
Lemma is_all_same_dollar_free c1 c2 get_idx_symbol :
  (forall x, x ∈ c1 ++ c2 -> dollar ∉ get_idx_symbol x) ->
  is_all_same c1 c2 get_idx_symbol
  = Ok (Spec.same_up_to_commas c1 c2 get_idx_symbol).
Proof.
  intros Hd. rewrite is_all_same_eq. unfold Spec.same_up_to_commas.
  destruct (bool_decide (c1 = c2)); [done|]. simpl.
  rewrite !get_split_comma_dollar_free; [done| |];
    apply render_dollar_free; intros x Hx; apply Hd, elem_of_app; auto.
Qed.

(** ** Totality *)

Lemma get_split_comma_step_no_runtime_error index input_list :
  get_split_comma_step index input_list <> Raise RuntimeError.
Proof.
  unfold get_split_comma_step.
  destruct (input_list !! index) as [tok|]; [|done].
  case_bool_decide as Hc; [|done]. subst tok.
  repeat (match goal with |- context [if ?b then _ else _] => destruct b end;
          try done).
Qed.

Lemma get_split_comma_total input_str :
  exists result_set, get_split_comma input_str = Ok result_set.
Proof. eexists. apply get_split_comma_segments. Qed.

Lemma is_all_same_total c1 c2 get_idx_symbol :
  exists b, is_all_same c1 c2 get_idx_symbol = Ok b.
Proof.
  rewrite is_all_same_eq. destruct (bool_decide (c1 = c2)); [by eexists|].
  destruct (get_split_comma_total (render get_idx_symbol c1)) as [s1 ->].
  destruct (get_split_comma_total (render get_idx_symbol c2)) as [s2 ->].
  simpl. by eexists.
Qed.

(** C9: for all token-index lists and every vocabulary, [is_all_same]
    returns a Boolean and raises nothing, so its closing
    [NotImplementedError] is never reached; [get_split_comma] returns a set
    for every input string, and no iteration of its loop, on any list and at
    any index, takes the [RuntimeError] branch. *)
Theorem is_all_same_never_raises :
  (forall c1 c2 get_idx_symbol, exists b : bool,
      is_all_same c1 c2 get_idx_symbol = Ok b)
  /\ (forall input_str, exists result_set : gset pystr,
         get_split_comma input_str = Ok result_set)
  /\ (forall index input_list,
         get_split_comma_step index input_list <> Raise RuntimeError).
Proof.
  split; [|split].
  - apply is_all_same_total.
  - apply get_split_comma_total.
  - apply get_split_comma_step_no_runtime_error.
Qed.

(** ** The dollar character *)

(** C1, at the input c1 = [0; 3; 1], c2 = [1; 2; 0] with the symbols
    0 -> a, 1 -> b, 2 -> ',', 3 -> '$': the lists differ and the top-level
    segments of "a $ b" and "b , a" differ, yet [is_all_same] answers
    True, because the dollar sign of the input is taken for the mark that
    [get_split_comma] writes over a top-level comma. *)
Theorem is_all_same_dollar_collision :
  is_all_same [0; 3; 1]%Z [1; 2; 0]%Z demo_vocab = Ok true
  /\ Spec.same_up_to_commas [0; 3; 1]%Z [1; 2; 0]%Z demo_vocab = false.
Proof. split; vm_compute; reflexivity. Qed.

(** C6, at the input "a $ b": the string has no comma, so its only
    top-level segment is "a $ b", but [get_split_comma] returns the set of
    "a" and "b". *)
Theorem get_split_comma_dollar_collision :
  get_split_comma (py "a $ b") = Ok {[ py "a"; py "b" ]}
  /\ Spec.segment_set (py "a $ b") = {[ py "a $ b" ]}
  /\ get_split_comma (py "a $ b") <> Ok (Spec.segment_set (py "a $ b")).
Proof.
  assert (H1 : get_split_comma (py "a $ b") = Ok {[ py "a"; py "b" ]}).
  { vm_compute. reflexivity. }
  assert (H2 : Spec.segment_set (py "a $ b") = {[ py "a $ b" ]}).
  { vm_compute. reflexivity. }
  split; [done|]. split; [done|].
  rewrite H1, H2. intros Heq.
  assert (Hin : py "a" ∈ ({[ py "a $ b" ]} : gset pystr)).
  { replace ({[ py "a $ b" ]} : gset pystr) with ({[ py "a"; py "b" ]} : gset pystr)
      by congruence.
    set_solver. }
  by apply elem_of_singleton in Hin.
Qed.

(** The result of [get_split_comma] depends on the set of top-level
    segments only: permuting the segments, or writing one of them twice,
    leaves the result as it is. *)
Lemma get_split_comma_invariant s s' :
  Spec.segment_set s = Spec.segment_set s' ->
  get_split_comma s = get_split_comma s'.
Proof.
  intros Heq. by rewrite !get_split_comma_segment_set, Heq.
Qed.

(** ** Accuracy *)

Lemma getitem_lookup {A : Type} (l : list A) i x :
  l !! i = Some x -> getitem l i = Ok x.
Proof. unfold getitem. by intros ->. Qed.

Lemma copy_by_index_from {A : Type} (l : list A) n k :
  k + n = length l ->
  for_each (fun (i : nat) (out : list A) => x ← getitem l i; Ok (out ++ [x]))
           (seq k n) (take k l)
  = Ok (take (k + n) l).
Proof.
  revert k. induction n as [|n IH]; intros k Hk; simpl.
  - by rewrite Nat.add_0_r.
  - destruct (lookup_lt_is_Some_2 l k ltac:(lia)) as [x Hx].
    rewrite (getitem_lookup _ _ _ Hx). simpl.
    rewrite <- (take_S_r _ _ _ Hx), IH by lia. do 2 f_equal. lia.
Qed.

Lemma copy_by_index_id {A : Type} (l : list A) : copy_by_index l = Ok l.
Proof.
  pose proof (copy_by_index_from l (length l) 0 eq_refl) as H.
  simpl in H. by rewrite firstn_all in H.
Qed.

Lemma accuracy_loop cands refs fm n k c0 :
  k + n <= Nat.min (length cands) (length refs) ->
  for_each (fun (i c : nat) =>
      cand ← getitem cands i;
      ref ← getitem refs i;
      same ← is_all_same cand ref fm;
      if same : bool then Ok (c + 1) else Ok c)
    (seq k n) c0
  = Ok (c0 + length (filter (fun i => same_at cands refs fm i = true) (seq k n))).
Proof.
  revert k c0. induction n as [|n IH]; intros k c0 Hk; simpl.
  - by rewrite Nat.add_0_r.
  - destruct (lookup_lt_is_Some_2 cands k ltac:(lia)) as [cand Hc].
    destruct (lookup_lt_is_Some_2 refs k ltac:(lia)) as [ref Hr].
    rewrite (getitem_lookup _ _ _ Hc), (getitem_lookup _ _ _ Hr). simpl.
    destruct (is_all_same_total cand ref fm) as [b Hb]. rewrite Hb. simpl.
    assert (Hat : same_at cands refs fm k = b).
    { unfold same_at. by rewrite Hc, Hr, Hb. }
    rewrite filter_cons. destruct b.
    + simpl. rewrite IH by lia. destruct (decide _); [|done].
      simpl. f_equal. lia.
    + simpl. rewrite IH by lia. by destruct (decide _); [congruence|].
Qed.

Lemma compute_accuracy_eq cands refs fm :
  snd (compute_accuracy cands refs fm)
  = float_div (correct_below cands refs fm (Nat.min (length cands) (length refs)))
              (Nat.min (length cands) (length refs)).
Proof.
  unfold compute_accuracy. simpl.
  by rewrite (accuracy_loop cands refs fm _ 0 0).
Qed.

Lemma compute_tree_accuracy_eq cands refs fm :
  compute_tree_accuracy cands refs fm = compute_accuracy cands refs fm.
Proof. unfold compute_tree_accuracy. by rewrite !copy_by_index_id. Qed.

Lemma filter_ext_elem {A : Type} (P1 P2 : A -> Prop)
    `{!forall x, Decision (P1 x), !forall x, Decision (P2 x)} (l : list A) :
  (forall x, x ∈ l -> P1 x <-> P2 x) -> filter P1 l = filter P2 l.
Proof.
  induction l as [|a l IH]; intros Hiff; [done|].
  rewrite !filter_cons, IH by (intros x Hx; apply Hiff; by right).
  destruct (decide (P1 a)) as [H1|H1], (decide (P2 a)) as [H2|H2]; try done;
    exfalso; apply (Hiff a ltac:(by left)) in H1 || apply (Hiff a ltac:(by left)) in H2;
    done.
Qed.

Lemma correct_below_take cands refs fm m n :
  n <= m ->
  correct_below (take m cands) (take m refs) fm n = correct_below cands refs fm n.
Proof.
  intros Hn. unfold correct_below. f_equal.
  apply filter_ext_elem. intros i Hi.
  apply elem_of_seq in Hi. unfold same_at.
  by rewrite !lookup_take_lt by lia.
Qed.

(** C5: for non-empty lists, [compute_tree_accuracy] returns c/m, where m
    is the smaller of the two lengths and c counts the indices below m at
    which [is_all_same] holds; the pairs from index m on do not matter; and
    on all inputs it returns (and prints) what [compute_accuracy] does. *)
Theorem compute_tree_accuracy_spec :
  (forall candidate_list reference_list get_idx_symbol,
      candidate_list <> [] -> reference_list <> [] ->
      let m := Nat.min (length candidate_list) (length reference_list) in
      let c := correct_below candidate_list reference_list get_idx_symbol m in
      snd (compute_tree_accuracy candidate_list reference_list get_idx_symbol)
      = Ok (Z.of_nat c # Pos.of_nat m)
      /\ snd (compute_tree_accuracy (take m candidate_list) (take m reference_list)
                                    get_idx_symbol)
         = Ok (Z.of_nat c # Pos.of_nat m))
  /\ (forall candidate_list reference_list get_idx_symbol,
         compute_tree_accuracy candidate_list reference_list get_idx_symbol
         = compute_accuracy candidate_list reference_list get_idx_symbol).
Proof.
  split; [|apply compute_tree_accuracy_eq].
  intros cands refs fm Hc Hr m c.
  assert (Hm : m <> 0).
  { subst m. destruct cands, refs; simpl; done. }
  rewrite !compute_tree_accuracy_eq, !compute_accuracy_eq.
  rewrite !length_take. fold m.
  replace (Nat.min (Nat.min m (length cands)) (Nat.min m (length refs)))
    with m by (subst m; lia).
  rewrite correct_below_take by done. fold c.
  unfold float_div. by destruct m.
Qed.

Lemma compute_tree_accuracy_spec_witness :
  [[0; 2; 1]; [0]; [1]]%Z <> [] /\ [[1; 2; 0]; [1]]%Z <> []
  /\ snd (compute_tree_accuracy [[0; 2; 1]; [0]; [1]]%Z [[1; 2; 0]; [1]]%Z demo_vocab)
     = Ok (Z.of_nat (correct_below [[0; 2; 1]; [0]; [1]]%Z [[1; 2; 0]; [1]]%Z
                                   demo_vocab 2) # Pos.of_nat 2).
Proof.
  split; [discriminate|]. split; [discriminate|].
  apply (proj1 compute_tree_accuracy_spec
               [[0; 2; 1]; [0]; [1]]%Z [[1; 2; 0]; [1]]%Z demo_vocab);
    discriminate.
Defined.

(** ** Closing the parentheses in [Jobs.eval] *)














(** ** Computations on the heap *)

Lemma run_bind {A B : Type} (m : M A) (f : A -> M B) (h : heap) :
  (m ≫= f) h = match m h with
                | (Ok a, h') => f a h'
                | (Raise e, h') => (Raise e, h')
                end.
Proof. done. Qed.

Lemma run_ret {A : Type} (a : A) (h : heap) : (mret a : M A) h = (Ok a, h).
Proof. done. Qed.

Lemma run_store l o h :
  store l o h = (Ok tt, {| objs := <[l := o]> (objs h); next_loc := next_loc h |}).
Proof. done. Qed.

Lemma run_load_vocab l h v :
  objs h !! l = Some (OVocab v) -> load_vocab l h = (Ok v, h).
Proof. unfold load_vocab. by intros ->. Qed.

Lemma run_load_dict_str_int l h d :
  objs h !! l = Some (ODictStrInt d) -> load_dict_str_int l h = (Ok d, h).
Proof. unfold load_dict_str_int. by intros ->. Qed.

Lemma run_load_dict_int_str l h d :
  objs h !! l = Some (ODictIntStr d) -> load_dict_int_str l h = (Ok d, h).
Proof. unfold load_dict_int_str. by intros ->. Qed.

Lemma run_load_graph l h g :
  objs h !! l = Some (OGraph g) -> load_graph l h = (Ok g, h).
Proof. unfold load_graph. by intros ->. Qed.

Section VocabObject.
Variables (h : heap) (self : loc) (v : Vocab) (V : vocab_state).
Hypothesis Hrep : represents h self v V.

Lemma represents_distinct :
  symbol2idx v <> self /\ idx2symbol v <> self /\ symbol2idx v <> idx2symbol v.
Proof.
  destruct Hrep as (H1 & H2 & H3 & _).
  repeat split; intros E; rewrite E in *; congruence.
Qed.

Lemma load_vocab_represents : load_vocab self h = (Ok v, h).
Proof. unfold load_vocab. destruct Hrep as (-> & _). done. Qed.

Lemma get_symbol_idx_represents s :
  get_symbol_idx self s h = (lookup_idx V s, h).
Proof.
  unfold get_symbol_idx. rewrite run_bind, load_vocab_represents, run_bind.
  destruct Hrep as (_ & H2 & _ & _ & Hunk).
  unfold load_dict_str_int, lookup_idx. rewrite H2, Hunk.
  destruct (s2i V !! s); [done|]. by destruct (s2i V !! unk V).
Qed.

Lemma add_symbol_represents s :
  exists h' v',
    add_symbol self s h = (Ok tt, h')
    /\ represents h' self v' (extend V s)
    /\ symbol2idx v' = symbol2idx v /\ idx2symbol v' = idx2symbol v
    /\ next_loc h' = next_loc h
    /\ forall l, l <> self -> l <> symbol2idx v -> l <> idx2symbol v ->
                 objs h' !! l = objs h !! l.
Proof.
  destruct represents_distinct as (Hd1 & Hd2 & Hd3).
  unfold add_symbol. rewrite run_bind, load_vocab_represents.
  destruct Hrep as (H1 & H2 & H3 & Hsize & Hunk).
  rewrite run_bind, (run_load_dict_str_int _ _ _ H2). unfold extend.
  destruct (s2i V !! s) as [i|] eqn:Hs.
  - exists h, v. by rewrite run_ret.
  - rewrite run_bind, run_store.
    rewrite run_bind, (run_load_dict_int_str _ _ (i2s V))
      by (cbn [objs]; by rewrite lookup_insert_ne).
    rewrite run_bind, !run_store. cbn [objs next_loc].
    eexists _, {| symbol2idx := symbol2idx v; idx2symbol := idx2symbol v;
                  vocab_size := vocab_size v + 1; unk_token := unk_token v |}.
    split; [done|].
    split; [|split; [done|split; [done|split; [done|]]]].
    + unfold represents. cbn [objs symbol2idx idx2symbol vocab_size unk_token
                               s2i i2s size unk].
      rewrite lookup_insert_eq.
      rewrite lookup_insert_ne, lookup_insert_ne, lookup_insert_eq by done.
      rewrite lookup_insert_ne, lookup_insert_eq by done.
      rewrite Hsize, Hunk. done.
    + intros l Hl1 Hl2 Hl3. cbn [objs]. by rewrite !lookup_insert_ne by done.
Qed.
End VocabObject.

Lemma evolves_refl oov h v V : represents h oov v V -> evolves oov h v h V.
Proof.
  intros Hrep. exists v.
  exact (conj Hrep (conj eq_refl (conj eq_refl (conj eq_refl (fun _ _ _ _ => eq_refl))))).
Qed.

Lemma evolves_add_symbol oov h v V s :
  represents h oov v V ->
  exists h', add_symbol oov s h = (Ok tt, h') /\ evolves oov h v h' (extend V s).
Proof.
  intros Hrep.
  destruct (add_symbol_represents h oov v V Hrep s)
    as (h' & v' & Hrun & Hrep' & Hp1 & Hp2 & Hn & Hframe).
  exists h'. split; [done|]. exists v'.
  exact (conj Hrep' (conj Hp1 (conj Hp2 (conj Hn Hframe)))).
Qed.

(** One iteration of the loop of [prepare_ext_vocab] does to the heap
    what [visit] does to the contents of [oov_dict]. *)
Lemma prepare_ext_vocab_node_visit oov h v V n token_matrix :
  represents h oov v V ->
  exists h',
    prepare_ext_vocab_node oov n token_matrix h
    = (fst (visit n token_matrix V), h')
    /\ evolves oov h v h' (snd (visit n token_matrix V)).
Proof.
  intros Hrep. unfold prepare_ext_vocab_node, visit.
  destruct (token n) as [t|]; [|exists h; split; [done|by apply evolves_refl]].
  rewrite run_bind, run_ret, run_bind. fold (addable n).
  assert (Hlast : forall h1 V1,
    evolves oov h v h1 V1 ->
    exists h', (get_symbol_idx oov t ≫= fun i => mret (token_matrix ++ [i])) h1
               = (fst (match lookup_idx V1 t with
                       | Raise e => (Raise e, V1)
                       | Ok i => (Ok (token_matrix ++ [i]), V1)
                       end), h')
      /\ evolves oov h v h'
           (snd (match lookup_idx V1 t with
                 | Raise e => (Raise e, V1)
                 | Ok i => (Ok (token_matrix ++ [i]), V1)
                 end))).
  { intros h1 V1 Hev. exists h1. destruct Hev as (v1 & Hrep1 & Hev).
    rewrite run_bind, (get_symbol_idx_represents h1 oov v1 V1 Hrep1).
    destruct (lookup_idx V1 t); (split; [done|exists v1; by split]). }
  destruct (addable n).
  - rewrite run_bind, (get_symbol_idx_represents h oov v V Hrep).
    destruct (lookup_idx V t) as [i|e];
      [|exists h; split; [done|by apply evolves_refl]].
    rewrite run_bind, (load_vocab_represents h oov v V Hrep).
    rewrite run_bind, (get_symbol_idx_represents h oov v V Hrep).
    pose proof Hrep as (_ & _ & _ & _ & Hunk). rewrite Hunk.
    destruct (lookup_idx V (unk V)) as [u|e'];
      [|exists h; split; [done|by apply evolves_refl]].
    destruct (i =? u)%Z.
    + destruct (evolves_add_symbol oov h v V t Hrep) as (h1 & -> & Hev).
      by apply Hlast.
    + rewrite run_ret. by apply Hlast, evolves_refl.
  - rewrite run_ret. by apply Hlast, evolves_refl.
Qed.

Lemma evolves_trans oov h v h1 V1 h2 V2 :
  evolves oov h v h1 V1 ->
  (forall v1, represents h1 oov v1 V1 -> evolves oov h1 v1 h2 V2) ->
  evolves oov h v h2 V2.
Proof.
  intros (v1 & Hrep1 & Hp1 & Hp2 & Hn1 & Hf1) Hstep.
  destruct (Hstep v1 Hrep1) as (v2 & Hrep2 & Hq1 & Hq2 & Hn2 & Hf2).
  exists v2. split; [done|]. split; [congruence|]. split; [congruence|].
  split; [congruence|].
  intros l Hl1 Hl2 Hl3. rewrite Hf2, Hf1; congruence.
Qed.

Lemma prepare_ext_vocab_loop oov nodes h v V token_matrix :
  represents h oov v V ->
  exists h',
    for_each_M (prepare_ext_vocab_node oov) nodes token_matrix h
    = (fst (visit_all nodes token_matrix V), h')
    /\ evolves oov h v h' (snd (visit_all nodes token_matrix V)).
Proof.
  revert h v V token_matrix.
  induction nodes as [|n nodes IH]; intros h v V m Hrep.
  - exists h. split; [done|by apply evolves_refl].
  - cbn [for_each_M visit_all]. rewrite run_bind.
    destruct (prepare_ext_vocab_node_visit oov h v V n m Hrep) as (h1 & -> & Hev).
    destruct (visit n m V) as [[m1|e] V1]; cbn [fst snd] in *.
    + pose proof Hev as (v1 & Hrep1 & _).
      destruct (IH h1 v1 V1 m1 Hrep1) as (h2 & -> & Hev2).
      exists h2. split; [done|].
      apply (evolves_trans _ _ _ _ _ _ _ Hev). intros v1' Hrep1'.
      assert (v1' = v1) as -> by (destruct Hrep1, Hrep1'; congruence).
      done.
    + by exists h1.
Qed.

(** [copy.deepcopy] leaves the heap as it is when its argument is not a
    vocabulary with its two dictionaries. *)
Lemma deepcopy_cases h src :
  (exists v V, represents h src v V)
  \/ (exists e, deepcopy src h = (Raise e, h)).
Proof.
  unfold deepcopy. rewrite run_bind. unfold load_vocab.
  destruct (objs h !! src) as [[v| | |]|] eqn:Hsrc; try (right; by eexists).
  rewrite run_bind. unfold load_dict_str_int.
  destruct (objs h !! symbol2idx v) as [[|d1| |]|] eqn:H1; try (right; by eexists).
  rewrite run_bind. unfold load_dict_int_str.
  destruct (objs h !! idx2symbol v) as [[| |d2|]|] eqn:H2; try (right; by eexists).
  left. exists v, {| s2i := d1; i2s := d2; size := vocab_size v; unk := unk_token v |}.
  by repeat split.
Qed.

Lemma deepcopy_represents h src v V :
  heap_wf h -> represents h src v V ->
  exists h1 v1,
    deepcopy src h = (Ok (next_loc h + 2), h1)
    /\ represents h1 (next_loc h + 2) v1 V
    /\ symbol2idx v1 = next_loc h /\ idx2symbol v1 = next_loc h + 1
    /\ next_loc h1 = next_loc h + 3
    /\ forall l, l < next_loc h -> objs h1 !! l = objs h !! l.
Proof.
  intros Hwf Hrep. pose proof Hrep as (H0 & H1 & H2 & Hsize & Hunk).
  unfold deepcopy.
  rewrite run_bind, (run_load_vocab _ _ _ H0).
  rewrite run_bind, (run_load_dict_str_int _ _ _ H1).
  rewrite run_bind, (run_load_dict_int_str _ _ _ H2).
  unfold alloc. rewrite !run_bind. cbn [next_loc objs].
  eexists _, {| symbol2idx := next_loc h; idx2symbol := S (next_loc h);
                vocab_size := vocab_size v; unk_token := unk_token v |}.
  split.
  { do 2 f_equal. lia. }
  split.
  { unfold represents. cbn [objs symbol2idx idx2symbol vocab_size unk_token].
    replace (next_loc h + 2) with (S (S (next_loc h))) by lia.
    rewrite lookup_insert_eq.
    rewrite lookup_insert_ne, lookup_insert_ne, lookup_insert_eq by lia.
    rewrite lookup_insert_ne, lookup_insert_eq by lia. done. }
  cbn [symbol2idx idx2symbol next_loc objs].
  repeat split; try lia.
  intros l Hl. by rewrite !lookup_insert_ne by lia.
Qed.

Lemma heap_wf_lt h l o : heap_wf h -> objs h !! l = Some o -> l < next_loc h.
Proof.
  intros Hwf Hl. destruct (decide (l < next_loc h)) as [|Hge]; [done|].
  rewrite Hwf in Hl by lia. done.
Qed.

(** The whole of [prepare_ext_vocab], on a source vocabulary and a graph. *)
Lemma prepare_ext_vocab_run h g src v0 V0 G :
  heap_wf h -> represents h src v0 V0 -> objs h !! g = Some (OGraph G) ->
  exists h2 v2,
    represents h2 (next_loc h + 2) v2 (snd (visit_all (node_attributes G) [] V0))
    /\ (forall l, l < next_loc h -> objs h2 !! l = objs h !! l)
    /\ prepare_ext_vocab g src h
       = match fst (visit_all (node_attributes G) [] V0) with
         | Ok ids =>
             (Ok (next_loc h + 2),
              {| objs := <[g := OGraph {| node_attributes := node_attributes G;
                                          node_features :=
                                            <[py "token_id_oov" := long_tensor ids]>
                                              (node_features G) |}]> (objs h2);
                 next_loc := next_loc h2 |})
         | Raise e => (Raise e, h2)
         end.
Proof.
  intros Hwf Hrep Hg. pose proof (heap_wf_lt _ _ _ Hwf Hg) as Hlt.
  destruct (deepcopy_represents h src v0 V0 Hwf Hrep)
    as (h1 & v1 & Hcopy & Hrep1 & Hp1 & Hp2 & Hn1 & Hf1).
  destruct (prepare_ext_vocab_loop (next_loc h + 2) (node_attributes G)
              h1 v1 V0 [] Hrep1) as (h2 & Hloop & v2 & Hrep2 & Hq1 & Hq2 & Hn2 & Hf2).
  assert (Hframe : forall l, l < next_loc h -> objs h2 !! l = objs h !! l).
  { intros l Hl. rewrite Hf2, Hf1 by lia. done. }
  exists h2, v2. split; [done|]. split; [done|].
  unfold prepare_ext_vocab. rewrite run_bind, Hcopy.
  rewrite run_bind, (run_load_graph g h1 G) by (by rewrite Hf1).
  rewrite run_bind, Hloop.
  destruct (fst (visit_all (node_attributes G) [] V0)) as [ids|e]; [|done].
  rewrite run_bind, (run_load_graph g h2 G) by (by rewrite Hframe).
  by rewrite run_bind, run_store, run_ret.
Qed.

(** Without a graph at [batch_graph], only the copy is made. *)
Lemma prepare_ext_vocab_no_graph h g src v0 V0 :
  heap_wf h -> represents h src v0 V0 ->
  (forall G, objs h !! g <> Some (OGraph G)) ->
  forall l, l < next_loc h ->
            objs (snd (prepare_ext_vocab g src h)) !! l = objs h !! l.
Proof.
  intros Hwf Hrep Hg l Hl.
  destruct (deepcopy_represents h src v0 V0 Hwf Hrep)
    as (h1 & v1 & Hcopy & Hrep1 & Hp1 & Hp2 & Hn1 & Hf1).
  unfold prepare_ext_vocab. rewrite run_bind, Hcopy, run_bind.
  assert (Hfail : load_graph g h1 = (Raise AttributeError, h1)).
  { unfold load_graph. destruct (objs h1 !! g) as [[| | |G]|] eqn:Hg1; try done.
    exfalso. destruct (decide (g < next_loc h)) as [Hlt|Hge].
    - apply (Hg G). by rewrite <- Hf1.
    - destruct Hrep1 as (H0 & H1 & H2 & _). rewrite Hp1 in H1. rewrite Hp2 in H2.
      destruct (decide (g = next_loc h)) as [->|]; [congruence|].
      destruct (decide (g = next_loc h + 1)) as [->|]; [congruence|].
      destruct (decide (g = next_loc h + 2)) as [->|]; [congruence|].
      pose proof Hcopy as Hc. unfold deepcopy in Hc.
      destruct Hrep as (R0 & R1 & R2 & _).
      rewrite run_bind, (run_load_vocab _ _ _ R0) in Hc.
      rewrite run_bind, (run_load_dict_str_int _ _ _ R1) in Hc.
      rewrite run_bind, (run_load_dict_int_str _ _ _ R2) in Hc.
      unfold alloc in Hc. rewrite !run_bind in Hc. cbn [next_loc objs] in Hc.
      injection Hc as _ <-. cbn [objs] in Hg1.
      rewrite !lookup_insert_ne, Hwf in Hg1 by lia. done. }
  rewrite Hfail. cbn [snd]. by apply Hf1.
Qed.

Lemma prepare_ext_vocab_unchanged h g src l o :
  heap_wf h -> objs h !! l = Some o ->
  l <> g \/ (forall G, o <> OGraph G) ->
  objs (snd (prepare_ext_vocab g src h)) !! l = Some o.
Proof.
  intros Hwf Hl Hcase. pose proof (heap_wf_lt _ _ _ Hwf Hl) as Hlt.
  destruct (deepcopy_cases h src) as [(v0 & V0 & Hrep)|(e & Hraise)].
  - destruct (objs h !! g) as [[| | |G]|] eqn:Hg;
      try (rewrite (prepare_ext_vocab_no_graph h g src v0 V0) by (done || congruence);
           done).
    destruct (prepare_ext_vocab_run h g src v0 V0 G Hwf Hrep Hg)
      as (h2 & v2 & _ & Hframe & ->).
    assert (Hne : l <> g).
    { destruct Hcase as [|Hno]; [done|]. intros ->. apply (Hno G). congruence. }
    destruct (fst (visit_all (node_attributes G) [] V0)); cbn [snd objs].
    + by rewrite lookup_insert_ne, Hframe by done.
    + by rewrite Hframe.
  - unfold prepare_ext_vocab. by rewrite run_bind, Hraise.
Qed.

(** C10: [prepare_ext_vocab] leaves the vocabulary it is given as it was:
    the object, its symbol-to-index dictionary and its index-to-symbol
    dictionary hold after the call what they held before, whether the call
    returns or raises.  Of the objects that exist before the call only the
    batch graph changes, and of the graph only the node feature
    'token_id_oov'; the returned dictionary is a new object. *)
Theorem prepare_ext_vocab_frame h batch_graph src_vocab :
  heap_wf h ->
  let h' := snd (prepare_ext_vocab batch_graph src_vocab h) in
  (forall v V, represents h src_vocab v V -> represents h' src_vocab v V)
  /\ (forall l o, objs h !! l = Some o -> l <> batch_graph ->
                  objs h' !! l = Some o)
  /\ (forall G, objs h !! batch_graph = Some (OGraph G) ->
        exists G', objs h' !! batch_graph = Some (OGraph G')
                   /\ node_attributes G' = node_attributes G
                   /\ forall k, k <> py "token_id_oov" ->
                                node_features G' !! k = node_features G !! k)
  /\ (forall oov_dict, fst (prepare_ext_vocab batch_graph src_vocab h) = Ok oov_dict ->
        objs h !! oov_dict = None).
Proof.
  intros Hwf h'. split; [|split; [|split]].
  - intros v V (H0 & H1 & H2 & Hsize & Hunk). unfold represents, h'.
    rewrite !(prepare_ext_vocab_unchanged h batch_graph src_vocab _ _ Hwf)
      by (done || by right).
    done.
  - intros l o Hl Hne. apply prepare_ext_vocab_unchanged; auto.
  - intros G Hg. unfold h'.
    destruct (deepcopy_cases h src_vocab) as [(v0 & V0 & Hrep)|(e & Hraise)].
    + destruct (prepare_ext_vocab_run h batch_graph src_vocab v0 V0 G Hwf Hrep Hg)
        as (h2 & v2 & _ & Hframe & ->).
      destruct (fst (visit_all (node_attributes G) [] V0)); cbn [snd objs].
      * rewrite lookup_insert_eq. eexists. split; [done|]. split; [done|].
        intros k Hk. cbn [node_features]. by rewrite lookup_insert_ne.
      * exists G. rewrite Hframe by (by eapply heap_wf_lt). done.
    + unfold prepare_ext_vocab. rewrite run_bind, Hraise. by exists G.
  - intros oov Hres.
    destruct (deepcopy_cases h src_vocab) as [(v0 & V0 & Hrep)|(e & Hraise)].
    + destruct (deepcopy_represents h src_vocab v0 V0 Hwf Hrep)
        as (h1 & v1 & Hcopy & _).
      unfold prepare_ext_vocab in Hres. rewrite run_bind, Hcopy in Hres.
      assert (Hoov : oov = next_loc h + 2).
      { repeat (rewrite run_bind in Hres;
                match type of Hres with
                | context [match ?m ?x with _ => _ end] =>
                    destruct (m x) as [[?|?] ?]; try discriminate Hres
                end).
        rewrite run_ret in Hres. cbn in Hres. congruence. }
      subst oov. apply Hwf. lia.
    + unfold prepare_ext_vocab in Hres. rewrite run_bind, Hraise in Hres.
      discriminate Hres.
Qed.

Lemma demo_heap_wf : heap_wf demo_heap.
Proof.
  intros l Hl. unfold demo_heap in *. cbn [objs next_loc] in *.
  rewrite !lookup_insert_ne by lia. apply lookup_singleton_ne. lia.
Qed.

Lemma prepare_ext_vocab_frame_witness :
  heap_wf demo_heap
  /\ forall l o, objs demo_heap !! l = Some o -> l <> 3 ->
                 objs (snd (prepare_ext_vocab 3 0 demo_heap)) !! l = Some o.
Proof.
  split; [exact demo_heap_wf|].
  exact (proj1 (proj2 (prepare_ext_vocab_frame demo_heap 3 0 demo_heap_wf))).
Defined.

(** ** The extended vocabulary *)

Lemma visit_matrix n m V :
  visit n m V
  = (match fst (visit n [] V) with
     | Ok ids => Ok (m ++ ids)
     | Raise e => Raise e
     end, snd (visit n [] V)).
Proof.
  unfold visit. destruct (token n) as [t|]; [|done].
  destruct (addable n).
  - destruct (lookup_idx V t) as [i|e]; [|done].
    destruct (lookup_idx V (unk V)) as [u|e]; [|done].
    destruct (i =? u)%Z.
    + by destruct (lookup_idx (extend V t) t).
    + by destruct (lookup_idx V t).
  - by destruct (lookup_idx V t).
Qed.

Lemma visit_all_matrix nodes m V :
  visit_all nodes m V
  = (match fst (visit_all nodes [] V) with
     | Ok ids => Ok (m ++ ids)
     | Raise e => Raise e
     end, snd (visit_all nodes [] V)).
Proof.
  revert m V. induction nodes as [|n nodes IH]; intros m V; simpl.
  - by rewrite app_nil_r.
  - rewrite (visit_matrix n m V).
    destruct (visit n [] V) as [[ids1|e] V1]; cbn [fst snd]; [|done].
    rewrite (IH (m ++ ids1) V1), (IH ids1 V1).
    destruct (fst (visit_all nodes [] V1)); cbn [fst snd]; [|done].
    by rewrite app_assoc.
Qed.

Lemma lookup_idx_known V s i : s2i V !! s = Some i -> lookup_idx V s = Ok i.
Proof. unfold lookup_idx. by intros ->. Qed.

Lemma vocab_wf_extend V t : vocab_wf V -> vocab_wf (extend V t).
Proof.
  intros (u & Hu & Hlt & Hinj). unfold extend.
  destruct (s2i V !! t) as [i|] eqn:Ht; [by exists u|].
  exists u. cbn [s2i size unk].
  assert (t <> unk V) by congruence.
  split; [by rewrite lookup_insert_ne|]. split; [lia|].
  intros s Hs. destruct (decide (s = t)) as [->|Hne].
  - rewrite lookup_insert_eq in Hs. injection Hs as Hs. lia.
  - rewrite lookup_insert_ne in Hs by done. by apply Hinj.
Qed.

Lemma extend_subseteq V t : s2i V ⊆ s2i (extend V t).
Proof.
  unfold extend. destruct (s2i V !! t) eqn:Ht; [done|].
  by apply insert_subseteq.
Qed.

Lemma extend_unk V t : unk (extend V t) = unk V.
Proof. unfold extend. by destruct (s2i V !! t). Qed.

(** One visit on a well-formed vocabulary. *)
Lemma visit_wf n m V t u :
  vocab_wf V -> s2i V !! unk V = Some u -> token n = Some t ->
  exists i V',
    visit n m V = (Ok (m ++ [i]), V')
    /\ vocab_wf V' /\ unk V' = unk V /\ s2i V ⊆ s2i V'
    /\ lookup_idx V' t = Ok i
    /\ (addable n = true -> s2i V' !! t = Some i /\ (t <> unk V -> i <> u)).
Proof.
  intros Hwf Hu Ht. pose proof Hwf as (u' & Hu' & Hlt & Hinj).
  assert (u' = u) as -> by congruence.
  unfold visit. rewrite Ht.
  assert (Hunk : lookup_idx V (unk V) = Ok u) by by apply lookup_idx_known.
  destruct (addable n); [|].
  - rewrite Hunk. unfold lookup_idx at 1. rewrite Hu.
    destruct (s2i V !! t) as [i|] eqn:Hti.
    + destruct (Z.eqb_spec i u) as [->|Hne].
      * assert (t = unk V) as -> by by apply Hinj.
        assert (extend V (unk V) = V) as -> by (unfold extend; by rewrite Hu).
        rewrite Hunk. exists u, V. split_and!; done.
      * rewrite (lookup_idx_known V t i Hti). exists i, V.
        split_and!; try done. by apply lookup_idx_known.
    + rewrite Z.eqb_refl.
      assert (Hnew : s2i (extend V t) !! t = Some (size V)).
      { unfold extend. rewrite Hti. cbn [s2i]. by rewrite lookup_insert_eq. }
      rewrite (lookup_idx_known _ _ _ Hnew). exists (size V), (extend V t).
      split; [done|]. split; [by apply vocab_wf_extend|].
      split; [apply extend_unk|]. split; [apply extend_subseteq|].
      split; [by apply lookup_idx_known|]. intros _. split; [done|].
      intros _. lia.
  - destruct (lookup_idx V t) as [i|e] eqn:Hl.
    + exists i, V. split_and!; done.
    + exfalso. unfold lookup_idx in Hl. rewrite Hu in Hl.
      by destruct (s2i V !! t).
Qed.

Lemma vocab_after_cons n nodes m V ids V1 :
  visit n m V = (Ok ids, V1) ->
  vocab_after (n :: nodes) V = vocab_after nodes V1.
Proof.
  intros Hv. unfold vocab_after. cbn [visit_all].
  rewrite visit_matrix in Hv. injection Hv as Hf Hs.
  destruct (visit n [] V) as [[ids0|e] V0]; cbn [fst snd] in *; [|done].
  subst V0. by rewrite (visit_all_matrix nodes ids0 V1).
Qed.

(** The whole loop on a well-formed vocabulary. *)
Lemma visit_all_wf nodes m V u :
  vocab_wf V -> s2i V !! unk V = Some u ->
  Forall (fun n => is_Some (token n)) nodes ->
  exists ids Vf,
    visit_all nodes m V = (Ok (m ++ ids), Vf)
    /\ length ids = length nodes
    /\ vocab_wf Vf /\ unk Vf = unk V /\ s2i V ⊆ s2i Vf
    /\ forall k n t, nodes !! k = Some n -> token n = Some t ->
         exists i, ids !! k = Some i
           /\ lookup_idx (vocab_after (take (S k) nodes) V) t = Ok i
           /\ (addable n = true ->
               s2i Vf !! t = Some i /\ (t <> unk V -> i <> u)).
Proof.
  intros Hwf Hu Hall. revert m V Hwf Hu.
  induction Hall as [|n nodes [t Ht] _ IH]; intros m V Hwf Hu.
  - exists [], V. rewrite app_nil_r. split_and!; done.
  - destruct (visit_wf n m V t u Hwf Hu Ht)
      as (i & V1 & Hv & Hwf1 & Hunk1 & Hsub1 & Hl1 & Hadd1).
    assert (Hu1 : s2i V1 !! unk V1 = Some u).
    { rewrite Hunk1. by eapply lookup_weaken. }
    destruct (IH (m ++ [i]) V1 Hwf1 Hu1)
      as (ids & Vf & Hrun & Hlen & Hwff & Hunkf & Hsubf & Hnodes).
    exists (i :: ids), Vf. cbn [visit_all]. rewrite Hv, Hrun.
    split; [by rewrite <- app_assoc|]. split; [simpl; lia|].
    split; [done|]. split; [congruence|]. split; [by etrans|].
    intros [|k] n' t' Hk Ht'; simpl in Hk.
    + injection Hk as <-. assert (t' = t) as -> by congruence.
      exists i. split; [done|]. split.
      * change (take 1 (n :: nodes)) with [n].
        rewrite (vocab_after_cons n [] m V _ V1 Hv). done.
      * intros Ha. destruct (Hadd1 Ha) as [Hin Hne].
        split; [by eapply lookup_weaken|done].
    + destruct (Hnodes k n' t' Hk Ht') as (j & Hj & Hafter & Haddj).
      exists j. split; [done|]. split.
      * change (take (S (S k)) (n :: nodes)) with (n :: take (S k) nodes).
        by rewrite (vocab_after_cons n _ m V _ V1 Hv).
      * intros Ha. destruct (Haddj Ha) as [Hin Hne].
        split; [done|]. intros Hneq. apply Hne. congruence.
Qed.

(** C7 (amended): on a source vocabulary that holds its unknown token, at
    an index below [vocab_size] that no other symbol shares, and a graph all
    of whose nodes carry a token, [prepare_ext_vocab] returns a new
    dictionary [oov_dict] and sets the node feature 'token_id_oov' to a
    tensor with one index per node, in node order.  The index of a node is
    the index of its token in the dictionary as extended up to and including
    that node.  For a node whose 'type' is absent or 0 this is also the index
    of the token in the returned [oov_dict], and it differs from the index of
    the unknown token unless the token is the unknown token itself. *)
Theorem prepare_ext_vocab_spec h batch_graph src_vocab v0 V0 G :
  heap_wf h -> represents h src_vocab v0 V0 -> vocab_wf V0 ->
  objs h !! batch_graph = Some (OGraph G) ->
  Forall (fun n => is_Some (token n)) (node_attributes G) ->
  exists oov_dict h' v' G' ids u,
    prepare_ext_vocab batch_graph src_vocab h = (Ok oov_dict, h')
    /\ objs h' !! oov_dict = Some (OVocab v')
    /\ objs h' !! batch_graph = Some (OGraph G')
    /\ node_features G' !! py "token_id_oov" = Some (long_tensor ids)
    /\ length ids = length (node_attributes G)
    /\ get_symbol_idx oov_dict (unk_token v') h' = (Ok u, h')
    /\ forall k n t, node_attributes G !! k = Some n -> token n = Some t ->
         exists i, ids !! k = Some i
           /\ lookup_idx (vocab_after (take (S k) (node_attributes G)) V0) t = Ok i
           /\ (addable n = true ->
               get_symbol_idx oov_dict t h' = (Ok i, h')
               /\ (t <> unk_token v0 -> i <> u)).
Proof.
  intros Hwf Hrep (u & Hu & Hwf0) Hg Htok.
  assert (Hwf0' : vocab_wf V0) by by exists u.
  destruct (visit_all_wf (node_attributes G) [] V0 u Hwf0' Hu Htok)
    as (ids & Vf & Hrun & Hlen & Hwff & Hunkf & Hsubf & Hnodes).
  destruct (prepare_ext_vocab_run h batch_graph src_vocab v0 V0 G Hwf Hrep Hg)
    as (h2 & v2 & Hrep2 & Hframe & Hcall).
  rewrite Hrun in Hrep2, Hcall. cbn [fst snd app] in Hrep2, Hcall.
  pose proof (heap_wf_lt _ _ _ Hwf Hg) as Hlt.
  set (h' := {| objs := <[batch_graph := _]> (objs h2); next_loc := next_loc h2 |})
    in Hcall.
  assert (Hrep' : represents h' (next_loc h + 2) v2 Vf).
  { destruct Hrep2 as (H0 & H1 & H2 & Hrest).
    assert (Hother : forall l o, objs h2 !! l = Some o ->
                                 (forall G0, o <> OGraph G0) ->
                                 objs h' !! l = Some o).
    { intros l o Hl Hno. unfold h'. cbn [objs].
      rewrite lookup_insert_ne; [done|]. intros E. subst l.
      rewrite (Hframe batch_graph Hlt), Hg in Hl.
      injection Hl as <-. by apply (Hno G). }
    split; [by apply Hother|]. split; [by apply Hother|].
    split; [by apply Hother|done]. }
  eexists (next_loc h + 2), h', v2, _, ids, u.
  split; [exact Hcall|]. split; [apply Hrep'|].
  split; [unfold h'; cbn [objs]; apply lookup_insert_eq|].
  split; [cbn [node_features]; apply lookup_insert_eq|].
  split; [done|].
  assert (Hunk2 : unk_token v2 = unk V0).
  { destruct Hrep' as (_ & _ & _ & _ & ->). done. }
  split.
  { rewrite (get_symbol_idx_represents h' _ v2 Vf Hrep'), Hunk2, <- Hunkf.
    f_equal. apply lookup_idx_known. rewrite Hunkf. by eapply lookup_weaken. }
  intros k n t Hk Ht. destruct (Hnodes k n t Hk Ht) as (i & Hi & Hafter & Hadd).
  exists i. split; [done|]. split; [done|].
  intros Ha. destruct (Hadd Ha) as [Hin Hne].
  rewrite (get_symbol_idx_represents h' _ v2 Vf Hrep').
  split; [f_equal; by apply lookup_idx_known|].
  destruct Hrep as (_ & _ & _ & _ & ->). done.
Qed.

Lemma demo_represents : represents demo_heap 0 demo_Vocab demo_vocab_state.
Proof. by repeat split. Qed.

Lemma demo_vocab_wf : vocab_wf demo_vocab_state.
Proof.
  exists 0%Z. split; [done|]. split; [done|].
  intros s Hs. cbn [s2i unk demo_vocab_state] in *.
  destruct (decide (s = py "<U>")) as [|Hn1]; [done|].
  rewrite lookup_insert_ne in Hs by done.
  destruct (decide (s = py "job")) as [->|Hn2].
  { by rewrite lookup_insert_eq in Hs. }
  rewrite lookup_insert_ne in Hs by done.
  destruct (decide (s = py "(")) as [->|Hn3].
  { by rewrite lookup_singleton_eq in Hs. }
  by rewrite lookup_singleton_ne in Hs.
Qed.

Lemma prepare_ext_vocab_spec_witness :
  exists oov_dict h' v' G' ids u,
    prepare_ext_vocab 3 0 demo_heap = (Ok oov_dict, h')
    /\ objs h' !! oov_dict = Some (OVocab v')
    /\ objs h' !! 3 = Some (OGraph G')
    /\ node_features G' !! py "token_id_oov" = Some (long_tensor ids)
    /\ length ids = length (node_attributes demo_graph)
    /\ get_symbol_idx oov_dict (unk_token v') h' = (Ok u, h')
    /\ forall k n t, node_attributes demo_graph !! k = Some n -> token n = Some t ->
         exists i, ids !! k = Some i
           /\ lookup_idx (vocab_after (take (S k) (node_attributes demo_graph))
                                      demo_vocab_state) t = Ok i
           /\ (addable n = true ->
               get_symbol_idx oov_dict t h' = (Ok i, h')
               /\ (t <> unk_token demo_Vocab -> i <> u)).
Proof.
  apply (prepare_ext_vocab_spec demo_heap 3 0 demo_Vocab demo_vocab_state demo_graph).
  - exact demo_heap_wf.
  - exact demo_represents.
  - exact demo_vocab_wf.
  - reflexivity.
  - repeat constructor; by eexists.
Defined.

(** C7 as stated fails on the graph of [demo_heap].  Its fourth node has
    type 0 and the token "<U>", which is the unknown token, so the returned
    dictionary maps it to the index of the unknown token.  Its first node
    has type 1 and the token "S"; the tensor lists the unknown index 0 for
    it, but the third node, of no type, adds "S" afterwards, and the
    returned dictionary maps "S" to 3. *)
Lemma prepare_ext_vocab_not_final_index :
  let h' := snd (prepare_ext_vocab 3 0 demo_heap) in
  fst (prepare_ext_vocab 3 0 demo_heap) = Ok 6
  /\ fst (get_symbol_idx 6 (py "<U>") h') = Ok 0%Z
  /\ (v ← load_vocab 6; get_symbol_idx 6 (unk_token v)) h' = (Ok 0%Z, h')
  /\ node_feature h' 3 (py "token_id_oov") = Some (long_tensor [0; 1; 3; 0; 4]%Z)
  /\ fst (get_symbol_idx 6 (py "S") h') = Ok 3%Z.
Proof. vm_compute. by split_and!. Qed.

(** ** The decoding loop *)

Import Decoder.

Lemma D_bind_inv {A B : Type} (m : D A) (f : A -> D B) w r :
  (m ≫= f) w = Ok r -> exists a w', m w = Ok (a, w') /\ f a w' = Ok r.
Proof.
  unfold mbind, D_bind. destruct (m w) as [[a w']|e]; [eauto|discriminate].
Qed.

Lemma lift_inv {A : Type} (r : result A) w a w' :
  lift r w = Ok (a, w') -> r = Ok a /\ w' = w.
Proof. unfold lift. destruct r; intros [=]; by subst. Qed.

Lemma D_ret_inv {A : Type} (a b : A) w w' :
  (mret a : D A) w = Ok (b, w') -> b = a /\ w' = w.
Proof. intros [=]; by subst. Qed.

Lemma result_bind_inv {A B : Type} (m : result A) (f : A -> result B) r :
  (m ≫= f) = Ok r -> exists a, m = Ok a /\ f a = Ok r.
Proof. destruct m as [a|e]; [eauto|discriminate]. Qed.

Lemma for_each_D_app {A S : Type} (body : A -> S -> D S) xs ys (s : S) w :
  for_each_D body (xs ++ ys) s w
  = (s' ← for_each_D body xs s; for_each_D body ys s') w.
Proof.
  revert s w. induction xs as [|x xs IH]; intros s w; [reflexivity|].
  cbn [for_each_D app]. unfold mbind, D_bind.
  destruct (body x s w) as [[s' w']|e]; [|done].
  rewrite IH. reflexivity.
Qed.

Lemma run_steps_S self args rr n w :
  run_steps self args rr (S n) w
  = (s ← run_steps self args rr n; step self args rr n s) w.
Proof.
  unfold run_steps. rewrite seq_S, for_each_D_app. simpl.
  unfold mbind, D_bind.
  destruct (for_each_D _ (seq 0 n) _ w) as [[s w']|e]; [|done].
  by destruct (step self args rr n s w') as [[s' w'']|e].
Qed.

(** *** Sums *)

Lemma list_sum_cons f x l : list_sum f (x :: l) = (f x + list_sum f l)%R.
Proof. done. Qed.




(** *** [scatter_add_] *)

Lemma scatter_row index src (w0 : nat) b js acc acc' :
  for_each (fun (j : nat) (acc : tensor2) =>
              let k := item index b j in
              if ((0 <=? k) && (k <? Z.of_nat w0))%Z
              then Ok (add_at acc b (Z.to_nat k) (entry src b j))
              else Raise RuntimeError) js acc = Ok acc' ->
  width acc' = width acc
  /\ forall b' v,
       entry acc' b' v
       = (entry acc b' v
          + if (b' =? b)%nat then list_sum (copied index src b v) js else 0)%R.
Proof.
  revert acc. induction js as [|j js IH]; intros acc Hrun.
  - injection Hrun as <-. split; [done|]. intros b' v.
    unfold list_sum. simpl. destruct (b' =? b)%nat; lra.
  - cbn [for_each] in Hrun. apply result_bind_inv in Hrun as (acc1 & Hstep & Hrun).
    cbn zeta in Hstep.
    destruct ((0 <=? item index b j) && (item index b j <? Z.of_nat w0))%Z eqn:Hk;
      [|discriminate].
    injection Hstep as <-. apply andb_prop in Hk as [Hk1 Hk2].
    apply Z.leb_le in Hk1.
    destruct (IH _ Hrun) as [Hw Hentry]. split; [done|].
    intros b' v. rewrite Hentry, list_sum_cons. cbn [entry add_at].
    unfold copied at 2.
    destruct (Nat.eqb_spec b' b) as [->|Hne]; cbn [andb]; [|lra].
    destruct (Nat.eqb_spec v (Z.to_nat (item index b j))) as [->|Hv].
    + rewrite bool_decide_eq_true_2 by lia. lra.
    + rewrite bool_decide_eq_false_2 by lia. lra.
Qed.

Lemma scatter_rows index src (w0 : nat) bs acc acc' :
  for_each (fun (b : nat) (acc : tensor2) =>
      for_each (fun (j : nat) (acc : tensor2) =>
                  let k := item index b j in
                  if ((0 <=? k) && (k <? Z.of_nat w0))%Z
                  then Ok (add_at acc b (Z.to_nat k) (entry src b j))
                  else Raise RuntimeError)
               (seq 0 (steps index)) acc) bs acc = Ok acc' ->
  width acc' = width acc
  /\ forall b' v,
       entry acc' b' v
       = (entry acc b' v
          + list_sum (fun b => if (b =? b')%nat
                               then list_sum (copied index src b v)
                                             (seq 0 (steps index))
                               else 0) bs)%R.
Proof.
  revert acc. induction bs as [|b bs IH]; intros acc Hrun.
  - injection Hrun as <-. split; [done|]. intros b' v. unfold list_sum. simpl. lra.
  - cbn [for_each] in Hrun. apply result_bind_inv in Hrun as (acc1 & Hrow & Hrun).
    apply scatter_row in Hrow as [Hw1 Hrow].
    destruct (IH _ Hrun) as [Hw Hentry]. split; [congruence|].
    intros b' v. rewrite Hentry, Hrow, list_sum_cons.
    rewrite (Nat.eqb_sym b b'). lra.
Qed.



(** *** One iteration *)

Lemma call_dropout_inv self x w y w' :
  call_dropout self x w = Ok (y, w') ->
  y = dropout self (dropout_calls w) x /\ random_calls w' = random_calls w.
Proof. intros [=]; by subst. Qed.

Lemma _decode_step_random self emb rnn_emb mask state enc cv w r w' :
  _decode_step self emb rnn_emb mask state enc cv w = Ok (r, w') ->
  random_calls w' = random_calls w.
Proof.
  unfold _decode_step. destruct (rnn self emb state) as [dec_out state'].
  intros H. apply D_bind_inv in H as (st & w1 & Hst & H).
  assert (Hw1 : random_calls w1 = random_calls w).
  { destruct (rnn_type self), state' as [h c|h]; try discriminate Hst.
    - apply D_bind_inv in Hst as (h' & wa & Hh & Hst).
      apply D_bind_inv in Hst as (c' & wb & Hc & Hst).
      apply call_dropout_inv in Hh as [_ Hh], Hc as [_ Hc].
      apply D_ret_inv in Hst as [_ ->]. congruence.
    - apply D_bind_inv in Hst as (h' & wa & Hh & Hst).
      apply call_dropout_inv in Hh as [_ Hh].
      apply D_ret_inv in Hst as [_ ->]. congruence. }
  apply D_bind_inv in H as (hid & w2 & Hhid & H).
  apply lift_inv in Hhid as [_ ->].
  destruct (use_attention self); [|apply D_ret_inv in H as [_ ->]; done].
  destruct (attention_type self).
  - destruct (enc_attention _ _ _ _ _). apply D_ret_inv in H as [_ ->]. done.
  - destruct (enc_attention _ _ _ _ _), (rnn_attention _ _ _ _ _).
    apply D_ret_inv in H as [_ ->]. done.
  - apply D_bind_inv in H as ([ac sc] & w3 & Hloop & H).
    apply lift_inv in Hloop as [_ ->]. apply D_ret_inv in H as [_ ->]. done.
Qed.

Lemma step_decode_inv self args s w x w1 :
  step_decode self args s w = Ok (x, w1) ->
  dec_emb x = dropout self (dropout_calls w) (tgt_emb self (decoder_input s))
  /\ coverage_for self (enc_attn_weights_average s) = Ok (coverage_vec x)
  /\ (exists wa wb dec_out,
        _decode_step self (dec_emb x) (rnn_node_embedding args)
                     (graph_node_mask args) (decoder_state s)
                     (graph_node_embedding args) (coverage_vec x) wa
        = Ok ((dec_out, new_state x, dec_attn_results x, score_results x), wb))
  /\ hidden_of self (new_state x) = Ok (hidden x)
  /\ (if use_attention self
      then exists total, reduce_add (score_results x) = Ok total
                         /\ dec_attn_scores x
                            = Some (t_div total (length (score_results x)))
      else dec_attn_scores x = None)
  /\ random_calls w1 = random_calls w.
Proof.
  unfold step_decode. intros H.
  apply D_bind_inv in H as (emb & wa & Hemb & H).
  apply call_dropout_inv in Hemb as [-> Hwa].
  apply D_bind_inv in H as (cv & wb & Hcv & H).
  apply lift_inv in Hcv as [Hcv ->].
  apply D_bind_inv in H as ([[[dec_out st] ares] sres] & wc & Hdec & H).
  pose proof (_decode_step_random _ _ _ _ _ _ _ _ _ _ Hdec) as Hwc.
  apply D_bind_inv in H as (hid & wd & Hhid & H).
  apply lift_inv in Hhid as [Hhid ->].
  apply D_bind_inv in H as ([dout scores] & we & Hatt & H).
  apply D_bind_inv in H as (oe & wf & Hoe & H).
  apply call_dropout_inv in Hoe as [-> Hwf].
  apply D_ret_inv in H as [-> ->]. cbn.
  split; [done|]. split; [done|]. split; [by eexists _, _, _|].
  split; [done|]. split.
  - destruct (use_attention self).
    + apply D_bind_inv in Hatt as (tot & w' & Hfuse & Hatt).
      apply D_bind_inv in Hatt as (total & w'' & Hred & Hatt).
      apply D_bind_inv in Hatt as (c & w''' & Hcat & Hatt).
      apply lift_inv in Hred as [Hred _].
      apply D_ret_inv in Hatt as [[= _ ->] _]. by exists total.
    + apply D_ret_inv in Hatt as [[= _ ->] _]. done.
  - assert (we = wc) as ->.
    { destruct (use_attention self).
      - apply D_bind_inv in Hatt as (tot & w' & Hfuse & Hatt).
        apply D_bind_inv in Hatt as (total & w'' & Hred & Hatt).
        apply D_bind_inv in Hatt as (c & w''' & Hcat & Hatt).
        apply lift_inv in Hfuse as [_ ->], Hred as [_ ->], Hcat as [_ ->].
        by apply D_ret_inv in Hatt as [_ ->].
      - by apply D_ret_inv in Hatt as [_ ->]. }
    congruence.
Qed.

Lemma step_inv self args rr i s w s' w' :
  step self args rr i s w = Ok (s', w') ->
  exists x w1 out input,
    step_decode self args s w = Ok (x, w1)
    /\ output_distribution self args x = Ok out
    /\ next_input args rr i out w1 = Ok (input, w')
    /\ decoder_input s' = input
    /\ outputs s' = outputs s ++ [out]
    /\ enc_attn_weights_average s'
       = match dec_attn_scores x with
         | Some scores => enc_attn_weights_average s ++ [scores]
         | None => enc_attn_weights_average s
         end
    /\ coverage_vectors s'
       = if use_attention self then coverage_vectors s ++ [coverage_vec x]
         else coverage_vectors s.
Proof.
  unfold step. intros H.
  apply D_bind_inv in H as (x & w1 & Hx & H).
  apply D_bind_inv in H as (out & w2 & Hout & H).
  apply lift_inv in Hout as [Hout ->].
  apply D_bind_inv in H as (input & w3 & Hin & H).
  apply D_ret_inv in H as [-> ->].
  by exists x, w1, out, input.
Qed.

(** *** The copy mechanism *)

Lemma big_sum_list_sum n f : big_sum n f = list_sum f (seq 0 n).
Proof. done. Qed.


(** *** Coverage *)







(** With attention, every completed iteration adds one score tensor and
    one coverage vector, and leaves the earlier ones in place. *)
Lemma run_steps_scores self args rr w0 n s w :
  use_attention self = true ->
  run_steps self args rr n w0 = Ok (s, w) ->
  length (enc_attn_weights_average s) = n
  /\ length (coverage_vectors s) = n
  /\ forall k, k < n ->
       exists sk wk xk wk' total,
         run_steps self args rr k w0 = Ok (sk, wk)
         /\ enc_attn_weights_average sk = take k (enc_attn_weights_average s)
         /\ step_decode self args sk wk = Ok (xk, wk')
         /\ reduce_add (score_results xk) = Ok total
         /\ enc_attn_weights_average s !! k
            = Some (t_div total (length (score_results xk)))
         /\ coverage_vectors s !! k = Some (coverage_vec xk).
Proof.
  intros Hatt. revert s w. induction n as [|n IH]; intros s w Hrun.
  - injection Hrun as <- <-. split; [done|]. split; [done|]. intros k Hk. lia.
  - rewrite run_steps_S in Hrun.
    apply D_bind_inv in Hrun as (sn & wn & Hn & Hstep).
    destruct (IH sn wn Hn) as (Hlen & Hlenc & Hprev).
    pose proof Hstep as Hstep'.
    apply step_inv in Hstep'
      as (x & w1 & out & input & Hx & _ & _ & _ & _ & Henc & Hcov).
    pose proof (step_decode_inv _ _ _ _ _ _ Hx) as (_ & _ & _ & _ & Hsc & _).
    rewrite Hatt in Hsc, Hcov. destruct Hsc as (total & Hred & Hdas).
    rewrite Hdas in Henc.
    split; [rewrite Henc, length_app; simpl; lia|].
    split; [rewrite Hcov, length_app; simpl; lia|].
    intros k Hk. destruct (decide (k = n)) as [->|Hne].
    + exists sn, wn, x, w1, total. split; [done|].
      split; [by rewrite Henc, <- Hlen, take_app_length|].
      split; [done|]. split; [done|]. split.
      * by rewrite Henc, <- Hlen, list_lookup_middle.
      * by rewrite Hcov, <- Hlenc, list_lookup_middle.
    + destruct (Hprev k ltac:(lia))
        as (sk & wk & xk & wk' & tk & Hk1 & Hk2 & Hk3 & Hk4 & Hk5 & Hk6).
      exists sk, wk, xk, wk', tk. split; [done|].
      split; [rewrite Henc, take_app_le by lia; done|].
      split; [done|]. split; [done|]. split.
      * rewrite Henc, lookup_app_l by lia. done.
      * rewrite Hcov, lookup_app_l by lia. done.
Qed.


(** What [_decode_step] does with the coverage vector under uniform
    attention: the attention module receives it multiplied, entry by entry,
    with the learned coverage weight. *)
Lemma _decode_step_uniform_coverage self emb rnn_emb mask state enc cv w r w' :
  use_attention self = true -> use_coverage self = true ->
  attention_type self = uniform ->
  _decode_step self emb rnn_emb mask state enc (Some cv) w = Ok (r, w') ->
  exists dec_out state' hidden,
    hidden_of self state' = Ok hidden
    /\ r = (dec_out, state',
            [fst (enc_attention self hidden (Some enc) None
                    (Some (fun b n k => entry cv b n * coverage_weight self k)%R))],
            [snd (enc_attention self hidden (Some enc) None
                    (Some (fun b n k => entry cv b n * coverage_weight self k)%R))]).
Proof.
  intros Hatt Hcov Huni. unfold _decode_step.
  destruct (rnn self emb state) as [dec_out state0].
  intros H. apply D_bind_inv in H as (st & w1 & _ & H).
  apply D_bind_inv in H as (hid & w2 & Hhid & H).
  apply lift_inv in Hhid as [Hhid ->].
  rewrite Hatt, Hcov, Huni in H.
  destruct (enc_attention _ _ _ _ _) as [a sc] eqn:Henc.
  apply D_ret_inv in H as [-> _].
  exists dec_out, st, hid. split; [done|]. by rewrite Henc.
Qed.

(** *** Teacher forcing *)

Lemma next_input_inv args rr i out w1 input w' tgt :
  tgt_seq args = Some tgt ->
  next_input args rr i out w1 = Ok (input, w') ->
  random_calls w' = S (random_calls w1)
  /\ ((rr (random_calls w1) < teacher_forcing_rate args)%R ->
      input = fun b => item tgt b i)
  /\ (~ (rr (random_calls w1) < teacher_forcing_rate args)%R ->
      argmax out = Ok input).
Proof.
  intros Htgt. unfold next_input. rewrite Htgt. intros H.
  apply D_bind_inv in H as (u & w2 & Hu & H).
  injection Hu as <- <-.
  destruct (Rlt_dec _ _) as [Hlt|Hge].
  - apply D_ret_inv in H as [-> ->]. by split_and!.
  - apply lift_inv in H as [H ->]. by split_and!.
Qed.

Lemma run_steps_random self args rr w0 n s w tgt :
  tgt_seq args = Some tgt ->
  run_steps self args rr n w0 = Ok (s, w) ->
  random_calls w = random_calls w0 + n.
Proof.
  intros Htgt. revert s w. induction n as [|n IH]; intros s w Hrun.
  - injection Hrun as _ <-. lia.
  - rewrite run_steps_S in Hrun.
    apply D_bind_inv in Hrun as (sn & wn & Hn & Hstep).
    apply step_inv in Hstep as (x & w1 & out & input & Hx & _ & Hin & _).
    pose proof (step_decode_inv _ _ _ _ _ _ Hx) as (_ & _ & _ & _ & _ & Hw1).
    apply (next_input_inv _ _ _ _ _ _ _ _ Htgt) in Hin as (Hw & _).
    rewrite Hw, Hw1, (IH _ _ Hn). lia.
Qed.

(** C4: with a target sequence, every iteration draws one number from
    [random.random()], for the whole batch.  When iterations 0 .. i have
    completed, the decoder input for step i+1 is the column tgt_seq[:, i] if
    the draw of iteration i is below [teacher_forcing_rate], and the argmax
    of the last output otherwise; as a draw lies in [0, 1), at the rate 1.0
    the input is the column tgt_seq[:, i] at every step.  The embedding of
    step i+1 is taken from that input. *)
Theorem teacher_forcing self args random_random w0 i s w tgt :
  tgt_seq args = Some tgt ->
  (forall k, (0 <= random_random k < 1)%R) ->
  run_steps self args random_random (S i) w0 = Ok (s, w) ->
  random_calls w = random_calls w0 + S i
  /\ (teacher_forcing_rate args = 1%R ->
      decoder_input s = fun b => item tgt b i)
  /\ ((random_random (random_calls w0 + i)%nat < teacher_forcing_rate args)%R ->
      decoder_input s = fun b => item tgt b i)
  /\ (~ (random_random (random_calls w0 + i)%nat < teacher_forcing_rate args)%R ->
      exists out, last (outputs s) = Some out
                  /\ argmax out = Ok (decoder_input s))
  /\ (forall x w1,
        step_decode self args s w = Ok (x, w1) ->
        dec_emb x = dropout self (dropout_calls w) (tgt_emb self (decoder_input s))).
Proof.
  intros Htgt Hrr Hrun.
  split; [by eapply run_steps_random|].
  rewrite run_steps_S in Hrun.
  apply D_bind_inv in Hrun as (sn & wn & Hn & Hstep).
  pose proof (run_steps_random _ _ _ _ _ _ _ _ Htgt Hn) as Hwn.
  apply step_inv in Hstep
    as (x & w1 & out & input & Hx & _ & Hin & Hinput & Houts & _).
  pose proof (step_decode_inv _ _ _ _ _ _ Hx) as (_ & _ & _ & _ & _ & Hw1).
  apply (next_input_inv _ _ _ _ _ _ _ _ Htgt) in Hin as (_ & Hforce & Hsample).
  rewrite Hw1, Hwn in Hforce, Hsample.
  split; [|split; [|split]].
  - intros Hrate. rewrite Hinput. apply Hforce. rewrite Hrate. apply Hrr.
  - intros Hlt. rewrite Hinput. by apply Hforce.
  - intros Hge. exists out. rewrite Houts, last_snoc, Hinput. split; [done|].
    by apply Hsample.
  - intros x' w1' Hx'. by apply step_decode_inv in Hx' as (-> & _).
Qed.

(** *** A run of the example decoder *)

Lemma for_each_total {A S : Type} (body : A -> S -> result S) (P : A -> Prop)
    xs (s : S) :
  (forall x s, P x -> exists s', body x s = Ok s') ->
  (forall x, x ∈ xs -> P x) ->
  exists s', for_each body xs s = Ok s'.
Proof.
  intros Hbody. revert s. induction xs as [|x xs IH]; intros s Hxs; [by eexists|].
  cbn [for_each]. destruct (Hbody x s (Hxs x ltac:(by left))) as (s1 & ->).
  rewrite bind_Ok. apply IH. intros y Hy. apply Hxs. by right.
Qed.

(** [scatter_add_] returns when the index tensor is no wider than the
    source and all its entries are columns of the target. *)
Lemma scatter_add_total batch self index src :
  steps index <= width src ->
  (forall b j, b < batch -> j < steps index ->
               (0 <= item index b j < Z.of_nat (width self))%Z) ->
  exists ret, scatter_add_ batch self index src = Ok ret.
Proof.
  intros Hsteps Hrange. unfold scatter_add_.
  rewrite (proj2 (Nat.leb_le _ _) Hsteps). cbn [negb].
  apply (for_each_total _ (fun b => b < batch)).
  - intros b acc Hb. apply (for_each_total _ (fun j => j < steps index)).
    + intros j acc' Hj. cbn zeta. destruct (Hrange b j Hb Hj) as [H1 H2].
      rewrite (proj2 (Z.leb_le _ _) H1), (proj2 (Z.ltb_lt _ _) H2). by eexists.
    + intros j Hj. apply elem_of_seq in Hj. lia.
  - intros b Hb. apply elem_of_seq in Hb. lia.
Qed.

Lemma step_eq self args rr i s w x w1 out input w2 :
  step_decode self args s w = Ok (x, w1) ->
  output_distribution self args x = Ok out ->
  next_input args rr i out w1 = Ok (input, w2) ->
  exists s', step self args rr i s w = Ok (s', w2)
             /\ decoder_state s' = new_state x.
Proof.
  intros Hx Hout Hin. unfold step. eexists.
  unfold mbind at 1, D_bind at 1. rewrite Hx.
  unfold mbind at 1, D_bind at 1. rewrite Hout. cbn [lift].
  unfold mbind at 1, D_bind at 1. rewrite Hin.
  split; reflexivity.
Qed.

Lemma next_input_forced args rr i out w tgt :
  tgt_seq args = Some tgt ->
  (rr (random_calls w) < teacher_forcing_rate args)%R ->
  next_input args rr i out w
  = Ok (fun b => item tgt b i,
        {| dropout_calls := dropout_calls w; random_calls := S (random_calls w) |}).
Proof.
  intros Htgt Hlt. unfold next_input. rewrite Htgt.
  unfold mbind, D_bind, call_random.
  destruct (Rlt_dec _ _); [done|contradiction].
Qed.

(** Every iteration of the example decoder completes. *)
Lemma demo_step i s w h :
  decoder_state s = gru_state h ->
  exists s' w',
    step demo_decoder demo_arguments demo_random i s w = Ok (s', w')
    /\ decoder_state s' = gru_state h.
Proof.
  intros Hs.
  assert (Hx : exists x w1,
    step_decode demo_decoder demo_arguments s w = Ok (x, w1)
    /\ new_state x = gru_state h /\ dec_attn_results x = [zeros 1]
    /\ dec_attn_scores x
       = Some (t_div {| width := 2; entry := fun _ _ => (1 / 2)%R |} 1)
    /\ width (decoder_output x) = 2).
  { unfold step_decode.
    destruct (coverage_for demo_decoder (enc_attn_weights_average s))
      as [cv|e] eqn:Hcv.
    2:{ unfold coverage_for in Hcv. cbn in Hcv.
        by destruct (enc_attn_weights_average s). }
    eexists _, _. unfold mbind, D_bind. cbn [call_dropout lift].
    unfold _decode_step. cbn [rnn demo_decoder rnn_type]. rewrite Hs.
    unfold mbind, D_bind. cbn. split; [reflexivity|]. by split_and!. }
  destruct Hx as (x & w1 & Hx & Hst & Hres & Hsc & Hw).
  assert (Hout : exists out,
    output_distribution demo_decoder demo_arguments x = Ok out).
  { unfold output_distribution. cbn [use_copy demo_decoder src_seq demo_arguments].
    rewrite Hres, Hsc. cbn [cat_last fold_left]. rewrite !bind_Ok.
    apply scatter_add_total.
    - cbn. lia.
    - intros b j Hb Hj.
      change (width (t_scale _ (softmax (decoder_output x))))
        with (width (decoder_output x)).
      rewrite Hw. cbn in *. lia. }
  destruct Hout as (out & Hout).
  assert (Hlt : (demo_random (random_calls w1)
                 < teacher_forcing_rate demo_arguments)%R).
  { cbn. unfold demo_random. lra. }
  destruct (step_eq demo_decoder demo_arguments demo_random i s w x w1 out _ _
              Hx Hout
              (next_input_forced demo_arguments demo_random i out w1 _ eq_refl Hlt))
    as (s' & Hstep & Hs').
  eexists s', _. split; [exact Hstep|]. congruence.
Qed.

Lemma demo_run n :
  exists s w,
    run_steps demo_decoder demo_arguments demo_random n demo_world = Ok (s, w)
    /\ decoder_state s = gru_state (zeros 1).
Proof.
  induction n as [|n (s & w & Hrun & Hs)].
  - eexists _, _. split; reflexivity.
  - destruct (demo_step n s w _ Hs) as (s' & w' & Hstep & Hs').
    exists s', w'. split; [|done].
    rewrite run_steps_S. unfold mbind, D_bind. by rewrite Hrun.
Qed.

Lemma demo_random_range k : (0 <= demo_random k < 1)%R.
Proof. unfold demo_random. lra. Qed.



Lemma teacher_forcing_witness :
  exists s w,
    run_steps demo_decoder demo_arguments demo_random 2 demo_world = Ok (s, w)
    /\ decoder_input s = (fun b => 1%Z).
Proof.
  destruct (demo_run 2) as (s & w & Hrun & _).
  exists s, w. split; [done|].
  exact (proj1 (proj2 (teacher_forcing demo_decoder demo_arguments demo_random
                         demo_world 1 s w _ eq_refl demo_random_range Hrun))
               eq_refl).
Defined.

(** ** Further properties of the comparison and of the accuracy *)

Lemma split_ws_nonspace c s : is_space c = false -> split_ws (c :: s) <> [].
Proof.
  intros Hc. cbn [split_ws]. rewrite Hc.
  destruct s as [|c' s']; [done|].
  destruct (is_space c'); [done|]. by destruct (split_ws (c' :: s')).
Qed.

Lemma split_ws_cons c s :
  split_ws (c :: s)
  = if is_space c then split_ws s
    else match s with
         | [] => [[c]]
         | c' :: _ =>
             if is_space c' then [c] :: split_ws s
             else match split_ws s with
                  | w :: ws => (c :: w) :: ws
                  | [] => [[c]]
                  end
         end.
Proof. done. Qed.

Lemma split_ws_app_space a c b :
  is_space c = true -> split_ws (a ++ c :: b) = split_ws a ++ split_ws b.
Proof.
  intros Hc. induction a as [|x a IH].
  - cbn [app]. by rewrite split_ws_cons, Hc.
  - change ((x :: a) ++ c :: b) with (x :: (a ++ c :: b)).
    rewrite (split_ws_cons x (a ++ c :: b)), (split_ws_cons x a), IH.
    destruct (is_space x) eqn:Hx; [done|].
    destruct a as [|y a].
    + cbn [app]. by rewrite Hc.
    + cbn [app]. destruct (is_space y) eqn:Hy; [done|].
      pose proof (split_ws_nonspace y a Hy) as Hne.
      by destruct (split_ws (y :: a)).
Qed.



Lemma replace_char_app old new a b :
  replace_char old new (a ++ b)
  = replace_char old new a ++ replace_char old new b.
Proof. unfold replace_char. apply flat_map_app. Qed.

Lemma tokens_app_space x y :
  Spec.tokens (x ++ py " " ++ y) = Spec.tokens x ++ Spec.tokens y.
Proof.
  unfold Spec.tokens. rewrite !replace_char_app.
  change (replace_char comma (py " , ") (py " ")) with [space].
  change ([space] ++ replace_char comma (py " , ") y)
    with (space :: replace_char comma (py " , ") y).
  by rewrite split_ws_app_space.
Qed.

Lemma tokens_app_comma x y :
  Spec.tokens (x ++ py "," ++ y) = Spec.tokens x ++ py "," :: Spec.tokens y.
Proof.
  unfold Spec.tokens. rewrite !replace_char_app.
  change (replace_char comma (py " , ") (py ","))
    with (space :: comma :: [space]).
  change ((space :: comma :: [space]) ++ replace_char comma (py " , ") y)
    with (space :: (comma :: space :: replace_char comma (py " , ") y)).
  rewrite split_ws_app_space by done. f_equal.
Qed.

Lemma tokens_nil : Spec.tokens [] = [].
Proof. done. Qed.

Lemma tokens_join l :
  Spec.tokens (join (py " ") l) = flat_map Spec.tokens l.
Proof.
  induction l as [|x l IH]; [done|].
  rewrite join_cons. cbn [flat_map]. destruct l as [|x' l].
  - by rewrite !app_nil_r.
  - by rewrite tokens_app_space, IH.
Qed.

Lemma tokens_render get_idx_symbol c :
  Spec.tokens (render get_idx_symbol c)
  = flat_map (fun x => Spec.tokens (get_idx_symbol x)) c.
Proof.
  unfold render. rewrite tokens_join. induction c as [|x c IH]; [done|].
  cbn [map flat_map]. by rewrite IH.
Qed.

Lemma balanced_app_r l1 l2 :
  Spec.balanced l2 = true -> Spec.balanced (l1 ++ l2) = Spec.balanced l1.
Proof.
  unfold Spec.balanced. rewrite !count_app. intros H%Nat.eqb_eq.
  destruct (count (py "(") l1 =? count (py ")") l1) eqn:E.
  - apply Nat.eqb_eq in E. apply Nat.eqb_eq. lia.
  - apply Nat.eqb_neq in E. apply Nat.eqb_neq. lia.
Qed.

Lemma balanced_app_l l1 l2 :
  Spec.balanced l1 = true -> Spec.balanced (l1 ++ l2) = Spec.balanced l2.
Proof.
  unfold Spec.balanced. rewrite !count_app. intros H%Nat.eqb_eq.
  destruct (count (py "(") l2 =? count (py ")") l2) eqn:E.
  - apply Nat.eqb_eq in E. apply Nat.eqb_eq. lia.
  - apply Nat.eqb_neq in E. apply Nat.eqb_neq. lia.
Qed.

Lemma balanced_cons_comma l :
  Spec.balanced (py "," :: l) = Spec.balanced l.
Proof. unfold Spec.balanced. by rewrite !count_cons. Qed.

Lemma split_at_ext cut cut' toks :
  (forall i, i < length toks -> cut i = cut' i) ->
  Spec.split_at cut toks = Spec.split_at cut' toks.
Proof.
  revert cut cut'. induction toks as [|t toks IH]; intros cut cut' H; [done|].
  cbn [Spec.split_at]. rewrite <- (H 0) by (cbn; lia).
  rewrite (IH (cut ∘ S) (cut' ∘ S)); [done|].
  intros i Hi. apply (H (S i)). cbn. lia.
Qed.

Lemma split_at_app cut ta t tb :
  cut (length ta) = true ->
  Spec.split_at cut (ta ++ t :: tb)
  = Spec.split_at cut ta
    ++ Spec.split_at (fun j => cut (length ta + 1 + j)) tb.
Proof.
  revert cut. induction ta as [|a ta IH]; intros cut Hcut.
  - cbn [app Spec.split_at length]. cbn in Hcut. rewrite Hcut. done.
  - change ((a :: ta) ++ t :: tb) with (a :: (ta ++ t :: tb)).
    cbn [Spec.split_at]. rewrite (IH (cut ∘ S)) by done.
    pose proof (split_at_nonempty (cut ∘ S) ta) as Hne.
    destruct (cut 0); [done|].
    by destruct (Spec.split_at (cut ∘ S) ta).
Qed.

(** Around a comma with balanced sides, the top-level commas are those of
    the two sides. *)
Lemma top_level_comma_sides ta tb i :
  Spec.balanced ta = true -> Spec.balanced tb = true ->
  Spec.top_level_comma (ta ++ py "," :: tb) i
  = if i <? length ta then Spec.top_level_comma ta i
    else if i =? length ta then true
    else Spec.top_level_comma tb (i - length ta - 1).
Proof.
  intros Ha Hb. unfold Spec.top_level_comma.
  destruct (i <? length ta) eqn:Hlt.
  - apply Nat.ltb_lt in Hlt.
    rewrite lookup_app_l by done.
    rewrite take_app_le by lia.
    rewrite drop_app_le by lia.
    rewrite balanced_app_r; [done|]. by rewrite balanced_cons_comma.
  - apply Nat.ltb_ge in Hlt. destruct (i =? length ta) eqn:Heq.
    + apply Nat.eqb_eq in Heq. subst i.
      rewrite list_lookup_middle by done.
      rewrite take_app_length, Ha.
      rewrite (cons_middle (py ",") ta tb), app_assoc.
      rewrite drop_app_length' by (rewrite length_app; cbn; lia).
      rewrite Hb. by rewrite bool_decide_eq_true_2.
    + apply Nat.eqb_neq in Heq.
      assert (Hi : i = length ta + S (i - length ta - 1)) by lia.
      set (j := i - length ta - 1) in *. clearbody j. subst i.
      rewrite lookup_app_r by lia.
      replace (length ta + S j - length ta) with (S j) by lia.
      cbn [lookup list_lookup].
      rewrite take_app_add'; [|done].
      rewrite balanced_app_l by done.
      cbn [take]. rewrite balanced_cons_comma.
      replace (S (length ta + S j)) with (length ta + S (S j)) by lia.
      rewrite drop_app_add'; [|done]. done.
Qed.

Lemma top_level_segments_sides ta tb :
  Spec.balanced ta = true -> Spec.balanced tb = true ->
  Spec.split_at (Spec.top_level_comma (ta ++ py "," :: tb)) (ta ++ py "," :: tb)
  = Spec.split_at (Spec.top_level_comma ta) ta
    ++ Spec.split_at (Spec.top_level_comma tb) tb.
Proof.
  intros Ha Hb. rewrite split_at_app.
  - f_equal; apply split_at_ext; intros i Hi;
      rewrite (top_level_comma_sides ta tb) by done.
    + apply Nat.ltb_lt in Hi. by rewrite Hi.
    + replace (length ta + 1 + i <? length ta) with false
        by (symmetry; apply Nat.ltb_ge; lia).
      replace (length ta + 1 + i =? length ta) with false
        by (symmetry; apply Nat.eqb_neq; lia).
      f_equal. lia.
  - rewrite (top_level_comma_sides ta tb) by done.
    rewrite Nat.ltb_irrefl. by rewrite Nat.eqb_refl.
Qed.

Lemma get_split_comma_tokens s :
  get_split_comma s = Ok (pieces_of_tokens (Spec.tokens s)).
Proof. apply get_split_comma_segments. Qed.

Lemma pieces_of_tokens_sides ta tb :
  Spec.balanced ta = true -> Spec.balanced tb = true ->
  pieces_of_tokens (ta ++ py "," :: tb)
  = pieces_of_tokens ta ∪ pieces_of_tokens tb.
Proof.
  intros Ha Hb. unfold pieces_of_tokens.
  rewrite top_level_segments_sides by done.
  rewrite flat_map_app. apply list_to_set_app_L.
Qed.

Lemma pieces_of_tokens_nonempty toks : pieces_of_tokens toks <> ∅.
Proof.
  unfold pieces_of_tokens.
  pose proof (split_at_nonempty (Spec.top_level_comma toks) toks) as Hne.
  destruct (Spec.split_at (Spec.top_level_comma toks) toks) as [|seg segs];
    [done|].
  cbn [flat_map]. unfold pieces at 1.
  pose proof (split_on_nonempty dollar (join (py " ") seg)) as Hne'.
  destruct (split_on dollar (join (py " ") seg)) as [|p ps]; [done|].
  cbn [map app list_to_set]. set_solver.
Qed.

(** X1: on an input without the character [$], [get_split_comma] returns
    the set of the top-level segments of the input: the runs of tokens
    between the commas that have as many ["("] as [")"] before them and
    after them, each written with single spaces. *)
Theorem get_split_comma_top_level_segments input_str :
  dollar ∉ input_str ->
  get_split_comma input_str = Ok (Spec.segment_set input_str).
Proof. apply get_split_comma_dollar_free. Qed.

Lemma get_split_comma_top_level_segments_witness :
  get_split_comma (py "f ( a , b ),c")
  = Ok (Spec.segment_set (py "f ( a , b ),c"))
  /\ Spec.segment_set (py "f ( a , b ),c") = {[ py "f ( a , b )"; py "c" ]}.
Proof.
  split.
  - apply (get_split_comma_top_level_segments (py "f ( a , b ),c")).
    intros H. by repeat (apply elem_of_cons in H as [H|H]; [done|]);
      apply elem_of_nil in H.
  - vm_compute. reflexivity.
Defined.

(** X2: a comma whose two sides are balanced in parentheses splits the
    work: the result for [x , y] is the union of the results for [x] and
    for [y], so the two sides may be swapped. *)
Theorem get_split_comma_sides x y A B :
  Spec.balanced (Spec.tokens x) = true ->
  Spec.balanced (Spec.tokens y) = true ->
  get_split_comma x = Ok A -> get_split_comma y = Ok B ->
  get_split_comma (x ++ py "," ++ y) = Ok (A ∪ B)
  /\ get_split_comma (y ++ py "," ++ x) = get_split_comma (x ++ py "," ++ y).
Proof.
  intros Hx Hy HA HB.
  rewrite get_split_comma_tokens in HA, HB. injection HA as <-. injection HB as <-.
  rewrite !get_split_comma_tokens, !tokens_app_comma.
  rewrite !pieces_of_tokens_sides by done.
  split; [done|]. f_equal. apply (comm_L (∪)).
Qed.

Lemma get_split_comma_sides_witness :
  get_split_comma (py "f ( a , b )" ++ py "," ++ py "c")
  = Ok ({[ py "f ( a , b )" ]} ∪ {[ py "c" ]})
  /\ get_split_comma (py "c" ++ py "," ++ py "f ( a , b )")
     = get_split_comma (py "f ( a , b )" ++ py "," ++ py "c").
Proof.
  apply (get_split_comma_sides (py "f ( a , b )") (py "c"));
    vm_compute; reflexivity.
Defined.

(** X3: [is_all_same] is an equivalence on index lists: it accepts a list
    against itself, does not depend on the order of its two arguments, and
    accepts [c1] against [c3] when it accepts [c1] against [c2] and [c2]
    against [c3]. *)
Theorem is_all_same_equivalence get_idx_symbol :
  (forall c, is_all_same c c get_idx_symbol = Ok true)
  /\ (forall c1 c2,
        is_all_same c1 c2 get_idx_symbol = is_all_same c2 c1 get_idx_symbol)
  /\ (forall c1 c2 c3,
        is_all_same c1 c2 get_idx_symbol = Ok true ->
        is_all_same c2 c3 get_idx_symbol = Ok true ->
        is_all_same c1 c3 get_idx_symbol = Ok true).
Proof.
  assert (Heq : forall c1 c2,
    is_all_same c1 c2 get_idx_symbol
    = Ok (bool_decide
            (pieces_of_tokens (Spec.tokens (render get_idx_symbol c1))
             = pieces_of_tokens (Spec.tokens (render get_idx_symbol c2))))).
  { intros c1 c2. rewrite is_all_same_eq, !get_split_comma_tokens.
    case_bool_decide as Hc; [|done].
    subst c2. by rewrite bool_decide_eq_true_2. }
  split; [|split].
  - intros c. rewrite Heq. by rewrite bool_decide_eq_true_2.
  - intros c1 c2. rewrite !Heq. f_equal. apply bool_decide_ext. done.
  - intros c1 c2 c3. rewrite !Heq. intros [= H12] [= H23].
    apply bool_decide_eq_true_1 in H12, H23.
    rewrite bool_decide_eq_true_2; [done|]. congruence.
Qed.

(** X4: when the form manager writes the index [k] as a comma, two index
    lists that differ by the order of the two sides of that comma are
    accepted, provided each side is rendered with as many ["("] as [")"]. *)
Theorem is_all_same_swapped_sides get_idx_symbol k a b :
  get_idx_symbol k = py "," ->
  Spec.balanced (Spec.tokens (render get_idx_symbol a)) = true ->
  Spec.balanced (Spec.tokens (render get_idx_symbol b)) = true ->
  is_all_same (a ++ [k] ++ b) (b ++ [k] ++ a) get_idx_symbol = Ok true.
Proof.
  intros Hk Ha Hb. rewrite is_all_same_eq.
  case_bool_decide as Hc; [done|].
  rewrite !get_split_comma_tokens, !bind_Ok.
  rewrite !tokens_render, !flat_map_app. cbn [flat_map]. rewrite Hk.
  change (Spec.tokens (py ",")) with [py ","]. rewrite !app_nil_r.
  rewrite <- !tokens_render. cbn [app].
  rewrite !pieces_of_tokens_sides by done.
  rewrite bool_decide_eq_true_2; [done|]. apply (comm_L (∪)).
Qed.

Lemma is_all_same_swapped_sides_witness :
  is_all_same ([4; 0; 2; 1; 5] ++ [2] ++ [1])%Z ([1] ++ [2] ++ [4; 0; 2; 1; 5])%Z
              demo_vocab = Ok true.
Proof.
  apply (is_all_same_swapped_sides demo_vocab 2%Z [4; 0; 2; 1; 5]%Z [1]%Z);
    vm_compute; reflexivity.
Defined.






Lemma filter_length_all {A} (P : A -> Prop) `{!forall x, Decision (P x)} (l : list A) :
  length (filter P l) = length l <-> Forall P l.
Proof.
  induction l as [|x l IH]; [by split|].
  rewrite filter_cons. pose proof (length_filter P l) as Hle.
  destruct (decide (P x)) as [Hx|Hx]; cbn [length].
  - rewrite Forall_cons. split; [intros [= E]; split; [done|by apply IH]|].
    intros [_ E]. f_equal. by apply IH.
  - split; [lia|]. by intros [? _]%Forall_cons.
Qed.

Lemma correct_below_le cands refs fm m : correct_below cands refs fm m <= m.
Proof.
  unfold correct_below.
  etrans; [apply length_filter|]. by rewrite length_seq.
Qed.

Lemma correct_below_all cands refs fm m :
  correct_below cands refs fm m = m
  <-> forall i, i < m -> same_at cands refs fm i = true.
Proof.
  unfold correct_below.
  pose proof (filter_length_all
                (fun i => same_at cands refs fm i = true) (seq 0 m)) as Hall.
  rewrite length_seq in Hall. rewrite Hall, Forall_forall.
  split; intros H i Hi.
  - apply H, elem_of_seq. lia.
  - apply H. apply elem_of_seq in Hi. lia.
Qed.

(** X6: [compute_accuracy] raises [ZeroDivisionError] when one of the two
    lists is empty; otherwise it returns a quotient between 0 and 1. *)
Theorem compute_accuracy_range :
  (forall candidate_list reference_list get_idx_symbol,
      candidate_list = [] \/ reference_list = [] ->
      snd (compute_accuracy candidate_list reference_list get_idx_symbol)
      = Raise ZeroDivisionError)
  /\ (forall candidate_list reference_list get_idx_symbol,
         candidate_list <> [] -> reference_list <> [] ->
         exists q,
           snd (compute_accuracy candidate_list reference_list get_idx_symbol)
           = Ok q
           /\ (0 <= q)%Q /\ (q <= 1)%Q).
Proof.
  split.
  - intros c r fm H. rewrite compute_accuracy_eq.
    by destruct H as [-> | ->]; [|rewrite Nat.min_0_r].
  - intros c r fm Hc Hr. rewrite compute_accuracy_eq.
    pose proof (correct_below_le c r fm (Nat.min (length c) (length r))) as Hle.
    destruct c as [|c0 c]; [done|]. destruct r as [|r0 r]; [done|].
    cbn [length] in *. rewrite <- Nat.succ_min_distr in *.
    set (m := Nat.min (length c) (length r)) in *.
    set (k := correct_below _ _ _ _) in *.
    eexists. split; [done|]. unfold Qle. cbn [Qnum Qden]. lia.
Qed.

(** X7: the accuracy is 1 exactly when [is_all_same] accepts every
    compared pair; in particular a non-empty list scored against itself
    gets 1 and prints nothing. *)
Theorem compute_accuracy_full_score :
  (forall candidate_list reference_list get_idx_symbol q,
      snd (compute_accuracy candidate_list reference_list get_idx_symbol) = Ok q ->
      (q == 1)%Q
      <-> forall i, i < Nat.min (length candidate_list) (length reference_list) ->
                    same_at candidate_list reference_list get_idx_symbol i = true)
  /\ (forall l get_idx_symbol,
         l <> [] ->
         exists q, compute_accuracy l l get_idx_symbol = ([], Ok q) /\ (q == 1)%Q).
Proof.
  assert (Hiff : forall c r fm q,
    snd (compute_accuracy c r fm) = Ok q ->
    (q == 1)%Q
    <-> forall i, i < Nat.min (length c) (length r) -> same_at c r fm i = true).
  { intros c r fm q. rewrite compute_accuracy_eq, <- correct_below_all.
    pose proof (correct_below_le c r fm (Nat.min (length c) (length r))) as Hle.
    set (m := Nat.min (length c) (length r)) in *.
    set (k := correct_below _ _ _ _) in *.
    destruct m as [|m]; [done|]. cbn [float_div]. intros [= <-].
    unfold Qeq. cbn [Qnum Qden]. lia. }
  split; [exact Hiff|].
  intros l fm Hl.
  destruct (compute_accuracy l l fm) as [out r] eqn:E.
  assert (Hout : out = []).
  { unfold compute_accuracy in E. rewrite Nat.eqb_refl in E. by injection E as <- _. }
  assert (Hr : r = snd (compute_accuracy l l fm)) by by rewrite E.
  rewrite compute_accuracy_eq in Hr. rewrite Nat.min_id in Hr.
  destruct l as [|x l]; [done|]. cbn [length float_div] in Hr.
  subst out. eexists. split; [by rewrite Hr|].
  apply (Hiff (x :: l) (x :: l) fm).
  - by rewrite compute_accuracy_eq, Nat.min_id.
  - intros i Hi. rewrite Nat.min_id in Hi. unfold same_at.
    destruct (lookup_lt_is_Some_2 (x :: l) i Hi) as [c ->].
    rewrite is_all_same_eq. by rewrite bool_decide_eq_true_2.
Qed.



(** X9: when no symbol of the form manager contains the character [$],
    [is_all_same] accepts two index lists exactly when they are equal or
    are rendered with the same set of top-level segments. *)
Theorem is_all_same_segments c1 c2 get_idx_symbol :
  (forall x, x ∈ c1 ++ c2 -> dollar ∉ get_idx_symbol x) ->
  is_all_same c1 c2 get_idx_symbol
  = Ok (Spec.same_up_to_commas c1 c2 get_idx_symbol).
Proof. apply is_all_same_dollar_free. Qed.

Lemma is_all_same_segments_witness :
  is_all_same [0; 2; 1]%Z [1; 2; 0]%Z demo_vocab
  = Ok (Spec.same_up_to_commas [0; 2; 1]%Z [1; 2; 0]%Z demo_vocab)
  /\ Spec.same_up_to_commas [0; 2; 1]%Z [1; 2; 0]%Z demo_vocab = true.
Proof.
  split; [|vm_compute; reflexivity].
  apply (is_all_same_segments [0; 2; 1]%Z [1; 2; 0]%Z demo_vocab).
  intros x Hx Hd.
  repeat (apply elem_of_cons in Hx as [->|Hx]);
    try (by apply elem_of_nil in Hx);
    cbn in Hd;
    by repeat (apply elem_of_cons in Hd as [Hd|Hd]; [done|]);
       apply elem_of_nil in Hd.
Defined.

(** ** Further properties of [Jobs.eval] and [Jobs.train] *)






Lemma train_S {St : Type} (model_train : St -> St) train_epoch eval n (s : St) :
  train model_train train_epoch eval (S n) s
  = (acc ← train model_train train_epoch eval n s;
     train_body model_train train_epoch eval (S n) acc).
Proof.
  unfold train. rewrite seq_S, for_each_app. cbn [Nat.add].
  destruct (for_each _ (seq 1 n) _) as [acc|e]; [|done].
  rewrite !bind_Ok. cbn [for_each].
  by destruct (train_body model_train train_epoch eval (S n) acc).
Qed.

(** X11: [Jobs.train] evaluates the model after the epochs 5, 10, 15, ...
    and after no other epoch, and returns the largest test accuracy it has
    seen, or -1 when no evaluation gave more than -1.  [st e] is the state
    of the job after epoch [e], [loss e] the loss of epoch [e] and
    [test_acc e] the accuracy measured after epoch [e]. *)
Theorem train_best_acc {St : Type} (model_train : St -> St)
    (train_epoch : nat -> St -> result (Q * St)) (eval : St -> result (Q * St))
    (max_epochs : nat) (st : nat -> St) (loss test_acc : nat -> Q) :
  (forall e, 1 <= e <= max_epochs ->
     exists s', train_epoch e (model_train (st (e - 1))) = Ok (loss e, s')
                /\ if e mod 5 =? 0 then eval s' = Ok (test_acc e, st e)
                   else st e = s') ->
  exists best_acc,
    train model_train train_epoch eval max_epochs (st 0)
    = Ok (best_acc, st max_epochs)
    /\ (-1 <= best_acc)%Q
    /\ (forall e, 1 <= e <= max_epochs -> e mod 5 = 0 ->
                  (test_acc e <= best_acc)%Q)
    /\ (best_acc = (-1)%Q
        \/ exists e, 1 <= e <= max_epochs /\ e mod 5 = 0
                     /\ best_acc = test_acc e).
Proof.
  induction max_epochs as [|n IH]; intros Hrun.
  - exists (-1)%Q. split; [done|]. split; [done|]. split; [lia|by left].
  - destruct IH as (best & Htrain & Hlow & Hmax & Hwhich).
    { intros e He. apply Hrun. lia. }
    destruct (Hrun (S n) ltac:(lia)) as (s' & Hepoch & Heval).
    replace (S n - 1) with n in Hepoch by lia.
    rewrite train_S, Htrain, bind_Ok. cbn [train_body].
    rewrite Hepoch, bind_Ok.
    destruct (S n mod 5 =? 0) eqn:Hmod.
    + apply Nat.eqb_eq in Hmod.
      assert (H2 : (2 <? S n) = true).
      { apply Nat.ltb_lt. destruct n as [|[|n]]; [done|done|lia]. }
      rewrite H2. cbn [andb]. rewrite Heval, bind_Ok.
      destruct (Qle_bool (test_acc (S n)) best) eqn:Hle; cbn [negb].
      * apply Qle_bool_iff in Hle. exists best.
        split; [done|]. split; [done|]. split.
        -- intros e He Hm. destruct (decide (e = S n)) as [->|]; [done|].
           apply Hmax; [lia|done].
        -- destruct Hwhich as [->|(e & He & Hm & ->)]; [by left|].
           right. exists e. split; [lia|done].
      * assert (Hlt : (best < test_acc (S n))%Q).
        { apply Qnot_le_lt. intros Hc. apply Qle_bool_iff in Hc. congruence. }
        exists (test_acc (S n)).
        split; [done|]. split; [|split].
        -- eapply Qle_trans; [exact Hlow|by apply Qlt_le_weak].
        -- intros e He Hm. destruct (decide (e = S n)) as [->|]; [apply Qle_refl|].
           eapply Qle_trans; [apply Hmax; [lia|done]|by apply Qlt_le_weak].
        -- right. exists (S n). split; [lia|done].
    + apply Nat.eqb_neq in Hmod. rewrite andb_false_r. subst s'.
      exists best. split; [done|]. split; [done|]. split.
      * intros e He Hm. destruct (decide (e = S n)) as [->|]; [done|].
        apply Hmax; [lia|done].
      * destruct Hwhich as [->|(e & He & Hm & ->)]; [by left|].
        right. exists e. split; [lia|done].
Qed.

Lemma train_best_acc_witness :
  exists best_acc,
    train (fun s : unit => s) (fun _ s => Ok (0%Q, s)) (fun s => Ok ((1 # 2)%Q, s))
          7 tt
    = Ok (best_acc, tt)
    /\ (-1 <= best_acc)%Q
    /\ (forall e, 1 <= e <= 7 -> e mod 5 = 0 -> ((1 # 2) <= best_acc)%Q)
    /\ (best_acc = (-1)%Q
        \/ exists e, 1 <= e <= 7 /\ e mod 5 = 0 /\ best_acc = (1 # 2)%Q).
Proof.
  apply (train_best_acc (fun s : unit => s) (fun _ s => Ok (0%Q, s))
           (fun s => Ok ((1 # 2)%Q, s)) 7 (fun _ => tt) (fun _ => 0%Q)
           (fun _ => (1 # 2)%Q)).
  intros e He. exists tt. split; [reflexivity|].
  destruct (e mod 5 =? 0); reflexivity.
Defined.

(** ** Further properties of [Jobs.prepare_ext_vocab] *)

Lemma grows_refl V : grows V V.
Proof.
  split; [done|]. split; [|done]. intros s i Hs Hn. congruence.
Qed.

Lemma grows_trans V1 V2 V3 : grows V1 V2 -> grows V2 V3 -> grows V1 V3.
Proof.
  intros (Hs1 & Hn1 & Hc1 & Hu1) (Hs2 & Hn2 & Hc2 & Hu2).
  pose proof (map_subseteq_size _ _ Hs1) as Hz1.
  pose proof (map_subseteq_size _ _ Hs2) as Hz2.
  split; [by etrans|]. split; [|split; [lia|congruence]].
  intros s i Hs Hn. destruct (s2i V2 !! s) as [j|] eqn:E.
  - pose proof (lookup_weaken _ _ _ _ E Hs2) as E'.
    assert (j = i) as -> by congruence.
    specialize (Hn1 s i E Hn). lia.
  - specialize (Hn2 s i Hs E). lia.
Qed.

Lemma grows_extend V t : grows V (extend V t).
Proof.
  unfold extend. destruct (s2i V !! t) as [j|] eqn:E; [apply grows_refl|].
  split; [by apply insert_subseteq|]. cbn [s2i i2s size unk]. split; [|split; [|done]].
  - intros s i Hs Hn. destruct (decide (s = t)) as [->|Hne].
    + rewrite lookup_insert_eq in Hs. injection Hs as <-. lia.
    + rewrite lookup_insert_ne in Hs by done. congruence.
  - rewrite map_size_insert_None by done. lia.
Qed.

Lemma visit_grows n m V : grows V (snd (visit n m V)).
Proof.
  unfold visit. destruct (token n) as [t|]; [|apply grows_refl].
  destruct (addable n).
  - destruct (lookup_idx V t) as [i|e]; [|apply grows_refl].
    destruct (lookup_idx V (unk V)) as [u|e]; [|apply grows_refl].
    destruct (i =? u)%Z.
    + destruct (lookup_idx (extend V t) t); apply grows_extend.
    + destruct (lookup_idx V t); apply grows_refl.
  - destruct (lookup_idx V t); apply grows_refl.
Qed.

Lemma visit_all_grows nodes m V : grows V (snd (visit_all nodes m V)).
Proof.
  revert m V. induction nodes as [|n nodes IH]; intros m V; [apply grows_refl|].
  cbn [visit_all]. pose proof (visit_grows n m V) as Hg.
  destruct (visit n m V) as [[m'|e] V']; cbn [snd] in *; [|done].
  eapply grows_trans; [exact Hg|apply IH].
Qed.

Lemma lookup_idx_raise V s e : lookup_idx V s = Raise e -> e = KeyError.
Proof.
  unfold lookup_idx. destruct (s2i V !! s); [done|].
  destruct (s2i V !! unk V); [done|]. by intros [= <-].
Qed.

Lemma visit_raise n m V e : fst (visit n m V) = Raise e -> e = KeyError.
Proof.
  unfold visit. destruct (token n) as [t|]; [|by intros [= <-]].
  destruct (addable n).
  - destruct (lookup_idx V t) as [i|e1] eqn:E1;
      [|intros [= <-]; by apply lookup_idx_raise in E1].
    destruct (lookup_idx V (unk V)) as [u|e2] eqn:E2;
      [|intros [= <-]; by apply lookup_idx_raise in E2].
    destruct (i =? u)%Z.
    + destruct (lookup_idx (extend V t) t) as [j|e3] eqn:E3; [done|].
      intros [= <-]. by apply lookup_idx_raise in E3.
    + rewrite E1. done.
  - destruct (lookup_idx V t) as [j|e3] eqn:E3; [done|].
    intros [= <-]. by apply lookup_idx_raise in E3.
Qed.

Lemma visit_all_missing_token nodes m V :
  (exists n, n ∈ nodes /\ token n = None) ->
  fst (visit_all nodes m V) = Raise KeyError.
Proof.
  revert m V. induction nodes as [|n0 nodes IH]; intros m V (n & Hn & Ht).
  - by apply elem_of_nil in Hn.
  - cbn [visit_all]. destruct (visit n0 m V) as [[m'|e] V'] eqn:E.
    + apply IH. apply elem_of_cons in Hn as [->|Hn]; [|by exists n].
      unfold visit in E. by rewrite Ht in E.
    + cbn [fst]. f_equal. apply (visit_raise n0 m V). by rewrite E.
Qed.

(** What a call of [prepare_ext_vocab] that visits every node leaves. *)
Lemma prepare_ext_vocab_ok h g src v0 V0 G ids Vf :
  heap_wf h -> represents h src v0 V0 -> objs h !! g = Some (OGraph G) ->
  visit_all (node_attributes G) [] V0 = (Ok ids, Vf) ->
  exists h' v',
    prepare_ext_vocab g src h = (Ok (next_loc h + 2), h')
    /\ represents h' (next_loc h + 2) v' Vf
    /\ objs h' !! g
       = Some (OGraph {| node_attributes := node_attributes G;
                         node_features :=
                           <[py "token_id_oov" := long_tensor ids]>
                             (node_features G) |}).
Proof.
  intros Hwf Hrep Hg Hrun.
  destruct (prepare_ext_vocab_run h g src v0 V0 G Hwf Hrep Hg)
    as (h2 & v2 & Hrep2 & Hframe & Hcall).
  rewrite Hrun in Hrep2, Hcall. cbn [fst snd] in Hrep2, Hcall.
  pose proof (heap_wf_lt _ _ _ Hwf Hg) as Hlt.
  eexists _, v2. split; [exact Hcall|]. cbn [objs]. split.
  - destruct Hrep2 as (H0 & H1 & H2 & Hrest).
    assert (Hother : forall l o, objs h2 !! l = Some o ->
                                 (forall G0, o <> OGraph G0) ->
                                 <[g := OGraph
                                     {| node_attributes := node_attributes G;
                                        node_features :=
                                          <[py "token_id_oov" := long_tensor ids]>
                                            (node_features G) |}]> (objs h2) !! l
                                 = Some o).
    { intros l o Hl Hno. rewrite lookup_insert_ne; [done|]. intros E. subst l.
      rewrite (Hframe g Hlt), Hg in Hl. injection Hl as <-. by apply (Hno G). }
    split; [by apply Hother|]. split; [by apply Hother|].
    split; [by apply Hother|done].
  - apply lookup_insert_eq.
Qed.

(** X12: a node without the key ['token'] makes [prepare_ext_vocab] raise
    [KeyError]; the batch graph is then as it was before the call, without
    a new ['token_id_oov']. *)
Theorem prepare_ext_vocab_missing_token h batch_graph src_vocab v0 V0 G :
  heap_wf h -> represents h src_vocab v0 V0 ->
  objs h !! batch_graph = Some (OGraph G) ->
  (exists n, n ∈ node_attributes G /\ token n = None) ->
  exists h',
    prepare_ext_vocab batch_graph src_vocab h = (Raise KeyError, h')
    /\ objs h' !! batch_graph = Some (OGraph G).
Proof.
  intros Hwf Hrep Hg Hmiss.
  destruct (prepare_ext_vocab_run h batch_graph src_vocab v0 V0 G Hwf Hrep Hg)
    as (h2 & v2 & Hrep2 & Hframe & Hcall).
  rewrite (visit_all_missing_token _ [] V0 Hmiss) in Hcall.
  exists h2. split; [done|].
  rewrite Hframe; [done|]. by eapply heap_wf_lt.
Qed.

Lemma demo_heap_gap_wf : heap_wf demo_heap_gap.
Proof.
  intros l Hl. unfold demo_heap_gap in *. cbn [objs next_loc] in *.
  rewrite !lookup_insert_ne by lia. apply lookup_singleton_ne. lia.
Qed.

Lemma prepare_ext_vocab_missing_token_witness :
  exists h',
    prepare_ext_vocab 3 0 demo_heap_gap = (Raise KeyError, h')
    /\ objs h' !! 3 = Some (OGraph demo_graph_gap).
Proof.
  apply (prepare_ext_vocab_missing_token demo_heap_gap 3 0 demo_Vocab
           demo_vocab_state demo_graph_gap).
  - exact demo_heap_gap_wf.
  - by repeat split.
  - reflexivity.
  - exists {| token := None; type := Some 0%Z |}. split; [|reflexivity].
    unfold demo_graph_gap. cbn [node_attributes].
    apply elem_of_app. right. by left.
Defined.

(** X13: the dictionary returned by [prepare_ext_vocab] extends the source
    vocabulary: every symbol of the source keeps its index, every other
    symbol of the result has an index from the old [vocab_size] up to the
    new one, and [vocab_size] has grown by the number of added symbols. *)
Theorem prepare_ext_vocab_extends h batch_graph src_vocab v0 V0 G oov_dict h' :
  heap_wf h -> represents h src_vocab v0 V0 ->
  objs h !! batch_graph = Some (OGraph G) ->
  prepare_ext_vocab batch_graph src_vocab h = (Ok oov_dict, h') ->
  exists v' V',
    represents h' oov_dict v' V'
    /\ unk_token v' = unk_token v0
    /\ (forall s i, s2i V0 !! s = Some i ->
                    get_symbol_idx oov_dict s h' = (Ok i, h'))
    /\ (forall s i, s2i V' !! s = Some i -> s2i V0 !! s = None ->
                    (vocab_size v0 <= i < vocab_size v')%Z)
    /\ (vocab_size v' + Z.of_nat (base.size (s2i V0))
        = vocab_size v0 + Z.of_nat (base.size (s2i V')))%Z.
Proof.
  intros Hwf Hrep Hg Hcall.
  pose proof (visit_all_grows (node_attributes G) [] V0) as Hgrow.
  destruct (visit_all (node_attributes G) [] V0) as [[ids|e] Vf] eqn:Hrun.
  - destruct (prepare_ext_vocab_ok h batch_graph src_vocab v0 V0 G ids Vf
                Hwf Hrep Hg Hrun) as (h1 & v' & Hcall' & Hrep' & _).
    rewrite Hcall in Hcall'. injection Hcall' as -> ->.
    cbn [snd] in Hgrow. destruct Hgrow as (Hsub & Hnew & Hcard & Hunk).
    exists v', Vf. split; [done|].
    destruct Hrep as (_ & _ & _ & Hsz0 & Hu0).
    pose proof Hrep' as (_ & _ & _ & Hsz' & Hu').
    split; [congruence|]. split; [|split].
    + intros s i Hs.
      rewrite (get_symbol_idx_represents h1 _ v' Vf Hrep').
      f_equal. apply lookup_idx_known. by eapply lookup_weaken.
    + intros s i Hs Hn. rewrite Hsz0, Hsz'. by apply (Hnew s i).
    + by rewrite Hsz0, Hsz'.
  - destruct (prepare_ext_vocab_run h batch_graph src_vocab v0 V0 G Hwf Hrep Hg)
      as (h2 & v2 & _ & _ & Hcall').
    rewrite Hrun in Hcall'. cbn [fst] in Hcall'. congruence.
Qed.

Lemma prepare_ext_vocab_extends_witness :
  exists v' V',
    represents (snd (prepare_ext_vocab 3 0 demo_heap)) 6 v' V'
    /\ unk_token v' = unk_token demo_Vocab
    /\ (forall s i, s2i demo_vocab_state !! s = Some i ->
                    get_symbol_idx 6 s (snd (prepare_ext_vocab 3 0 demo_heap))
                    = (Ok i, snd (prepare_ext_vocab 3 0 demo_heap)))
    /\ (forall s i, s2i V' !! s = Some i -> s2i demo_vocab_state !! s = None ->
                    (vocab_size demo_Vocab <= i < vocab_size v')%Z)
    /\ (vocab_size v' + Z.of_nat (base.size (s2i demo_vocab_state))
        = vocab_size demo_Vocab + Z.of_nat (base.size (s2i V')))%Z.
Proof.
  apply (prepare_ext_vocab_extends demo_heap 3 0 demo_Vocab demo_vocab_state
           demo_graph 6 (snd (prepare_ext_vocab 3 0 demo_heap))).
  - exact demo_heap_wf.
  - exact demo_represents.
  - reflexivity.
  - vm_compute. reflexivity.
Defined.

Lemma consistent_extend V t : consistent V -> consistent (extend V t).
Proof.
  intros [Hinv Hlt]. unfold extend.
  destruct (s2i V !! t) as [j|] eqn:E; [done|].
  split; cbn [s2i i2s size].
  - intros s i. destruct (decide (s = t)) as [->|Hs].
    + rewrite lookup_insert_eq. destruct (decide (i = size V)) as [->|Hi].
      * by rewrite lookup_insert_eq.
      * rewrite lookup_insert_ne by done. split; [congruence|].
        intros Hi2. apply Hinv in Hi2. congruence.
    + rewrite lookup_insert_ne by done.
      destruct (decide (i = size V)) as [->|Hi].
      * rewrite lookup_insert_eq. split; [|congruence].
        intros Hs2. apply Hlt in Hs2. lia.
      * rewrite lookup_insert_ne by done. apply Hinv.
  - intros s i. destruct (decide (s = t)) as [->|Hs].
    + rewrite lookup_insert_eq. intros [= <-]. lia.
    + rewrite lookup_insert_ne by done. intros Hs2. apply Hlt in Hs2. lia.
Qed.

Lemma visit_consistent n m V : consistent V -> consistent (snd (visit n m V)).
Proof.
  intros HV. unfold visit. destruct (token n) as [t|]; [|done].
  destruct (addable n).
  - destruct (lookup_idx V t) as [i|e]; [|done].
    destruct (lookup_idx V (unk V)) as [u|e]; [|done].
    destruct (i =? u)%Z.
    + destruct (lookup_idx (extend V t) t); by apply consistent_extend.
    + by destruct (lookup_idx V t).
  - by destruct (lookup_idx V t).
Qed.

Lemma visit_all_consistent nodes m V :
  consistent V -> consistent (snd (visit_all nodes m V)).
Proof.
  revert m V. induction nodes as [|n nodes IH]; intros m V HV; [done|].
  cbn [visit_all]. pose proof (visit_consistent n m V HV) as Hc.
  destruct (visit n m V) as [[m'|e] V']; cbn [snd] in *; [|done].
  by apply IH.
Qed.

(** X14: when the two dictionaries of the source vocabulary are inverse to
    each other, so are those of the dictionary returned by
    [prepare_ext_vocab], and for every node whose token may be added the
    index written to ['token_id_oov'] is mapped back to the node's token by
    the returned [idx2symbol]. *)
Theorem prepare_ext_vocab_round_trip h batch_graph src_vocab v0 V0 G :
  heap_wf h -> represents h src_vocab v0 V0 -> vocab_wf V0 -> consistent V0 ->
  objs h !! batch_graph = Some (OGraph G) ->
  Forall (fun n => is_Some (token n)) (node_attributes G) ->
  exists oov_dict h' v' V' ids,
    prepare_ext_vocab batch_graph src_vocab h = (Ok oov_dict, h')
    /\ represents h' oov_dict v' V'
    /\ consistent V'
    /\ node_feature h' batch_graph (py "token_id_oov") = Some (long_tensor ids)
    /\ forall k n t, node_attributes G !! k = Some n -> token n = Some t ->
                     addable n = true ->
                     exists i, ids !! k = Some i
                               /\ s2i V' !! t = Some i
                               /\ i2s V' !! i = Some t.
Proof.
  intros Hwf Hrep Hwf0 Hcons Hg Htok.
  destruct Hwf0 as (u & Hu & Hult & Huniq).
  assert (Hwf0' : vocab_wf V0) by by exists u.
  destruct (visit_all_wf (node_attributes G) [] V0 u Hwf0' Hu Htok)
    as (ids & Vf & Hrun & Hlen & Hwff & Hunkf & Hsubf & Hnodes).
  cbn [app] in Hrun.
  destruct (prepare_ext_vocab_ok h batch_graph src_vocab v0 V0 G ids Vf
              Hwf Hrep Hg Hrun) as (h' & v' & Hcall & Hrep' & Hg').
  pose proof (visit_all_consistent (node_attributes G) [] V0 Hcons) as Hc.
  rewrite Hrun in Hc. cbn [snd] in Hc.
  exists (next_loc h + 2), h', v', Vf, ids.
  split; [done|]. split; [done|]. split; [done|]. split.
  { unfold node_feature. rewrite Hg'. cbn [node_features].
    apply lookup_insert_eq. }
  intros k n t Hk Ht Ha.
  destruct (Hnodes k n t Hk Ht) as (i & Hi & _ & Hadd).
  destruct (Hadd Ha) as [Hin _].
  exists i. split; [done|]. split; [done|]. by apply Hc.
Qed.

Lemma demo_consistent : consistent demo_vocab_state.
Proof.
  split.
  - intros s i. unfold demo_vocab_state. cbn [s2i i2s]. split; intros H.
    + repeat (apply lookup_insert_Some in H as [[<- <-]|[? H]]; [done|]).
      apply lookup_singleton_Some in H as [<- <-]. done.
    + repeat (apply lookup_insert_Some in H as [[<- <-]|[? H]]; [done|]).
      apply lookup_singleton_Some in H as [<- <-]. done.
  - intros s i. unfold demo_vocab_state. cbn [s2i size]. intros H.
    repeat (apply lookup_insert_Some in H as [[<- <-]|[? H]]; [done|]).
    apply lookup_singleton_Some in H as [<- <-]. done.
Qed.

Lemma prepare_ext_vocab_round_trip_witness :
  exists oov_dict h' v' V' ids,
    prepare_ext_vocab 3 0 demo_heap = (Ok oov_dict, h')
    /\ represents h' oov_dict v' V'
    /\ consistent V'
    /\ node_feature h' 3 (py "token_id_oov") = Some (long_tensor ids)
    /\ forall k n t, node_attributes demo_graph !! k = Some n ->
                     token n = Some t -> addable n = true ->
                     exists i, ids !! k = Some i
                               /\ s2i V' !! t = Some i
                               /\ i2s V' !! i = Some t.
Proof.
  apply (prepare_ext_vocab_round_trip demo_heap 3 0 demo_Vocab demo_vocab_state
           demo_graph).
  - exact demo_heap_wf.
  - exact demo_represents.
  - exact demo_vocab_wf.
  - exact demo_consistent.
  - reflexivity.
  - unfold demo_graph. cbn [node_attributes]. by repeat constructor.
Defined.

(** ** Further properties of the decoding loop *)

Import DecoderAux.


Lemma list_sum_zero l : list_sum (fun _ => 0%R) l = 0%R.
Proof. induction l as [|x l IH]; [done|]. rewrite list_sum_cons, IH. lra. Qed.


Lemma list_sum_ext_in f g l :
  (forall j, j ∈ l -> f j = g j) -> list_sum f l = list_sum g l.
Proof.
  induction l as [|x l IH]; intros H; [done|].
  rewrite !list_sum_cons, (H x) by (by left).
  rewrite IH; [done|]. intros j Hj. apply H. by right.
Qed.

Lemma list_sum_pos f l :
  l <> [] -> (forall j, 0 < f j)%R -> (0 < list_sum f l)%R.
Proof.
  intros Hl Hf. destruct l as [|x l]; [done|]. clear Hl.
  revert x. induction l as [|y l IH]; intros x.
  - rewrite list_sum_cons. cbn. specialize (Hf x). lra.
  - rewrite list_sum_cons. specialize (IH y). specialize (Hf x). lra.
Qed.

Lemma list_sum_div f c l :
  list_sum (fun j => f j / c)%R l = (list_sum f l / c)%R.
Proof.
  induction l as [|x l IH]; [cbn; lra|].
  rewrite !list_sum_cons, IH. lra.
Qed.

(** Each row of a softmax over a non-empty last dimension sums to 1. *)
Lemma softmax_row_sum x b :
  0 < width x -> big_sum (width (softmax x)) (entry (softmax x) b) = 1%R.
Proof.
  intros Hw. cbn [softmax width entry].
  rewrite !big_sum_list_sum, list_sum_div.
  apply Rdiv_diag. apply Rgt_not_eq. apply Rlt_gt.
  apply list_sum_pos.
  - destruct (width x); [lia|done].
  - intros j. apply exp_pos.
Qed.

Lemma softmax_entry_pos x b v : 0 < width x -> (0 < entry (softmax x) b v)%R.
Proof.
  intros Hw. cbn [softmax entry]. apply Rdiv_lt_0_compat; [apply exp_pos|].
  rewrite big_sum_list_sum. apply list_sum_pos.
  - destruct (width x); [lia|done].
  - intros j. apply exp_pos.
Qed.

Lemma for_each_Ok_inv {A S : Type} (body : A -> S -> result S) xs (s s' : S) :
  for_each body xs s = Ok s' ->
  forall x, x ∈ xs -> exists s1 s2, body x s1 = Ok s2.
Proof.
  revert s. induction xs as [|y xs IH]; intros s Hrun x Hx.
  - by apply elem_of_nil in Hx.
  - cbn [for_each] in Hrun. apply result_bind_inv in Hrun as (s1 & Hy & Hrest).
    apply elem_of_cons in Hx as [->|Hx]; [by exists s, s1|].
    by apply (IH s1).
Qed.

Lemma scatter_add_inv batch self index src ret :
  scatter_add_ batch self index src = Ok ret ->
  steps index <= width src
  /\ width ret = width self
  /\ forall b j, b < batch -> j < steps index ->
                 (0 <= item index b j < Z.of_nat (width self))%Z.
Proof.
  unfold scatter_add_. destruct (steps index <=? width src) eqn:Hle; [|done].
  cbn [negb]. apply Nat.leb_le in Hle. intros Hrun. split; [done|]. split.
  - by destruct (scatter_rows index src (width self) (seq 0 batch) self ret Hrun).
  - intros b j Hb Hj.
    destruct (for_each_Ok_inv _ _ _ _ Hrun b) as (acc & acc' & Hrow).
    { apply elem_of_seq. lia. }
    destruct (for_each_Ok_inv _ _ _ _ Hrow j) as (a1 & a2 & Hcell).
    { apply elem_of_seq. lia. }
    cbn zeta in Hcell.
    destruct ((0 <=? item index b j) && (item index b j <? Z.of_nat (width self)))%Z
      eqn:Hin; [|done].
    apply andb_true_iff in Hin as [H1%Z.leb_le H2%Z.ltb_lt]. lia.
Qed.





Lemma D_bind_Ok {A B : Type} (m : D A) (f : A -> D B) w a w' :
  m w = Ok (a, w') -> (m ≫= f) w = f a w'.
Proof. intros H. unfold mbind, D_bind. by rewrite H. Qed.

Lemma D_bind_Raise {A B : Type} (m : D A) (f : A -> D B) w e :
  m w = Raise e -> (m ≫= f) w = Raise e.
Proof. intros H. unfold mbind, D_bind. by rewrite H. Qed.

Lemma run_steps_raise self args rr n m w e :
  n <= m -> run_steps self args rr n w = Raise e ->
  run_steps self args rr m w = Raise e.
Proof.
  intros Hle Hn. induction Hle as [|m Hle IH]; [done|].
  rewrite run_steps_S. by apply D_bind_Raise.
Qed.

Lemma _decode_step_no_attention self emb rnn_emb mask state enc cv w r w' :
  use_attention self = false ->
  _decode_step self emb rnn_emb mask state enc cv w = Ok (r, w') ->
  exists dec_out state', r = (dec_out, state', [], []).
Proof.
  intros Hatt. unfold _decode_step.
  destruct (rnn self emb state) as [dec_out st].
  intros H. apply D_bind_inv in H as (st' & w1 & _ & H).
  apply D_bind_inv in H as (hid & w2 & _ & H).
  rewrite Hatt in H. apply D_ret_inv in H as [-> _]. by eexists _, _.
Qed.

(** X16: a decoder built with copy but without attention never returns
    from [_run_forward_pass]: the first decoding step has no attention
    result to concatenate. *)
Theorem copy_without_attention_fails self args random_random w :
  use_copy self = true -> use_attention self = false ->
  exists e, _run_forward_pass self args random_random w = Raise e.
Proof.
  intros Hcopy Hatt.
  assert (Hstep : forall i s w0, exists e,
    step self args random_random i s w0 = Raise e).
  { intros i s w0. unfold step.
    destruct (step_decode self args s w0) as [[x w1]|e] eqn:Hx.
    2:{ exists e. by apply D_bind_Raise. }
    rewrite (D_bind_Ok _ _ _ _ _ Hx).
    destruct (step_decode_inv _ _ _ _ _ _ Hx)
      as (_ & _ & (wa & wb & dec_out & Hdec) & _).
    destruct (_decode_step_no_attention _ _ _ _ _ _ _ _ _ _ Hatt Hdec)
      as (o & st & [= _ _ Hres _]).
    assert (Hout : exists e, output_distribution self args x = Raise e).
    { unfold output_distribution. rewrite Hcopy, Hres.
      destruct (src_seq args); by eexists. }
    destruct Hout as (e & Hout). exists e.
    apply D_bind_Raise. by rewrite Hout. }
  unfold _run_forward_pass.
  destruct (target_len self args) as [|n] eqn:Hlen.
  - by exists RuntimeError.
  - destruct (Hstep 0 (initial self args) w) as (e & He). exists e.
    apply D_bind_Raise.
    apply (run_steps_raise self args random_random 1 (S n)); [lia|].
    rewrite run_steps_S. by rewrite (D_bind_Ok _ _ _ _ _ eq_refl).
Qed.

Lemma copy_without_attention_fails_witness :
  exists e,
    _run_forward_pass (demo_decoder_with false true cov_sum) demo_arguments
                      demo_random demo_world
    = Raise e.
Proof.
  apply (copy_without_attention_fails (demo_decoder_with false true cov_sum)
           demo_arguments demo_random demo_world); reflexivity.
Defined.

(** X17: with attention and coverage switched on, a coverage strategy other
    than ['sum'] and ['max'] is noticed only when the second decoding step
    asks for a coverage vector, and then as an [AttributeError] (the
    message of the intended [ValueError] reads an attribute that the
    decoder does not have). *)
Theorem unknown_coverage_strategy self args random_random w0 s w n :
  use_attention self = true -> use_coverage self = true ->
  coverage_strategy self = other_coverage ->
  run_steps self args random_random 1 w0 = Ok (s, w) ->
  step self args random_random 1 s w = Raise AttributeError
  /\ run_steps self args random_random (S (S n)) w0 = Raise AttributeError
  /\ (2 <= target_len self args ->
      _run_forward_pass self args random_random w0 = Raise AttributeError).
Proof.
  intros Hatt Hcov Hstrat Hrun.
  destruct (run_steps_scores self args random_random w0 1 s w Hatt Hrun)
    as (Hlen & _ & _).
  assert (Hstep : step self args random_random 1 s w = Raise AttributeError).
  { unfold step. apply D_bind_Raise. unfold step_decode.
    rewrite (D_bind_Ok _ _ _ _ _ eq_refl). apply D_bind_Raise.
    unfold coverage_for, coverage_function. rewrite Hcov, Hstrat.
    destruct (enc_attn_weights_average s); [done|].
    by rewrite bool_decide_eq_false_2. }
  assert (H2 : run_steps self args random_random 2 w0 = Raise AttributeError).
  { rewrite run_steps_S. by rewrite (D_bind_Ok _ _ _ _ _ Hrun). }
  split; [done|]. split.
  - apply (run_steps_raise self args random_random 2); [lia|done].
  - intros Hlen2. unfold _run_forward_pass. apply D_bind_Raise.
    by apply (run_steps_raise self args random_random 2).
Qed.

Lemma for_each_counted {A S : Type} (body : A -> S -> result S)
    (I : S -> Prop) (m1 m2 : S -> nat) xs (s : S) :
  (forall x s, I s -> exists s', body x s = Ok s' /\ I s'
                                 /\ m1 s' = Datatypes.S (m1 s)
                                 /\ m2 s' = Datatypes.S (m2 s)) ->
  I s ->
  exists s', for_each body xs s = Ok s' /\ I s'
             /\ m1 s' = m1 s + length xs /\ m2 s' = m2 s + length xs.
Proof.
  intros Hbody. revert s. induction xs as [|x xs IH]; intros s Hs.
  - exists s. cbn. split; [done|]. split; [done|]. lia.
  - cbn [for_each]. destruct (Hbody x s Hs) as (s1 & -> & Hs1 & H1 & H2).
    rewrite bind_Ok. destruct (IH s1 Hs1) as (s' & -> & Hs' & H1' & H2').
    exists s'. split; [done|]. split; [done|]. cbn [length]. lia.
Qed.

Lemma fold_left_t_add_width l x : width (fold_left t_add l x) = width x.
Proof.
  revert x. induction l as [|y l IH]; intros x; [done|].
  cbn [fold_left]. by rewrite IH.
Qed.

Section Totality.

Variables (self : StdRNNDecoder) (args : arguments) (random_random : nat -> R).

Hypothesis Hrun : runnable self args.

Lemma copy_width_cover : scores_cover self (copy_width self args).
Proof.
  pose proof Hrun as (_ & Hcopy & _). unfold copy_width.
  destruct (use_copy self).
  - destruct (Hcopy eq_refl) as (_ & src & -> & Hcover & _). done.
  - split; intros; lia.
Qed.

Lemma hidden_of_kind s :
  state_kind self s = true -> exists h, hidden_of self s = Ok h.
Proof.
  unfold state_kind, hidden_of.
  destruct (rnn_type self), s; try done; by eexists.
Qed.

Lemma _decode_step_total emb s cv w :
  state_kind self s = true ->
  exists dec_out st attn scores w',
    _decode_step self emb (rnn_node_embedding args) (graph_node_mask args) s
                 (graph_node_embedding args) cv w
    = Ok ((dec_out, st, attn, scores), w')
    /\ state_kind self st = true
    /\ length attn = attention_count self
    /\ length scores = attention_count self
    /\ forall sc0, head scores = Some sc0 ->
                   copy_width self args <= width sc0.
Proof.
  pose proof Hrun as (Hrnn & Hcopy & Hfuse & Hmask & Hvocab).
  pose proof copy_width_cover as [Hcover1 Hcover2].
  intros Hs0.
  unfold _decode_step. pose proof (Hrnn emb s Hs0) as Hk.
  destruct (rnn self emb s) as [dec_out st]. cbn [snd] in Hk.
  assert (Hst : exists st' w1,
    (match rnn_type self, st with
     | LSTM, lstm_state h c =>
         h ← call_dropout self h; c ← call_dropout self c;
         mret (lstm_state h c)
     | GRU, gru_state h => h ← call_dropout self h; mret (gru_state h)
     | _, _ => lift (Raise TypeError)
     end) w = Ok (st', w1) /\ state_kind self st' = true).
  { unfold state_kind in *.
    destruct (rnn_type self), st; try done; eexists _, _; split; reflexivity. }
  destruct Hst as (st' & w1 & Hst & Hk').
  rewrite (D_bind_Ok _ _ _ _ _ Hst).
  destruct (hidden_of_kind st' Hk') as (hid & Hhid).
  rewrite Hhid. rewrite (D_bind_Ok _ _ _ _ _ eq_refl).
  unfold attention_count.
  destruct (use_attention self) eqn:Hatt.
  2:{ eexists _, _, _, _, _. split; [reflexivity|]. by split_and!. }
  destruct (attention_type self) eqn:Hat.
  - match goal with
    | |- context [enc_attention self hid ?m None ?c] =>
        pose proof (Hcover1 hid m None c) as Hw;
        destruct (enc_attention self hid m None c) as [a sc]
    end.
    eexists _, _, _, _, _. split; [reflexivity|]. split_and!; try done.
    by intros sc0 [= <-].
  - match goal with
    | |- context [enc_attention self hid ?m None ?c] =>
        pose proof (Hcover1 hid m None c) as Hw;
        destruct (enc_attention self hid m None c) as [a sc]
    end.
    destruct (rnn_attention self hid _ None _) as [a2 sc2].
    eexists _, _, _, _, _. split; [reflexivity|]. split_and!; try done.
    by intros sc0 [= <-].
  - destruct (Hmask eq_refl eq_refl) as [[m Hm] Hn]. rewrite Hm.
    match goal with
    | |- context [lift (for_each ?body ?xs ?s0)] =>
        destruct (for_each_counted body
                    (fun p => forall sc0, head (snd p) = Some sc0 ->
                                          copy_width self args <= width sc0)
                    (fun p => length (fst p))
                    (fun p => length (snd p)) xs s0)
          as ([a sc] & Hloop & Hhead & H1 & H2)
    end.
    { intros i [ac scs] Hinv. cbn [extract_mask]. rewrite bind_Ok.
      match goal with
      | |- context [attn_modules self i hid ?e ?k ?c] =>
          pose proof (Hcover2 i hid e k c) as Hw;
          destruct (attn_modules self i hid e k c) as [a sc]
      end.
      eexists. split; [reflexivity|]. cbn [fst snd] in *.
      rewrite !length_app. split; [|cbn; lia].
      intros sc0 Hsc0. destruct scs as [|sc1 scs].
      - injection Hsc0 as <-. done.
      - apply Hinv. done. }
    { by intros sc0 [=]. }
    rewrite Hloop. rewrite (D_bind_Ok _ _ _ _ _ eq_refl).
    eexists _, _, _, _, _. split; [reflexivity|].
    cbn [fst snd length] in H1, H2, Hhead. rewrite length_seq in H1, H2.
    by split_and!.
Qed.

Lemma coverage_for_total l :
  (use_coverage self = true ->
   l = [] \/ coverage_strategy self <> other_coverage) ->
  exists cv, coverage_for self l = Ok cv.
Proof.
  intros Hcov. unfold coverage_for, coverage_function.
  destruct (use_coverage self); [|by eexists].
  destruct l as [|t l]; [by eexists|].
  rewrite bool_decide_eq_false_2 by done. cbn [negb andb].
  destruct (Hcov eq_refl) as [?|Hs]; [done|].
  destruct (coverage_strategy self); [by eexists..|done].
Qed.

Lemma fuse_total attn scores :
  use_attention self = true ->
  length attn = attention_count self -> length scores = attention_count self ->
  exists total, fuse self attn scores = Ok total.
Proof.
  pose proof Hrun as (Hrnn & Hcopy & Hfuse & Hmask & Hvocab).
  unfold attention_count, fuse. intros Hatt. rewrite Hatt. intros Ha Hs.
  destruct (attention_type self) eqn:Hat.
  - rewrite Ha, Hs. cbn. destruct attn; [done|by eexists].
  - destruct Hfuse as [?|Hf]; [done|].
    destruct attn as [|a attn]; [done|].
    destruct (fuse_strategy self); [by eexists..|done].
  - destruct Hfuse as [?|Hf]; [done|].
    destruct (Hmask Hatt eq_refl) as [_ Hn].
    destruct attn as [|a attn]; [cbn in Ha; lia|].
    destruct (fuse_strategy self); [by eexists..|done].
Qed.

Lemma attention_count_pos :
  use_attention self = true -> 0 < attention_count self.
Proof.
  pose proof Hrun as (Hrnn & Hcopy & Hfuse & Hmask & Hvocab).
  unfold attention_count. intros Hatt. rewrite Hatt.
  destruct (attention_type self) eqn:Hat; [lia|lia|].
  by destruct (Hmask Hatt eq_refl).
Qed.

Lemma step_decode_total s w :
  state_kind self (decoder_state s) = true ->
  (use_coverage self = true ->
   enc_attn_weights_average s = [] \/ coverage_strategy self <> other_coverage) ->
  exists x w1,
    step_decode self args s w = Ok (x, w1)
    /\ state_kind self (new_state x) = true
    /\ (exists e, decoder_output x = out_project self e)
    /\ (use_attention self = true ->
        dec_attn_results x <> []
        /\ exists sc, dec_attn_scores x = Some sc
                      /\ copy_width self args <= width sc).
Proof.
  pose proof Hrun as (Hrnn & Hcopy & Hfuse & Hmask & Hvocab).
  intros Hs0 Hcov. unfold step_decode.
  rewrite (D_bind_Ok _ _ _ _ _ eq_refl).
  destruct (coverage_for_total _ Hcov) as (cv & Hcv). rewrite Hcv.
  rewrite (D_bind_Ok _ _ _ _ _ eq_refl).
  match goal with
  | |- context [_decode_step self ?emb _ _ _ _ cv] =>
      destruct (_decode_step_total emb (decoder_state s) cv
                  {| dropout_calls := S (dropout_calls w);
                     random_calls := random_calls w |} Hs0)
        as (dec_out & st & attn & scores & w1 & Hdec & Hk & Ha & Hs & Hhead)
  end.
  rewrite (D_bind_Ok _ _ _ _ _ Hdec).
  destruct (hidden_of_kind st Hk) as (hid & Hhid). rewrite Hhid.
  rewrite (D_bind_Ok _ _ _ _ _ eq_refl).
  destruct (use_attention self) eqn:Hatt.
  - destruct (fuse_total attn scores Hatt Ha Hs) as (total & Htotal).
    pose proof (attention_count_pos Hatt) as Hpos.
    rewrite Htotal.
    destruct scores as [|sc scores]; [cbn in Hs; lia|].
    destruct attn as [|a attn]; [cbn in Ha; lia|].
    eexists _, _. split; [reflexivity|]. cbn.
    split; [done|]. split; [by eexists|]. intros _. split; [done|].
    eexists. split; [reflexivity|]. cbn [t_div width].
    rewrite fold_left_t_add_width. by apply Hhead.
  - eexists _, _. split; [reflexivity|]. cbn.
    split; [done|]. split; [by eexists|]. done.
Qed.

Lemma output_distribution_total x :
  (exists e, decoder_output x = out_project self e) ->
  (use_attention self = true ->
   dec_attn_results x <> []
   /\ exists sc, dec_attn_scores x = Some sc
                 /\ copy_width self args <= width sc) ->
  exists out,
    output_distribution self args x = Ok out
    /\ width out = width (decoder_output x)
    /\ (use_copy self = false -> out = softmax (decoder_output x)).
Proof.
  pose proof Hrun as (Hrnn & Hcopy & Hfuse & Hmask & Hvocab).
  intros (e & He) Hatt. unfold output_distribution, copy_width in *.
  destruct (use_copy self); [|by eexists].
  destruct (Hcopy eq_refl) as (Ha & src & Hsrc & _ & Hrange).
  destruct (Hatt Ha) as (Hres & sc & Hsc & Hw).
  rewrite Hsrc in *. rewrite Hsc.
  destruct (dec_attn_results x) as [|a attn]; [done|].
  cbn [cat_last]. rewrite !bind_Ok.
  match goal with
  | |- context [scatter_add_ ?b ?ret ?src ?y] =>
      destruct (scatter_add_total b ret src y) as (out & Hout)
  end.
  { done. }
  { intros b j Hb Hj. cbn [t_scale width softmax]. rewrite He. by apply Hrange. }
  exists out. split; [done|]. split; [|done].
  by destruct (scatter_add_inv _ _ _ _ _ Hout) as (_ & -> & _).
Qed.

Lemma next_input_total i out w :
  0 < width out ->
  exists input w', next_input args random_random i out w = Ok (input, w').
Proof.
  intros Hw. unfold next_input, argmax.
  destruct (width out) as [|n] eqn:E; [lia|].
  destruct (tgt_seq args) as [tgt|]; [|by eexists _, _].
  rewrite (D_bind_Ok _ _ _ _ _ eq_refl).
  destruct (Rlt_dec _ _); by eexists _, _.
Qed.

Lemma step_total i s w :
  state_kind self (decoder_state s) = true ->
  (use_coverage self = true ->
   enc_attn_weights_average s = [] \/ coverage_strategy self <> other_coverage) ->
  exists s' w' x out,
    step self args random_random i s w = Ok (s', w')
    /\ state_kind self (decoder_state s') = true
    /\ outputs s' = outputs s ++ [out]
    /\ 0 < width out
    /\ (use_copy self = false -> out = softmax (decoder_output x))
    /\ length (enc_attn_weights_average s')
       = length (enc_attn_weights_average s)
         + (if use_attention self then 1 else 0)
    /\ length (coverage_vectors s')
       = length (coverage_vectors s) + (if use_attention self then 1 else 0).
Proof.
  pose proof Hrun as (Hrnn & Hcopy & Hfuse & Hmask & Hvocab).
  intros Hs0 Hcov.
  destruct (step_decode_total s w Hs0 Hcov)
    as (x & w1 & Hx & Hk & Hproj & Hatt).
  destruct (output_distribution_total x Hproj Hatt)
    as (out & Hout & Hwidth & Hsoft).
  assert (Hw : 0 < width out).
  { rewrite Hwidth. destruct Hproj as (e & ->). apply Hvocab. }
  destruct (next_input_total i out w1 Hw) as (input & w2 & Hin).
  destruct (step_eq self args random_random i s w x w1 _ input w2 Hx Hout Hin)
    as (s' & Hstep & Hs').
  exists s', w2, x, out. split; [done|]. split; [congruence|].
  destruct (step_inv _ _ _ _ _ _ _ _ Hstep)
    as (x' & w1' & out' & input' & Hx' & Hout' & _ & _ & Houts & Havg & Hcovs).
  rewrite Hx in Hx'. injection Hx' as <- <-.
  rewrite Hout in Hout'. injection Hout' as <-.
  split; [done|]. split; [done|]. split; [done|].
  destruct (step_decode_inv _ _ _ _ _ _ Hx) as (_ & _ & _ & _ & Hsc & _).
  rewrite Havg, Hcovs. destruct (use_attention self).
  - destruct Hsc as (total & _ & ->). rewrite !length_app. cbn. lia.
  - rewrite Hsc. lia.
Qed.

Hypothesis Hcov :
  use_coverage self = true -> coverage_strategy self <> other_coverage.

Lemma initial_kind : state_kind self (decoder_state (initial self args)) = true.
Proof.
  unfold initial, state_kind, _get_decoder_init_state. cbn [decoder_state].
  destruct (rnn_type self), (graph_level_embedding args); done.
Qed.

Lemma run_steps_total n w :
  exists s w',
    run_steps self args random_random n w = Ok (s, w')
    /\ state_kind self (decoder_state s) = true
    /\ length (outputs s) = n
    /\ length (enc_attn_weights_average s) = (if use_attention self then n else 0)
    /\ length (coverage_vectors s) = (if use_attention self then n else 0)
    /\ forall out, out ∈ outputs s ->
         0 < width out
         /\ (use_copy self = false ->
             forall b, big_sum (width out) (entry out b) = 1%R
                       /\ forall v, (0 < entry out b v)%R).
Proof.
  induction n as [|n (s & w' & Hsteps & Hkind & Hlen & Havg & Hcovs & Hdist)].
  - eexists _, _. split; [reflexivity|]. split; [apply initial_kind|]. cbn.
    split; [done|]. split; [by destruct (use_attention self)|].
    split; [by destruct (use_attention self)|].
    intros out Hout. by apply elem_of_nil in Hout.
  - destruct (step_total n s w' Hkind)
      as (s' & w2 & x & out0 & Hstep & Hkind' & Houts & Hw & Hsoft & Ha & Hc).
    { intros Hc. right. by apply Hcov. }
    exists s', w2. rewrite run_steps_S, (D_bind_Ok _ _ _ _ _ Hsteps).
    split; [done|]. split; [done|].
    rewrite Houts, length_app, Ha, Hc, Hlen, Havg, Hcovs.
    split; [cbn; lia|]. split; [destruct (use_attention self); lia|].
    split; [destruct (use_attention self); lia|].
    intros out Hout. apply elem_of_app in Hout as [Hout|Hout]; [by apply Hdist|].
    apply list_elem_of_singleton in Hout as ->.
    split; [done|]. intros Hcopy b. rewrite (Hsoft Hcopy) in *.
    split.
    + by apply softmax_row_sum.
    + intros v. by apply softmax_entry_pos.
Qed.

End Totality.


Lemma demo_runnable attention strategy args :
  runnable (demo_decoder_with attention false strategy) args.
Proof.
  split; [by intros x s Hs|]. split; [by intros [=]|]. split; [by left|].
  split; [by intros _ [=]|]. intros x. cbn. lia.
Qed.



Lemma unknown_coverage_strategy_witness :
  exists s w,
    run_steps (demo_decoder_with true false other_coverage) demo_arguments
              demo_random 1 demo_world = Ok (s, w)
    /\ step (demo_decoder_with true false other_coverage) demo_arguments
            demo_random 1 s w = Raise AttributeError
    /\ _run_forward_pass (demo_decoder_with true false other_coverage)
                         demo_arguments demo_random demo_world
       = Raise AttributeError.
Proof.
  destruct (step_total (demo_decoder_with true false other_coverage)
              demo_arguments demo_random
              (demo_runnable true other_coverage demo_arguments) 0
              (initial (demo_decoder_with true false other_coverage)
                       demo_arguments)
              demo_world eq_refl (fun _ => or_introl eq_refl))
    as (s & w & x & out & Hstep & _).
  assert (Hrun : run_steps (demo_decoder_with true false other_coverage)
                   demo_arguments demo_random 1 demo_world = Ok (s, w)).
  { rewrite run_steps_S. by rewrite (D_bind_Ok _ _ _ _ _ eq_refl). }
  exists s, w. split; [exact Hrun|].
  destruct (unknown_coverage_strategy
              (demo_decoder_with true false other_coverage) demo_arguments
              demo_random demo_world s w 0 eq_refl eq_refl eq_refl Hrun)
    as (H1 & _ & H3).
  split; [exact H1|]. apply H3. cbn. lia.
Defined.

Lemma next_input_free args rr i out w input w' :
  tgt_seq args = None ->
  next_input args rr i out w = Ok (input, w') ->
  w' = w /\ argmax out = Ok input.
Proof.
  intros Htgt. unfold next_input. rewrite Htgt. intros H.
  apply lift_inv in H as [H ->]. done.
Qed.

(** X19: without a target sequence the decoder decodes greedily: the loop
    runs for [max_decoder_step] steps, never asks for a random number, and
    the input of every step after the first is the argmax of the output of
    the step before. *)
Theorem greedy_decoding self args random_random w0 n s w :
  tgt_seq args = None ->
  run_steps self args random_random n w0 = Ok (s, w) ->
  target_len self args = max_decoder_step self
  /\ random_calls w = random_calls w0
  /\ (0 < n -> exists out, last (outputs s) = Some out
                           /\ argmax out = Ok (decoder_input s)).
Proof.
  intros Htgt Hrun. split; [by unfold target_len; rewrite Htgt|].
  revert s w Hrun. induction n as [|n IH]; intros s w Hrun.
  - cbn in Hrun. injection Hrun as <- <-. split; [done|lia].
  - rewrite run_steps_S in Hrun.
    apply D_bind_inv in Hrun as (s0 & w1 & Hrun & Hstep).
    destruct (IH s0 w1 Hrun) as [Hcalls _].
    destruct (step_inv _ _ _ _ _ _ _ _ Hstep)
      as (x & w2 & out & input & Hx & Hout & Hin & Hinput & Houts & _).
    destruct (step_decode_inv _ _ _ _ _ _ Hx) as (_ & _ & _ & _ & _ & Hr).
    destruct (next_input_free _ _ _ _ _ _ _ Htgt Hin) as [-> Hmax].
    split; [congruence|]. intros _. exists out.
    rewrite Houts, last_snoc. split; [done|]. by rewrite Hinput.
Qed.

Lemma greedy_decoding_witness :
  exists s w,
    run_steps (demo_decoder_with true false cov_sum) demo_arguments_free
              demo_random 2 demo_world = Ok (s, w)
    /\ random_calls w = random_calls demo_world
    /\ exists out, last (outputs s) = Some out
                   /\ argmax out = Ok (decoder_input s).
Proof.
  destruct (run_steps_total (demo_decoder_with true false cov_sum)
              demo_arguments_free demo_random
              (demo_runnable true cov_sum demo_arguments_free) (fun _ => ltac:(done)) 2 demo_world)
    as (s & w & Hrun & _).
  exists s, w. split; [exact Hrun|].
  destruct (greedy_decoding (demo_decoder_with true false cov_sum)
              demo_arguments_free demo_random demo_world 2 s w eq_refl Hrun)
    as (_ & Hcalls & Hlast).
  split; [exact Hcalls|]. apply Hlast. lia.
Defined.

(** ** From the graphs of a batch to the arguments of the loop *)

Import Batch.

Lemma collect_cases {A : Type} (f : graph -> option A) gl (acc : list A) :
  (exists xs, Forall2 (fun g x => f g = Some x) gl xs
              /\ for_each (fun (s_g : graph) (l : list A) =>
                             x ← feature (f s_g); Ok (l ++ [x])) gl acc
                 = Ok (acc ++ xs))
  \/ ((exists g, g ∈ gl /\ f g = None)
      /\ for_each (fun (s_g : graph) (l : list A) =>
                     x ← feature (f s_g); Ok (l ++ [x])) gl acc
         = Raise KeyError).
Proof.
  revert acc. induction gl as [|g gl IH]; intros acc.
  - left. exists []. split; [constructor|]. by rewrite app_nil_r.
  - cbn [for_each]. destruct (f g) as [x|] eqn:Hg.
    + cbn [feature]. rewrite !bind_Ok.
      destruct (IH (acc ++ [x])) as [(xs & Hxs & Hrun)|((g' & Hin & Hnone) & Hrun)].
      * left. exists (x :: xs). split; [by constructor|].
        rewrite Hrun. by rewrite <- app_assoc.
      * right. split; [|done]. exists g'. split; [by right|done].
    + right. split; [|done]. exists g. split; [by left|done].
Qed.

Lemma py_max_spec l m :
  py_max l = Ok m -> (forall y, y ∈ l -> y <= m) /\ m ∈ l.
Proof.
  destruct l as [|x l]; [done|]. cbn [py_max]. intros [= <-].
  revert x. induction l as [|z l IH]; intros x.
  - cbn. split; [|by left]. intros y Hy.
    apply list_elem_of_singleton in Hy as ->. done.
  - cbn [fold_left]. destruct (IH (Nat.max x z)) as [Hle Hin]. split.
    + intros y Hy. apply elem_of_cons in Hy as [->|Hy].
      * etrans; [|apply Hle; by left]. lia.
      * apply elem_of_cons in Hy as [->|Hy].
        -- etrans; [|apply Hle; by left]. lia.
        -- apply Hle. by right.
    + apply elem_of_cons in Hin as [Hin|Hin].
      * rewrite Hin. destruct (Nat.max_spec x z) as [[_ ->]|[_ ->]].
        -- right. by left.
        -- by left.
      * right. by right.
Qed.

Lemma pad_tensor_rows x n :
  rows x < n ->
  pad_tensor x 0 (Z.of_nat n - Z.of_nat (rows x)) = Ok (pad_rows x n).
Proof.
  intros Hlt. unfold pad_tensor. cbn [Z.leb Z.eqb andb negb].
  by replace (0 <=? Z.of_nat n - Z.of_nat (rows x))%Z with true
    by (symmetry; apply Z.leb_le; lia).
Qed.

Lemma pad_all_from embs n acc :
  for_each (fun (emb : matrix) (ret : list matrix) =>
              emb ← (if (rows emb <? n)%nat
                     then pad_tensor emb 0 (Z.of_nat n - Z.of_nat (rows emb))
                     else Ok emb);
              Ok (ret ++ [emb]))
           embs acc
  = Ok (acc ++ map (fun e => if rows e <? n then pad_rows e n else e) embs).
Proof.
  revert acc. induction embs as [|e embs IH]; intros acc.
  - cbn. by rewrite app_nil_r.
  - cbn [for_each map]. destruct (rows e <? n) eqn:Hlt.
    + apply Nat.ltb_lt in Hlt. rewrite (pad_tensor_rows e n Hlt) at 1.
      rewrite !bind_Ok, IH. by rewrite <- app_assoc.
    + rewrite !bind_Ok, IH. by rewrite <- app_assoc.
Qed.

Lemma pad_all_spec embs n :
  pad_all embs n
  = Ok (map (fun e => if rows e <? n then pad_rows e n else e) embs).
Proof. unfold pad_all. by rewrite pad_all_from. Qed.

Lemma stack_inv l t :
  stack l = Ok t ->
  dim0 t = length l
  /\ (forall y, y ∈ l -> rows y = dim1 t /\ cols y = dim2 t)
  /\ (exists x, x ∈ l /\ rows x = dim1 t)
  /\ forall b n k, val t b n k = match l !! b with
                                 | Some y => cell y n k
                                 | None => 0%R
                                 end.
Proof.
  destruct l as [|x l]; [done|]. cbn [stack].
  destruct (forallb _ (x :: l)) eqn:Hall; [|done]. intros [= <-].
  cbn [dim0 dim1 dim2 val]. split; [done|]. split; [|split; [|done]].
  - intros y Hy. rewrite forallb_forall in Hall.
    apply list_elem_of_In in Hy. specialize (Hall y Hy).
    apply andb_true_iff in Hall as [H1%Nat.eqb_eq H2%Nat.eqb_eq]. done.
  - exists x. split; [by left|done].
Qed.

(** The entries of the mask after the inner loop over the nodes [js]. *)
Lemma mask_graph_from i s_g js mask mask' :
  for_each (fun (j : nat) (graph_node_mask : tensor2) =>
              attr ← getitem (node_attrs s_g) j;
              match type attr with
              | Some node_type =>
                  if (j <? width graph_node_mask)%nat
                  then Ok (set_at graph_node_mask i j (IZR node_type))
                  else Raise IndexError
              | None => Ok graph_node_mask
              end)
           js mask = Ok mask' ->
  NoDup js ->
  width mask' = width mask
  /\ forall b j,
       entry mask' b j
       = if bool_decide (b = i /\ j ∈ js)
         then match node_attrs s_g !! j ≫= type with
              | Some t => IZR t
              | None => entry mask b j
              end
         else entry mask b j.
Proof.
  revert mask. induction js as [|j0 js IH]; intros mask Hrun Hnd.
  - cbn in Hrun. injection Hrun as <-. split; [done|]. intros b j.
    rewrite bool_decide_eq_false_2; [done|]. intros [_ H]. by apply elem_of_nil in H.
  - cbn [for_each] in Hrun. apply result_bind_inv in Hrun as (mask1 & Hstep & Hrun).
    apply NoDup_cons in Hnd as [Hnotin Hnd].
    destruct (IH mask1 Hrun Hnd) as [Hw Hent].
    apply result_bind_inv in Hstep as (attr & Hattr & Hstep).
    unfold getitem in Hattr.
    destruct (node_attrs s_g !! j0) as [attr'|] eqn:Hj0; [|done].
    injection Hattr as ->.
    assert (Hmask1 : width mask1 = width mask
                     /\ forall b j, entry mask1 b j
                          = if bool_decide (b = i /\ j = j0)
                            then match type attr with
                                 | Some t => IZR t
                                 | None => entry mask b j
                                 end
                            else entry mask b j).
    { destruct (type attr) as [t|].
      - destruct (j0 <? width mask); [|done]. injection Hstep as <-.
        split; [done|]. intros b j. cbn [set_at entry].
        destruct (decide (b = i)) as [->|Hb], (decide (j = j0)) as [->|Hj].
        + by rewrite !Nat.eqb_refl, bool_decide_eq_true_2.
        + rewrite Nat.eqb_refl. cbn [andb].
          replace (j =? j0) with false by (symmetry; by apply Nat.eqb_neq).
          rewrite bool_decide_eq_false_2; [done|]. by intros [_ ?].
        + replace (b =? i) with false by (symmetry; by apply Nat.eqb_neq).
          rewrite bool_decide_eq_false_2; [done|]. by intros [? _].
        + replace (b =? i) with false by (symmetry; by apply Nat.eqb_neq).
          rewrite bool_decide_eq_false_2; [done|]. by intros [? _].
      - injection Hstep as <-. split; [done|]. intros b j.
        by case_bool_decide. }
    destruct Hmask1 as [Hw1 Hent1]. split; [congruence|].
    intros b j. rewrite Hent, Hent1.
    destruct (decide (b = i)) as [->|Hb].
    + destruct (decide (j = j0)) as [->|Hj].
      * rewrite (bool_decide_eq_false_2 (i = i /\ j0 ∈ js)) by (by intros [_ ?]).
        rewrite (bool_decide_eq_true_2 (i = i /\ j0 = j0)) by done.
        rewrite (bool_decide_eq_true_2 (i = i /\ j0 ∈ j0 :: js))
          by (split; [done|by left]).
        by rewrite Hj0.
      * rewrite (bool_decide_eq_false_2 (i = i /\ j = j0)) by (by intros [_ ?]).
        destruct (decide (j ∈ js)) as [Hin|Hnin].
        -- rewrite (bool_decide_eq_true_2 (i = i /\ j ∈ js)) by done.
           rewrite (bool_decide_eq_true_2 (i = i /\ j ∈ j0 :: js))
             by (split; [done|by right]).
           done.
        -- rewrite (bool_decide_eq_false_2 (i = i /\ j ∈ js)) by (by intros [_ ?]).
           rewrite (bool_decide_eq_false_2 (i = i /\ j ∈ j0 :: js)); [done|].
           intros [_ H]. apply elem_of_cons in H as [?|?]; done.
    + rewrite !bool_decide_eq_false_2 by (by intros [? _]). done.
Qed.

Lemma mask_graph_spec i s_g mask mask' :
  mask_graph i s_g mask = Ok mask' ->
  width mask' = width mask
  /\ forall b j,
       entry mask' b j
       = if (b =? i)%nat
         then match node_type_at s_g j with
              | Some t => IZR t
              | None => entry mask b j
              end
         else entry mask b j.
Proof.
  intros Hrun. unfold mask_graph in Hrun.
  destruct (mask_graph_from i s_g _ mask mask' Hrun (NoDup_seq _ _)) as [Hw Hent].
  split; [done|]. intros b j. rewrite Hent. unfold node_type_at.
  destruct (decide (b = i)) as [->|Hb].
  - rewrite Nat.eqb_refl. destruct (j <? get_node_num s_g) eqn:Hj.
    + apply Nat.ltb_lt in Hj. rewrite bool_decide_eq_true_2; [done|].
      split; [done|]. apply elem_of_seq. lia.
    + apply Nat.ltb_ge in Hj. rewrite bool_decide_eq_false_2; [done|].
      intros [_ H]. apply elem_of_seq in H. lia.
  - replace (b =? i) with false by (symmetry; by apply Nat.eqb_neq).
    rewrite bool_decide_eq_false_2; [done|]. by intros [? _].
Qed.

Lemma mask_loop gl mask mask' :
  for_each (fun '(i, s_g) (graph_node_mask : tensor2) =>
              mask_graph i s_g graph_node_mask)
           (imap (fun (i : nat) (s_g : graph) => (i, s_g)) gl) mask
  = Ok mask' ->
  width mask' = width mask
  /\ forall b j,
       entry mask' b j
       = match gl !! b with
         | Some s_g => match node_type_at s_g j with
                       | Some t => IZR t
                       | None => entry mask b j
                       end
         | None => entry mask b j
         end.
Proof.
  revert mask'. induction gl as [|g gl IH] using rev_ind; intros mask' Hrun.
  - cbn in Hrun. injection Hrun as <-. split; [done|]. done.
  - rewrite imap_app, for_each_app in Hrun. cbn [imap] in Hrun.
    apply result_bind_inv in Hrun as (mask1 & Hpre & Hlast).
    cbn [for_each] in Hlast. apply result_bind_inv in Hlast as (mask2 & Hg & Heq).
    injection Heq as <-. rewrite Nat.add_0_r in Hg.
    destruct (IH mask1 Hpre) as [Hw1 Hent1].
    destruct (mask_graph_spec _ _ _ _ Hg) as [Hw2 Hent2].
    split; [congruence|]. intros b j. rewrite Hent2, Hent1.
    destruct (decide (b = length gl)) as [->|Hb].
    + rewrite Nat.eqb_refl, list_lookup_middle by done.
      rewrite lookup_ge_None_2 by done. done.
    + replace (b =? length gl) with false by (symmetry; by apply Nat.eqb_neq).
      destruct (decide (b < length gl)) as [Hlt|Hge].
      * by rewrite lookup_app_l.
      * rewrite !lookup_ge_None_2; [done| |lia].
        rewrite length_app. cbn. lia.
Qed.

Lemma _extract_params_inv self pool gl p :
  _extract_params self pool gl = Ok p ->
  exists embs rnns m,
    Forall2 (fun g x => node_emb g = Some x) gl embs
    /\ Forall2 (fun g x => rnn_emb g = Some x) gl rnns
    /\ py_max (map rows embs) = Ok m
    /\ stack (map (fun e => if rows e <? m then pad_rows e m else e) embs)
       = Ok (ret_graph_node_embedding p)
    /\ graph_pooling pool (ret_graph_node_embedding p)
       = Ok (ret_graph_level_embedding p)
    /\ for_each (fun '(i, s_g) (graph_node_mask : tensor2) =>
                   mask_graph i s_g graph_node_mask)
                (imap (fun (i : nat) (s_g : graph) => (i, s_g)) gl)
                {| width := m; entry := fun _ _ => (-1)%R |}
       = Ok (ret_graph_node_mask p).
Proof.
  intros H. unfold _extract_params in H.
  destruct (collect_cases node_emb gl []) as [(embs & Hembs & Hrun)|(_ & Hrun)];
    rewrite Hrun in H; [|done].
  rewrite bind_Ok in H. cbn [app] in H.
  destruct (collect_cases rnn_emb gl []) as [(rnns & Hrnns & Hrun2)|(_ & Hrun2)];
    rewrite Hrun2 in H; [|done].
  rewrite bind_Ok in H. cbn [app] in H.
  apply result_bind_inv in H as (m & Hmax & H).
  rewrite pad_all_spec, bind_Ok in H.
  apply result_bind_inv in H as (t & Hstack & H).
  apply result_bind_inv in H as (lvl & Hpool & H).
  apply result_bind_inv in H as (mask & Hmask & H).
  apply result_bind_inv in H as (rnnret & Hrnn & H).
  injection H as <-. cbn.
  exists embs, rnns, m. by split_and!.
Qed.

Lemma pad_rows_shape x m :
  rows x <= m ->
  rows (if rows x <? m then pad_rows x m else x) = m
  /\ cols (if rows x <? m then pad_rows x m else x) = cols x
  /\ forall n k, n < m ->
       cell (if rows x <? m then pad_rows x m else x) n k
       = if n <? rows x then cell x n k else 0%R.
Proof.
  intros Hle. destruct (rows x <? m) eqn:Hlt.
  - apply Nat.ltb_lt in Hlt. cbn [pad_rows rows cols cell].
    split; [lia|]. done.
  - apply Nat.ltb_ge in Hlt. split; [lia|]. split; [done|].
    intros n k Hn. by replace (n <? rows x) with true
      by (symmetry; apply Nat.ltb_lt; lia).
Qed.

Lemma _extract_params_shape self pool gl p :
  _extract_params self pool gl = Ok p ->
  dim0 (ret_graph_node_embedding p) = length gl
  /\ width (ret_graph_node_mask p) = dim1 (ret_graph_node_embedding p)
  /\ (exists g x, g ∈ gl /\ node_emb g = Some x
                  /\ rows x = dim1 (ret_graph_node_embedding p))
  /\ (forall b g, gl !! b = Some g ->
        exists x, node_emb g = Some x
                  /\ rows x <= dim1 (ret_graph_node_embedding p)
                  /\ cols x = dim2 (ret_graph_node_embedding p)
                  /\ forall n k, n < dim1 (ret_graph_node_embedding p) ->
                       val (ret_graph_node_embedding p) b n k
                       = if n <? rows x then cell x n k else 0%R)
  /\ (forall b g j, gl !! b = Some g ->
        entry (ret_graph_node_mask p) b j
        = match node_type_at g j with
          | Some t => IZR t
          | None => (-1)%R
          end).
Proof.
  intros H.
  destruct (_extract_params_inv _ _ _ _ H)
    as (embs & rnns & m & Hembs & _ & Hmax & Hstack & _ & Hmask).
  destruct (py_max_spec _ _ Hmax) as [Hle Hin].
  destruct (stack_inv _ _ Hstack) as (Hd0 & Hall & _ & Hval).
  destruct (mask_loop _ _ _ Hmask) as [Hw Hent]. cbn [width entry] in Hw, Hent.
  apply list_elem_of_fmap in Hin as (x0 & Hx0 & Hin0).
  assert (Hdim1 : dim1 (ret_graph_node_embedding p) = m).
  { destruct (Hall (if rows x0 <? m then pad_rows x0 m else x0)) as [Hr _].
    { apply list_elem_of_fmap. by exists x0. }
    rewrite <- Hr. apply pad_rows_shape. apply Hle.
    apply list_elem_of_fmap. by exists x0. }
  rewrite length_map in Hd0.
  split; [by rewrite Hd0, (Forall2_length _ _ _ Hembs)|].
  split; [congruence|]. split; [|split].
  - apply list_elem_of_lookup in Hin0 as (b & Hb).
    destruct (Forall2_lookup_r _ _ _ _ _ Hembs Hb) as (g & Hg & Hgx).
    exists g, x0. split; [by eapply list_elem_of_lookup_2|]. split; [done|congruence].
  - intros b g Hg.
    destruct (Forall2_lookup_l _ _ _ _ _ Hembs Hg) as (x & Hx & Hgx).
    exists x. split; [done|].
    assert (Hxle : rows x <= m).
    { apply Hle. apply list_elem_of_fmap. exists x.
      split; [done|by eapply list_elem_of_lookup_2]. }
    destruct (pad_rows_shape x m Hxle) as (Hr & Hc & Hcell).
    destruct (Hall (if rows x <? m then pad_rows x m else x)) as [_ Hcols].
    { apply list_elem_of_fmap. exists x.
      split; [done|by eapply list_elem_of_lookup_2]. }
    rewrite Hdim1. split; [done|]. split; [congruence|].
    intros n k Hn. rewrite Hval, list_lookup_fmap, Hx. cbn [fmap option_fmap option_map].
    by apply Hcell.
  - intros b g j Hg. rewrite Hent, Hg. done.
Qed.

Lemma list_sum_app f l1 l2 :
  list_sum f (l1 ++ l2) = (list_sum f l1 + list_sum f l2)%R.
Proof.
  induction l1 as [|x l1 IH].
  - cbn [app]. unfold list_sum at 2. cbn [map fold_right]. lra.
  - cbn [app]. rewrite !list_sum_cons, IH. lra.
Qed.

Lemma list_sum_cut f r n :
  r <= n ->
  list_sum (fun i => if i <? r then f i else 0%R) (seq 0 n)
  = list_sum f (seq 0 r).
Proof.
  intros Hle. replace n with (r + (n - r)) by lia.
  rewrite seq_app, list_sum_app. cbn [Nat.add].
  rewrite (list_sum_ext_in _ f (seq 0 r)).
  - rewrite (list_sum_ext_in _ (fun _ => 0%R) (seq r (n - r))).
    + rewrite list_sum_zero. lra.
    + intros i Hi. apply elem_of_seq in Hi.
      by replace (i <? r) with false by (symmetry; apply Nat.ltb_ge; lia).
  - intros i Hi. apply elem_of_seq in Hi.
    by replace (i <? r) with true by (symmetry; apply Nat.ltb_lt; lia).
Qed.

(** X20: [_extract_params] pads the node embeddings of a batch to one
    shape.  The result has one slice per graph and as many rows as the
    largest graph has; in the slice of a graph the rows of its own
    embedding are unchanged and the rows below them are zero. *)
Theorem _extract_params_padding self graph_pooling_strategy graph_list p :
  _extract_params self graph_pooling_strategy graph_list = Ok p ->
  dim0 (ret_graph_node_embedding p) = length graph_list
  /\ (exists g x, g ∈ graph_list /\ node_emb g = Some x
                  /\ rows x = dim1 (ret_graph_node_embedding p))
  /\ forall b g, graph_list !! b = Some g ->
       exists x, node_emb g = Some x
                 /\ rows x <= dim1 (ret_graph_node_embedding p)
                 /\ cols x = dim2 (ret_graph_node_embedding p)
                 /\ forall n k, n < dim1 (ret_graph_node_embedding p) ->
                      val (ret_graph_node_embedding p) b n k
                      = if n <? rows x then cell x n k else 0%R.
Proof.
  intros H.
  destruct (_extract_params_shape _ _ _ _ H) as (H0 & _ & Hmax & Hval & _).
  done.
Qed.

Lemma demo_extract_params pool :
  pool = None \/ pool = Some pool_mean ->
  exists p, _extract_params demo_decoder pool demo_graph_list = Ok p.
Proof. intros [-> | ->]; eexists; reflexivity. Qed.

Lemma _extract_params_padding_witness :
  exists p,
    _extract_params demo_decoder None demo_graph_list = Ok p
    /\ dim0 (ret_graph_node_embedding p) = 2
    /\ forall b g, demo_graph_list !! b = Some g ->
         exists x, node_emb g = Some x
                   /\ rows x <= dim1 (ret_graph_node_embedding p)
                   /\ cols x = dim2 (ret_graph_node_embedding p)
                   /\ forall n k, n < dim1 (ret_graph_node_embedding p) ->
                        val (ret_graph_node_embedding p) b n k
                        = if n <? rows x then cell x n k else 0%R.
Proof.
  destruct (demo_extract_params None (or_introl eq_refl)) as [p Hp].
  exists p. split; [exact Hp|].
  destruct (_extract_params_padding demo_decoder None demo_graph_list p Hp)
    as (H0 & _ & Hval).
  split; [exact H0|exact Hval].
Defined.

(** X21: the node mask built by [_extract_params] holds the type of every
    typed node and -1 everywhere else, so [extract_mask] selects a position
    for the node type [token] exactly when it is a node of that type:
    padding and nodes without type are selected for no node type. *)
Theorem _extract_params_mask self graph_pooling_strategy graph_list p :
  _extract_params self graph_pooling_strategy graph_list = Ok p ->
  width (ret_graph_node_mask p) = dim1 (ret_graph_node_embedding p)
  /\ forall b g j, graph_list !! b = Some g ->
       entry (ret_graph_node_mask p) b j
       = match node_type_at g j with
         | Some t => IZR t
         | None => (-1)%R
         end
       /\ forall token m,
            extract_mask (Some (ret_graph_node_mask p)) token = Ok m ->
            entry m b j
            = if bool_decide (node_type_at g j = Some (Z.of_nat token))
              then 1%R else 0%R.
Proof.
  intros H.
  destruct (_extract_params_shape _ _ _ _ H) as (_ & Hw & _ & _ & Hmask).
  split; [done|]. intros b g j Hg. specialize (Hmask b g j Hg).
  split; [done|]. intros token m [= <-]. cbn [entry]. rewrite Hmask.
  destruct (node_type_at g j) as [t|].
  - destruct (Req_dec_T (IZR t) (INR token)) as [Heq|Hne].
    + rewrite INR_IZR_INZ in Heq. apply eq_IZR in Heq. subst t.
      by rewrite bool_decide_eq_true_2.
    + rewrite bool_decide_eq_false_2; [done|]. intros [= ->].
      apply Hne. by rewrite INR_IZR_INZ.
  - destruct (Req_dec_T (-1) (INR token)) as [Heq|Hne].
    + pose proof (pos_INR token). lra.
    + by rewrite bool_decide_eq_false_2.
Qed.

Lemma _extract_params_mask_witness :
  exists p,
    _extract_params demo_decoder None demo_graph_list = Ok p
    /\ width (ret_graph_node_mask p) = dim1 (ret_graph_node_embedding p)
    /\ forall b g j, demo_graph_list !! b = Some g ->
         entry (ret_graph_node_mask p) b j
         = match node_type_at g j with
           | Some t => IZR t
           | None => (-1)%R
           end
         /\ forall token m,
              extract_mask (Some (ret_graph_node_mask p)) token = Ok m ->
              entry m b j
              = if bool_decide (node_type_at g j = Some (Z.of_nat token))
                then 1%R else 0%R.
Proof.
  destruct (demo_extract_params None (or_introl eq_refl)) as [p Hp].
  exists p. split; [exact Hp|].
  exact (_extract_params_mask demo_decoder None demo_graph_list p Hp).
Defined.


(** X23: with the pooling strategy ["mean"] the graph-level embedding of a
    graph is the sum of its node embeddings divided by the number of rows
    of the padded batch, the node number of the largest graph, not by its
    own node number.  (A batch whose graphs all have no node is left out:
    torch gives NaN there.) *)
Theorem _extract_params_mean_pooling self graph_list p :
  _extract_params self (Some pool_mean) graph_list = Ok p ->
  0 < dim1 (ret_graph_node_embedding p) ->
  exists t,
    ret_graph_level_embedding p = Some (pooled_batch t)
    /\ width t = dim2 (ret_graph_node_embedding p)
    /\ forall b g x k, graph_list !! b = Some g -> node_emb g = Some x ->
         entry t b k
         = (big_sum (rows x) (fun n => cell x n k)
            / INR (dim1 (ret_graph_node_embedding p)))%R.
Proof.
  intros H _.
  destruct (_extract_params_shape _ _ _ _ H) as (_ & _ & _ & Hval & _).
  destruct (_extract_params_inv _ _ _ _ H)
    as (embs & rnns & m & _ & _ & _ & _ & Hpool & _).
  cbn [graph_pooling] in Hpool. injection Hpool as Hpool.
  exists (mean_dim1 (ret_graph_node_embedding p)).
  split; [done|]. split; [done|].
  intros b g x k Hg Hx. destruct (Hval b g Hg) as (x' & Hx' & Hle & _ & Hcell).
  assert (x' = x) as -> by congruence.
  cbn [mean_dim1 entry]. f_equal. rewrite !big_sum_list_sum.
  rewrite <- (list_sum_cut _ _ _ Hle). apply list_sum_ext_in.
  intros n Hn. apply elem_of_seq in Hn. apply Hcell. lia.
Qed.

Lemma _extract_params_mean_pooling_witness :
  exists p t,
    _extract_params demo_decoder (Some pool_mean) demo_graph_list = Ok p
    /\ ret_graph_level_embedding p = Some (pooled_batch t)
    /\ forall b g x k, demo_graph_list !! b = Some g -> node_emb g = Some x ->
         entry t b k
         = (big_sum (rows x) (fun n => cell x n k)
            / INR (dim1 (ret_graph_node_embedding p)))%R.
Proof.
  destruct (demo_extract_params (Some pool_mean) (or_intror eq_refl)) as [p Hp].
  assert (Hrows : 0 < dim1 (ret_graph_node_embedding p)).
  { injection Hp as <-. cbn. lia. }
  destruct (_extract_params_mean_pooling demo_decoder demo_graph_list p Hp Hrows)
    as (t & Ht & _ & Hmean).
  exists p, t. split; [exact Hp|]. split; [exact Ht|exact Hmean].
Defined.







Import ForwardAux.





(** ** [CIDEr.calculate_scores] *)

Lemma map_seq_size {A : Type} start (xs : list A) :
  base.size (map_seq start xs : gmap nat A) = length xs.
Proof.
  revert start. induction xs as [|x xs IH]; intros start; [done|].
  cbn [map_seq length].
  rewrite map_size_insert_None by apply map_seq_cons_disjoint.
  by rewrite IH.
Qed.

(** X26: [CIDEr.calculate_scores] raises [AssertionError] when the two
    lists differ in length, before the scorer is called.  Otherwise the
    scorer is called once, with dictionaries that map every position to a
    list of one string: the ground truth, respectively the prediction, at
    that position, without its leading and trailing white space. *)
Theorem calculate_scores_spec {Score : Type}
    (compute_score : gmap nat (list pystr) -> gmap nat (list pystr)
                     -> result Score)
    (ground_truth predict : list pystr) :
  (length ground_truth <> length predict ->
   calculate_scores compute_score ground_truth predict = Raise AssertionError)
  /\ (length ground_truth = length predict ->
      exists refs hyps : gmap nat (list pystr),
        calculate_scores compute_score ground_truth predict
        = compute_score refs hyps
        /\ (forall i, refs !! i = (fun s => [strip s]) <$> ground_truth !! i)
        /\ (forall i, hyps !! i = (fun s => [strip s]) <$> predict !! i)).
Proof.
  unfold calculate_scores. cbn zeta. rewrite !map_seq_size, !length_map. split.
  - intros Hne.
    by replace (length ground_truth =? length predict) with false
      by (symmetry; by apply Nat.eqb_neq).
  - intros ->. rewrite Nat.eqb_refl. cbn [negb].
    eexists _, _. split; [reflexivity|].
    split; intros i; by rewrite lookup_map_seq_0, list_lookup_fmap.
Qed.

